(** * EncPedPop: the encryption layer of the ChillDKG reference

A shallow embedding of [python/chilldkg_ref/encpedpop.py] (the
nonce-based multi-recipient variant) and of the older
[reference/encpedpop.py] (one ECDH per pair of participants), with
the properties of the encryption layer proved over it.

Python exceptions are modelled by an error monad; curve arithmetic,
hashing and the secret-sharing core SimplPedPop are interfaces. *)

From Stdlib Require Import ZArith String Bool Lia List.
From Stdlib Require Import Strings.Byte.
Import ListNotations.
Local Open Scope Z_scope.

(** ** Python runtime *)

Definition bytes := list byte.

Definition bytes_eq_dec : forall a b : bytes, {a = b} + {a <> b} :=
  list_eq_dec Byte.byte_eq_dec.

(** The exceptions the two files can raise or let through. *)
Inductive exn : Type :=
| IndexError
| ValueError
| OverflowError
| AssertionError
| InvalidContributionError (participant : option nat) (reason : string).

Inductive result (A : Type) : Type :=
| Ok (a : A)
| Raise (e : exn).

Arguments Ok {A} a.
Arguments Raise {A} e.

Definition bind {A B} (c : result A) (k : A -> result B) : result B :=
  match c with
  | Ok a => k a
  | Raise e => Raise e
  end.

Notation "x <- c ;; k" := (bind c (fun x => k))
  (at level 61, c at next level, right associativity).
Notation "' pat <- c ;; k" := (bind c (fun x => match x with pat => k end))
  (at level 61, pat pattern, c at next level, right associativity).

(** [assert b] *)
Definition py_assert (b : bool) : result unit :=
  if b then Ok tt else Raise AssertionError.

(** [for x in xs: s = body(s, x)], stopping at the first exception. *)
Fixpoint py_for {S A} (body : S -> A -> result S) (xs : list A) (s : S)
  : result S :=
  match xs with
  | [] => Ok s
  | x :: xs' => s' <- body s x ;; py_for body xs' s'
  end.

(** [[f(x) for x in xs]] *)
Fixpoint py_listcomp {A B} (f : A -> result B) (xs : list A)
  : result (list B) :=
  match xs with
  | [] => Ok []
  | x :: xs' => y <- f x ;; ys <- py_listcomp f xs' ;; Ok (y :: ys)
  end.

(** [enumerate(xs)], counting from [start]. *)
Fixpoint enumerate_from {A} (start : nat) (xs : list A) : list (nat * A) :=
  match xs with
  | [] => []
  | x :: xs' => (start, x) :: enumerate_from (S start) xs'
  end.

Definition enumerate {A} (xs : list A) : list (nat * A) := enumerate_from 0 xs.

(** [range(n)] *)
Definition range (n : nat) : list nat := seq 0 n.

(** [xs[i]] for a Python int [i]: a negative index counts from the end. *)
Definition py_index {A} (xs : list A) (i : Z) : result A :=
  let n := Z.of_nat (length xs) in
  let j := if i <? 0 then i + n else i in
  if (0 <=? j) && (j <? n) then
    match nth_error xs (Z.to_nat j) with
    | Some x => Ok x
    | None => Raise IndexError
    end
  else Raise IndexError.

(** [zip(xs, ys, strict=True)] *)
Definition py_zip_strict {A B} (xs : list A) (ys : list B)
  : result (list (A * B)) :=
  if Nat.eqb (length xs) (length ys) then Ok (combine xs ys)
  else Raise ValueError.

Definition byte_of_Z (z : Z) : byte :=
  match Byte.of_N (Z.to_N (z mod 256)) with
  | Some b => b
  | None => x00
  end.

(** [i.to_bytes(4, byteorder="big")] *)
Definition to_bytes4 (i : Z) : result bytes :=
  if (0 <=? i) && (i <? 2 ^ 32) then
    Ok [byte_of_Z (Z.shiftr i 24); byte_of_Z (Z.shiftr i 16);
        byte_of_Z (Z.shiftr i 8); byte_of_Z i]
  else Raise OverflowError.

(** [b"".join(xs)] *)
Definition join (xs : list bytes) : bytes := concat xs.

(** ** Scalars *)

(** Modelled from the spec: the class [Scalar] of [secp256k1proto] is
  not part of the sources; the specification describes it as a field
  element modulo the curve order with [+], [-] and summation.  The
  constructor reduces its argument, so every scalar built by the code
  lies in [0, GROUP_ORDER). *)
Definition GROUP_ORDER : Z :=
  0xFFFFFFFFFFFFFFFFFFFFFFFFFFFFFFFEBAAEDCE6AF48A03BBFD25E8CD0364141.

Definition Scalar := Z.

Definition mkScalar (z : Z) : Scalar := z mod GROUP_ORDER.

Definition scalar_add (a b : Scalar) : Scalar := mkScalar (a + b).

Definition scalar_sub (a b : Scalar) : Scalar := mkScalar (a - b).

(** [Scalar.sum], applied to the scalars of [xs]. *)
Definition Scalar_sum (xs : list Scalar) : Scalar :=
  fold_left scalar_add xs (mkScalar 0).

(** ** External interfaces *)

(** Curve and hash primitives imported from [secp256k1proto],
  [secp256k1ref] and [util].  The curve operations are partial: they
  have no value on a key that does not decode, and the library then
  raises [ValueError] (the handler in [Reference.signer_round1] names
  that exception). *)
Class Primitives : Type := {
  ecdh_libsecp256k1 : bytes -> bytes -> option bytes;
  pubkey_gen_plain : bytes -> option bytes;
  int_from_bytes : bytes -> Z;
  tagged_hash_bip_dkg : string -> bytes -> bytes;
  prf : bytes -> string -> bytes -> bytes;
  GE : Type;
  ecdh_raw : bytes -> bytes -> option GE;
  to_bytes_compressed : GE -> bytes
}.

(** A call into the curve library. *)
Definition decoded {A} (o : option A) : result A :=
  match o with
  | Some a => Ok a
  | None => Raise ValueError
  end.

(** The secret-sharing core [simplpedpop], in the two shapes the files
  call it. *)
Class SimplPedPop : Type := {
  simpl_ParticipantMsg : Type;
  simpl_CoordinatorMsg : Type;
  simpl_ParticipantState : Type;
  DKGOutput : Type;
  simpl_state_t : simpl_ParticipantState -> Z;
  simpl_participant_step1 :
    bytes -> Z -> nat -> Z ->
    result (simpl_ParticipantState * simpl_ParticipantMsg * list Scalar);
  simpl_participant_step2 :
    simpl_ParticipantState -> simpl_CoordinatorMsg -> Scalar ->
    result (DKGOutput * bytes);
  simpl_coordinator_step :
    list simpl_ParticipantMsg -> Z -> nat ->
    result (simpl_CoordinatorMsg * DKGOutput * bytes);
  simpl_SignerState1 : Type;
  simpl_Unicast1 : Type;
  simpl_signer_round1 :
    bytes -> Z -> nat -> Z ->
    result (simpl_SignerState1 * simpl_Unicast1 * list Scalar)
}.

(** The finalisation step of the older core, which only
    [Reference.signer_pre_finalize] calls. *)
Class SimplPreFinalize (C : SimplPedPop) : Type := {
  simpl_Broadcast1 : Type;
  simpl_signer_pre_finalize :
    simpl_SignerState1 -> simpl_Broadcast1 -> Scalar ->
    result (bytes * DKGOutput)
}.

(** ** python/chilldkg_ref/encpedpop.py *)

Section Encryption.
Context {P : Primitives}.

Definition ecdh (seckey my_pubkey their_pubkey context : bytes)
           (sending : bool) : result Scalar :=
  data <- decoded (ecdh_libsecp256k1 seckey their_pubkey) ;;
  let data :=
    if sending then data ++ (my_pubkey ++ their_pubkey)
    else data ++ (their_pubkey ++ my_pubkey) in
  _ <- py_assert (Nat.eqb (length data) (2 * 33 + 32)) ;;
  let data := data ++ context in
  Ok (mkScalar (int_from_bytes (tagged_hash_bip_dkg "encpedpop ecdh" data))).

Definition self_pad (deckey context_ : bytes) : Scalar :=
  mkScalar (int_from_bytes (prf deckey "encaps_multi self_pad" context_)).

(** The pad of recipient [i], as the body of the loop of
  [encaps_multi] computes it. *)
Definition encaps_pad (secnonce pubnonce deckey context : bytes) (idx : Z)
           (i : nat) (enckey : bytes) : result Scalar :=
  index_bytes <- to_bytes4 (Z.of_nat i) ;;
  let context_ := index_bytes ++ context in
  if Z.of_nat i =? idx then Ok (self_pad deckey context_)
  else ecdh secnonce pubnonce enckey context_ true.

Definition encaps_multi (secnonce pubnonce deckey : bytes)
           (enckeys : list bytes) (context : bytes) (idx : Z)
  : result (list Scalar) :=
  py_for
    (fun pads '(i, enckey) =>
       pad <- encaps_pad secnonce pubnonce deckey context idx i enckey ;;
       Ok (pads ++ [pad]))
    (enumerate enckeys) [].

Definition encrypt_multi (secnonce pubnonce deckey : bytes)
           (enckeys : list bytes) (messages : list Scalar)
           (context : bytes) (idx : Z) : result (list Scalar) :=
  pads <- encaps_multi secnonce pubnonce deckey enckeys context idx ;;
  pairs <- py_zip_strict messages pads ;;
  Ok (map (fun '(message, pad) => scalar_add message pad) pairs).

(** The pad of sender [i], as the body of the loop of [decrypt_sum]
  computes it. *)
Definition decaps_pad (deckey enckey context_ : bytes) (idx : Z)
           (i : nat) (pubnonce : bytes) : result Scalar :=
  if Z.of_nat i =? idx then Ok (self_pad deckey context_)
  else ecdh deckey enckey pubnonce context_ false.

Definition decrypt_sum (deckey enckey : bytes) (pubnonces : list bytes)
           (sum_ciphertexts : Scalar) (context : bytes) (idx : Z)
  : result Scalar :=
  if idx >=? Z.of_nat (length pubnonces) then Raise IndexError
  else
    index_bytes <- to_bytes4 idx ;;
    let context_ := index_bytes ++ context in
    py_for
      (fun sum_plaintexts '(i, pubnonce) =>
         pad <- decaps_pad deckey enckey context_ idx i pubnonce ;;
         Ok (scalar_sub sum_plaintexts pad))
      (enumerate pubnonces) sum_ciphertexts.
End Encryption.

(** *** Messages *)

Module ParticipantMsg.
Section Fields.
Context {C : SimplPedPop}.
Record t : Type := mk {
    simpl_pmsg : simpl_ParticipantMsg;
    pubnonce : bytes;
    enc_shares : list Scalar
  }.
End Fields.
End ParticipantMsg.

Module CoordinatorMsg.
Section Fields.
Context {C : SimplPedPop}.
Record t : Type := mk {
    simpl_cmsg : simpl_CoordinatorMsg;
    pubnonces : list bytes
  }.
End Fields.
End CoordinatorMsg.

(** *** Participant *)

Module ParticipantState.
Section Fields.
Context {C : SimplPedPop}.
Record t : Type := mk {
    simpl_state : simpl_ParticipantState;
    pubnonce : bytes;
    enckeys : list bytes;
    idx : Z
  }.
End Fields.
End ParticipantState.

Section Participant.
Context {P : Primitives} {C : SimplPedPop}.

Definition serialize_enc_context (t : Z) (enckeys : list bytes)
  : result bytes :=
  t_bytes <- to_bytes4 t ;;
  Ok (t_bytes ++ join enckeys).

Definition derive_simpl_seed (seed pubnonce enc_context : bytes) : bytes :=
  prf seed "encpedpop seed" (pubnonce ++ enc_context).

Definition participant_step1 (seed deckey : bytes) (enckeys : list bytes)
           (t idx : Z) (random : bytes)
  : result (ParticipantState.t * ParticipantMsg.t) :=
  _ <- py_assert (t <? 2 ^ (4 * 8)) ;;
  _ <- py_assert (Nat.eqb (length random) 32) ;;
  let n := length enckeys in
  enc_context <- serialize_enc_context t enckeys ;;
  let secnonce := prf seed "encpodpop secnonce" (random ++ enc_context) in
  pubnonce <- decoded (pubkey_gen_plain secnonce) ;;
  let simpl_seed := derive_simpl_seed seed pubnonce enc_context in
  '(simpl_state, simpl_pmsg, shares) <-
    simpl_participant_step1 simpl_seed t n idx ;;
  _ <- py_assert (Nat.eqb (length shares) n) ;;
  enc_shares <-
    encrypt_multi secnonce pubnonce deckey enckeys shares enc_context idx ;;
  let pmsg := ParticipantMsg.mk simpl_pmsg pubnonce enc_shares in
  let state := ParticipantState.mk simpl_state pubnonce enckeys idx in
  Ok (state, pmsg).

Definition participant_step2 (state : ParticipantState.t) (deckey : bytes)
           (cmsg : CoordinatorMsg.t) (enc_secshare : Scalar)
  : result (DKGOutput * bytes) :=
  let '(ParticipantState.mk simpl_state pubnonce enckeys idx) := state in
  let '(CoordinatorMsg.mk simpl_cmsg pubnonces) := cmsg in
  reported_pubnonce <- py_index pubnonces idx ;;
  if bytes_eq_dec reported_pubnonce pubnonce then
    enc_context <- serialize_enc_context (simpl_state_t simpl_state) enckeys ;;
    own_enckey <- py_index enckeys idx ;;
    secshare <-
      decrypt_sum deckey own_enckey pubnonces enc_secshare enc_context idx ;;
    '(dkg_output, eq_input) <-
      simpl_participant_step2 simpl_state simpl_cmsg secshare ;;
    let eq_input := eq_input ++ (join enckeys ++ join pubnonces) in
    Ok (dkg_output, eq_input)
  else
    Raise (InvalidContributionError
             None "Coordinator replied with wrong pubnonce").
End Participant.

(** *** Coordinator *)

Section Coordinator.
Context {C : SimplPedPop}.

(** The loop that validates the length of every [enc_shares]. *)
Definition check_enc_shares_length (pmsgs : list ParticipantMsg.t) (n : nat)
  : result unit :=
  py_for
    (fun _ i =>
       pmsg <- py_index pmsgs (Z.of_nat i) ;;
       if negb (Nat.eqb (length (ParticipantMsg.enc_shares pmsg)) n) then
         Raise (InvalidContributionError
                  (Some i) "Participant sent enc_shares with invalid length")
       else Ok tt)
    (range n) tt.

Definition coordinator_step (pmsgs : list ParticipantMsg.t) (t : Z)
           (enckeys : list bytes)
  : result (CoordinatorMsg.t * DKGOutput * bytes * list Scalar) :=
  let n := length enckeys in
  if negb (Nat.eqb n (length pmsgs)) then Raise ValueError
  else
    '(simpl_cmsg, dkg_output, eq_input) <-
      simpl_coordinator_step (map ParticipantMsg.simpl_pmsg pmsgs) t n ;;
    let pubnonces := map ParticipantMsg.pubnonce pmsgs in
    _ <- check_enc_shares_length pmsgs n ;;
    enc_secshares <-
      py_listcomp
        (fun i =>
           column <-
             py_listcomp
               (fun pmsg =>
                  py_index (ParticipantMsg.enc_shares pmsg) (Z.of_nat i))
               pmsgs ;;
           Ok (Scalar_sum column))
        (range n) ;;
    let eq_input := eq_input ++ (join enckeys ++ join pubnonces) in
    Ok (CoordinatorMsg.mk simpl_cmsg pubnonces, dkg_output, eq_input,
        enc_secshares).
End Coordinator.

(** ** reference/encpedpop.py *)

Module Reference.

Module Unicast1.
Section Fields.
Context {C : SimplPedPop}.
Record t : Type := mk {
    simpl_uni1 : simpl_Unicast1;
    enc_shares : list Scalar
  }.
End Fields.
End Unicast1.

Module SignerState1.
Section Fields.
Context {C : SimplPedPop}.
Record t : Type := mk {
    t_ : Z;
    deckey : bytes;
    enckeys : list bytes;
    idx : Z;
    self_share : Scalar;
    simpl_state : simpl_SignerState1
  }.
End Fields.
End SignerState1.

Section Signer.
Context {P : Primitives} {C : SimplPedPop}.

Definition ecdh (deckey enckey context : bytes) : result Scalar :=
  shared_secret <- decoded (ecdh_raw deckey enckey) ;;
  Ok (mkScalar
        (int_from_bytes
           (tagged_hash_bip_dkg
              "ECDH" (to_bytes_compressed shared_secret ++ context)))).

Definition encrypt (share : Scalar) (deckey enckey context : bytes)
  : result Scalar :=
  pad <- ecdh deckey enckey context ;;
  Ok (scalar_add share pad).

(** [try: c  except ValueError: raise e] *)
Definition except_ValueError {A} (c : result A) (e : exn) : result A :=
  match c with
  | Raise ValueError => Raise e
  | other => other
  end.

(** The argument [n] is overwritten by [len(enckeys)] at once. *)
Definition signer_round1 (seed : bytes) (t : Z) (n : nat) (deckey : bytes)
           (enckeys : list bytes) (idx : Z)
  : result (SignerState1.t * Unicast1.t) :=
  _ <- py_assert (t <? 2 ^ (4 * 8)) ;;
  let n := length enckeys in
  t_bytes <- to_bytes4 t ;;
  let enc_context := t_bytes ++ join enckeys in
  let seed_ := tagged_hash_bip_dkg "EncPedPop seed" (seed ++ enc_context) in
  '(simpl_state, simpl_uni1, shares) <-
    simpl_signer_round1 seed_ t n idx ;;
  _ <- py_assert (Nat.eqb (length shares) n) ;;
  enc_shares <-
    py_for
      (fun enc_shares i =>
         if Z.of_nat i =? idx then Ok (enc_shares ++ [mkScalar 0])
         else
           enc_share <-
             except_ValueError
               (share <- py_index shares (Z.of_nat i) ;;
                enckey <- py_index enckeys (Z.of_nat i) ;;
                encrypt share deckey enckey enc_context)
               (InvalidContributionError
                  (Some i) "Participant sent invalid encryption key") ;;
           Ok (enc_shares ++ [enc_share]))
      (range n) [] ;;
  self_share <- py_index shares idx ;;
  let uni1 := Unicast1.mk simpl_uni1 enc_shares in
  let state1 :=
    SignerState1.mk t deckey enckeys idx self_share simpl_state in
  Ok (state1, uni1).
End Signer.

Module Broadcast1.
Section Fields.
Context {C : SimplPedPop} {F : SimplPreFinalize C}.
Record t : Type := mk {
    simpl_broad1 : simpl_Broadcast1;
    enc_shares_sum : Scalar
  }.
End Fields.
End Broadcast1.

Section PreFinalize.
Context {P : Primitives} {C : SimplPedPop} {F : SimplPreFinalize C}.

Definition decrypt_sum (ciphertext_sum : Scalar) (deckey : bytes)
           (enckeys : list bytes) (idx : Z) (context : bytes)
  : result Scalar :=
  py_for
    (fun shares_sum i =>
       if negb (Z.of_nat i =? idx) then
         enckey <- py_index enckeys (Z.of_nat i) ;;
         pad <- ecdh deckey enckey context ;;
         Ok (scalar_sub shares_sum pad)
       else Ok shares_sum)
    (range (length enckeys)) ciphertext_sum.

Definition signer_pre_finalize (state1 : SignerState1.t)
           (broad1 : Broadcast1.t) : result (bytes * DKGOutput) :=
  let '(SignerState1.mk t deckey enckeys idx self_share simpl_state) :=
    state1 in
  let '(Broadcast1.mk simpl_broad1 enc_shares_sum) := broad1 in
  t_bytes <- to_bytes4 t ;;
  let enc_context := t_bytes ++ join enckeys in
  shares_sum <- decrypt_sum enc_shares_sum deckey enckeys idx enc_context ;;
  let shares_sum := scalar_add shares_sum self_share in
  '(eta, dkg_output) <-
    simpl_signer_pre_finalize simpl_state simpl_broad1 shares_sum ;;
  let eta := eta ++ join enckeys in
  Ok (eta, dkg_output).
End PreFinalize.
End Reference.

(** ** A small instance of the interfaces

Keys are 32 bytes, a public key is the byte [0x02] followed by the
secret key, the shared secret is the exclusive or of the two secret
keys, and the hash is a polynomial checksum.  It is used to run the
definitions above on concrete inputs. *)

Module Toy.

Definition xor_byte (a b : byte) : byte :=
  byte_of_Z (Z.lxor (Z.of_N (Byte.to_N a)) (Z.of_N (Byte.to_N b))).

Fixpoint xor_bytes (a b : bytes) : bytes :=
  match a, b with
  | x :: a', y :: b' => xor_byte x y :: xor_bytes a' b'
  | _, _ => []
  end.

Definition big_endian (b : bytes) : Z :=
  fold_left (fun acc x => 256 * acc + Z.of_N (Byte.to_N x)) b 0.

Fixpoint bytes_of_Z (width : nat) (z : Z) : bytes :=
  match width with
  | O => []
  | S w => bytes_of_Z w (z / 256) ++ [byte_of_Z z]
  end.

Definition checksum (tag : string) (data : bytes) : bytes :=
  bytes_of_Z 32
    (fold_left (fun acc x => 257 * acc + Z.of_N (Byte.to_N x) + 1) data
               (Z.of_nat (String.length tag))).

Definition pubkey (seckey : bytes) : option bytes :=
  if Nat.eqb (length seckey) 32 then Some (x02 :: seckey) else None.

Definition shared (seckey their_pubkey : bytes) : option bytes :=
  match their_pubkey with
  | x02 :: body =>
      if Nat.eqb (length seckey) 32 && Nat.eqb (length body) 32
      then Some (xor_bytes seckey body) else None
  | _ => None
  end.

Definition primitives : Primitives := {|
    ecdh_libsecp256k1 := shared;
    pubkey_gen_plain := pubkey;
    int_from_bytes := big_endian;
    tagged_hash_bip_dkg := checksum;
    prf := fun seed tag extra_input => checksum tag (seed ++ extra_input);
    GE := bytes;
    ecdh_raw := fun deckey enckey =>
                  option_map (cons x02) (shared deckey enckey);
    to_bytes_compressed := fun point => point
  |}.

Definition shares_of (seed : bytes) (n : nat) : list Scalar :=
  map (fun i => mkScalar (big_endian seed + Z.of_nat i)) (range n).

(** A core that deals [n] shares derived from its seed and echoes
  what it is given. *)
Definition core : SimplPedPop := {|
  simpl_ParticipantMsg := bytes;
  simpl_CoordinatorMsg := list bytes;
  simpl_ParticipantState := Z;
  DKGOutput := Scalar;
  simpl_state_t := fun t => t;
  simpl_participant_step1 := fun seed t n idx =>
                               Ok (t, seed, shares_of seed n);
  simpl_participant_step2 := fun state cmsg secshare => Ok (secshare, []);
  simpl_coordinator_step := fun pmsgs t n => Ok (pmsgs, 0, []);
  simpl_SignerState1 := Z;
  simpl_Unicast1 := bytes;
  simpl_signer_round1 := fun seed t n idx => Ok (t, seed, shares_of seed n)
|}.

Definition key (b : byte) : bytes := repeat b 32.

(** A finalisation that returns the total share as its output. *)
Definition finalize : SimplPreFinalize core := {|
  simpl_Broadcast1 := bytes;
  simpl_signer_pre_finalize :=
    fun state broad1 shares_sum =>
      Ok (broad1, (shares_sum : @DKGOutput core))
|}.

End Toy.

(** ** Vocabulary of the statements *)

(** What the curve library promises about key pairs: both sides of a
  Diffie-Hellman exchange hold the same shared secret. *)
Definition dh_commutes (P : Primitives) : Prop :=
  forall secretA pubA secretB pubB,
    pubkey_gen_plain secretA = Some pubA ->
    pubkey_gen_plain secretB = Some pubB ->
    ecdh_libsecp256k1 secretA pubB = ecdh_libsecp256k1 secretB pubA.

(** Sizes and definedness: a public key takes 33 bytes, a shared secret
  32, and the exchange is defined between two generated keys. *)
Record curve_laws (P : Primitives) : Prop := {
  laws_commute : dh_commutes P;
  laws_pubkey_size :
    forall seckey pubkey,
      pubkey_gen_plain seckey = Some pubkey -> length pubkey = 33%nat;
  laws_secret_size :
    forall seckey pubkey secret,
      ecdh_libsecp256k1 seckey pubkey = Some secret -> length secret = 32%nat;
  laws_defined :
    forall secretA pubA secretB pubB,
      pubkey_gen_plain secretA = Some pubA ->
      pubkey_gen_plain secretB = Some pubB ->
      ecdh_libsecp256k1 secretA pubB <> None
}.

(** One participant of a run of the encryption layer: long-term keys,
  session nonce, and the plaintexts it addresses to every recipient. *)
Module Party.
Record t : Type := mk {
    deckey : bytes;
    enckey : bytes;
    secnonce : bytes;
    pubnonce : bytes;
    messages : list Scalar
  }.
End Party.

Definition valid_keys {P : Primitives} (p : Party.t) : Prop :=
  pubkey_gen_plain (Party.deckey p) = Some (Party.enckey p) /\
  pubkey_gen_plain (Party.secnonce p) = Some (Party.pubnonce p).

(** [ciphertexts] holds, for every sender, the vector that
  [encrypt_multi] returned to it. *)
Definition encrypted_by {P : Primitives} (parties : list Party.t)
           (context : bytes) (ciphertexts : list (list Scalar)) : Prop :=
  length ciphertexts = length parties /\
  forall s p c,
    nth_error parties s = Some p ->
    nth_error ciphertexts s = Some c ->
    encrypt_multi (Party.secnonce p) (Party.pubnonce p) (Party.deckey p)
                  (map Party.enckey parties) (Party.messages p) context
                  (Z.of_nat s) = Ok c.

(** Entry [i] of every vector of a family. *)
Definition column (i : nat) (vectors : list (list Scalar)) : list Scalar :=
  map (fun v => nth i v 0) vectors.

(** Two computations end the same way: both return, or both raise the
  same exception. *)
Definition same_outcome {A B} (r : result A) (r' : result B) : Prop :=
  match r, r' with
  | Ok _, Ok _ => True
  | Raise e, Raise e' => e = e'
  | _, _ => False
  end.

Definition is_invalid_contribution (e : exn) : bool :=
  match e with
  | InvalidContributionError _ _ => true
  | _ => false
  end.

(** The integer sum of a list. *)
Definition Zsum (xs : list Z) : Z := fold_right Z.add 0 xs.

(** The index of the first message whose vector of encrypted shares
    does not have [n] entries, counting from [start]. *)
Fixpoint first_invalid_length_from {C : SimplPedPop} (start : nat)
         (pmsgs : list ParticipantMsg.t) (n : nat) : option nat :=
  match pmsgs with
  | [] => None
  | pmsg :: rest =>
      if Nat.eqb (length (ParticipantMsg.enc_shares pmsg)) n
      then first_invalid_length_from (S start) rest n
      else Some start
  end.

Definition first_invalid_length {C : SimplPedPop}
           (pmsgs : list ParticipantMsg.t) (n : nat) : option nat :=
  first_invalid_length_from 0 pmsgs n.

(** [int.from_bytes(b, "big")] *)
Definition from_bytes_big (b : bytes) : Z :=
  fold_left (fun acc x => 256 * acc + Z.of_N (Byte.to_N x)) b 0.

(** What one participant feeds into step 1. *)
Module Input.
Record t : Type := mk {
    seed : bytes;
    deckey : bytes;
    random : bytes
  }.
End Input.

(** The shares the secret-sharing core deals to participant [idx]:
    the calls of [participant_step1] up to and including the core. *)
Definition dealt_shares {P : Primitives} {C : SimplPedPop}
           (input : Input.t) (enckeys : list bytes) (t idx : Z)
  : result (list Scalar) :=
  enc_context <- serialize_enc_context t enckeys ;;
  pubnonce <-
    decoded (pubkey_gen_plain
               (prf (Input.seed input) "encpodpop secnonce"
                    (Input.random input ++ enc_context))) ;;
  '(_, _, shares) <-
    simpl_participant_step1
      (derive_simpl_seed (Input.seed input) pubnonce enc_context)
      t (length enckeys) idx ;;
  Ok shares.

(** The state of the core remembers the threshold it was started with
    ([participant_step2] reads [simpl_state.t]). *)
Definition core_stores_threshold (C : SimplPedPop) : Prop :=
  forall seed t n idx simpl_state simpl_pmsg shares,
    simpl_participant_step1 seed t n idx
    = Ok (simpl_state, simpl_pmsg, shares) ->
    simpl_state_t simpl_state = t.

(** Entry [i] of [enckeys] is the public key of participant [i]. *)
Definition own_keys {P : Primitives} (inputs : list Input.t)
           (enckeys : list bytes) : Prop :=
  length enckeys = length inputs /\
  forall i input enckey,
    nth_error inputs i = Some input ->
    nth_error enckeys i = Some enckey ->
    pubkey_gen_plain (Input.deckey input) = Some enckey.

(** [outputs] holds what [participant_step1] returned to every
    participant. *)
Definition step1_outputs {P : Primitives} {C : SimplPedPop}
           (inputs : list Input.t) (enckeys : list bytes) (t : Z)
           (outputs : list (ParticipantState.t * ParticipantMsg.t)) : Prop :=
  length outputs = length inputs /\
  forall i input output,
    nth_error inputs i = Some input ->
    nth_error outputs i = Some output ->
    participant_step1 (Input.seed input) (Input.deckey input) enckeys t
                      (Z.of_nat i) (Input.random input) = Ok output.

(** [shares] holds the shares the core dealt to every participant. *)
Definition step1_shares {P : Primitives} {C : SimplPedPop}
           (inputs : list Input.t) (enckeys : list bytes) (t : Z)
           (shares : list (list Scalar)) : Prop :=
  length shares = length inputs /\
  forall i input dealt,
    nth_error inputs i = Some input ->
    nth_error shares i = Some dealt ->
    dealt_shares input enckeys t (Z.of_nat i) = Ok dealt.

(** What one signer feeds into round 1 of the older variant. *)
Module SignerInput.
Record t : Type := mk {
    seed : bytes;
    deckey : bytes
  }.
End SignerInput.

(** The shares the older core deals to signer [idx]: the calls of
    [Reference.signer_round1] up to and including the core. *)
Definition reference_dealt_shares {P : Primitives} {C : SimplPedPop}
           (seed : bytes) (enckeys : list bytes) (t idx : Z)
  : result (list Scalar) :=
  t_bytes <- to_bytes4 t ;;
  '(_, _, shares) <-
    simpl_signer_round1
      (tagged_hash_bip_dkg
         "EncPedPop seed" (seed ++ (t_bytes ++ join enckeys)))
      t (length enckeys) idx ;;
  Ok shares.

(** Any two signers derive the same shared secret from their own
    decryption key and the other's encryption key. *)
Definition pairwise_shared_secrets {P : Primitives}
           (signers : list SignerInput.t) (enckeys : list bytes) : Prop :=
  length enckeys = length signers /\
  forall i j a b enckey_i enckey_j,
    nth_error signers i = Some a ->
    nth_error signers j = Some b ->
    nth_error enckeys i = Some enckey_i ->
    nth_error enckeys j = Some enckey_j ->
    ecdh_raw (SignerInput.deckey a) enckey_j
    = ecdh_raw (SignerInput.deckey b) enckey_i.

(** [outputs] holds what [Reference.signer_round1] returned to every
    signer. *)
Definition round1_outputs {P : Primitives} {C : SimplPedPop}
           (signers : list SignerInput.t) (enckeys : list bytes) (t : Z)
           (outputs : list (Reference.SignerState1.t * Reference.Unicast1.t))
  : Prop :=
  length outputs = length signers /\
  forall i signer output,
    nth_error signers i = Some signer ->
    nth_error outputs i = Some output ->
    Reference.signer_round1 (SignerInput.seed signer) t (length enckeys)
                            (SignerInput.deckey signer) enckeys (Z.of_nat i)
    = Ok output.

(** [shares] holds the shares the older core dealt to every signer. *)
Definition round1_shares {P : Primitives} {C : SimplPedPop}
           (signers : list SignerInput.t) (enckeys : list bytes) (t : Z)
           (shares : list (list Scalar)) : Prop :=
  length shares = length signers /\
  forall i signer dealt,
    nth_error signers i = Some signer ->
    nth_error shares i = Some dealt ->
    reference_dealt_shares (SignerInput.seed signer) enckeys t (Z.of_nat i)
    = Ok dealt.

(** The pad the older [decrypt_sum] removes for position [i]. *)
Definition reference_pad {P : Primitives} (deckey : bytes)
           (enckeys : list bytes) (context : bytes) (i : nat) : Scalar :=
  match Reference.ecdh deckey (nth i enckeys []) context with
  | Ok pad => pad
  | Raise _ => 0
  end.

(** ** Runs on the small instance *)

Module ToyRun.
#[local] Existing Instance Toy.primitives.
#[local] Existing Instance Toy.core.
#[local] Existing Instance Toy.finalize.

Definition party (key nonce : byte) (messages : list Scalar) : Party.t :=
  Party.mk (Toy.key key) (x02 :: Toy.key key)
           (Toy.key nonce) (x02 :: Toy.key nonce) messages.

Definition parties : list Party.t :=
  [party x01 x11 [5; 7; 11]; party x02 x12 [13; 17; 19];
   party x03 x13 [23; 29; 31]].

Definition context : bytes := [x00; x00; x00; x02; x2a].

Definition value_or {A} (default : A) (r : result A) : A :=
  match r with
  | Ok a => a
  | Raise _ => default
  end.

Definition returns {A} (r : result A) : bool :=
  match r with
  | Ok _ => true
  | Raise _ => false
  end.

Definition encrypt_as (s : nat) (p : Party.t) : list Scalar :=
  value_or []
    (encrypt_multi (Party.secnonce p) (Party.pubnonce p) (Party.deckey p)
                   (map Party.enckey parties) (Party.messages p) context
                   (Z.of_nat s)).

Definition ciphertexts : list (list Scalar) :=
  map (fun '(s, p) => encrypt_as s p) (enumerate parties).

Definition enckeys : list bytes := map Party.enckey parties.

Definition seed : bytes := Toy.key x2a.

Definition random : bytes := Toy.key x63.

(** Step 1 of participant 0. *)
Definition enc_context : bytes := [x00; x00; x00; x02] ++ join enckeys.

Definition secnonce0 : bytes :=
  prf seed "encpodpop secnonce" (random ++ enc_context).

Definition pubnonce0 : bytes := x02 :: secnonce0.

Definition simpl_seed0 : bytes := derive_simpl_seed seed pubnonce0 enc_context.

Definition state0 : ParticipantState.t :=
  ParticipantState.mk 2 pubnonce0 enckeys 0.

Definition pmsg0 : ParticipantMsg.t :=
  ParticipantMsg.mk
    simpl_seed0 pubnonce0
    (value_or []
       (encrypt_multi secnonce0 pubnonce0 (Toy.key x01) enckeys
                      (Toy.shares_of simpl_seed0 3) enc_context 0)).

(** Participant 1 with its nonce, and with another one. *)
Definition pads1 : list Scalar :=
  value_or []
    (encaps_multi (Toy.key x12) (x02 :: Toy.key x12) (Toy.key x02)
                  enckeys context 1).

Definition pads1' : list Scalar :=
  value_or []
    (encaps_multi (Toy.key x77) (x02 :: Toy.key x77) (Toy.key x02)
                  enckeys context 1).

Definition ciphertexts1 : list Scalar :=
  value_or []
    (encrypt_multi (Toy.key x12) (x02 :: Toy.key x12) (Toy.key x02)
                   enckeys [13; 17; 19] context 1).

Definition ciphertexts1' : list Scalar :=
  value_or []
    (encrypt_multi (Toy.key x77) (x02 :: Toy.key x77) (Toy.key x02)
                   enckeys [13; 17; 19] context 1).

(** Keys of which the second does not decode. *)
Definition bad_enckeys : list bytes := [x02 :: Toy.key x01; repeat x00 33].

Definition bad_enc_context : bytes := [x00; x00; x00; x02] ++ join bad_enckeys.

Definition bad_secnonce : bytes :=
  prf seed "encpodpop secnonce" (random ++ bad_enc_context).

Definition bad_simpl_seed : bytes :=
  derive_simpl_seed seed (x02 :: bad_secnonce) bad_enc_context.

(** Messages of which the second carries one share too few. *)
Definition short_pmsgs : list ParticipantMsg.t :=
  [ParticipantMsg.mk [x01] [x0a] [1; 2]; ParticipantMsg.mk [x02] [x0b] [3]].

Definition full_pmsgs : list ParticipantMsg.t :=
  [ParticipantMsg.mk [x01] [x0a] [1; 2]; ParticipantMsg.mk [x02] [x0b] [3; 4]].

(** The coordinator message of an honest run, and one in which the
  nonce of participant 0 has been replaced. *)
Definition tampered_cmsg : CoordinatorMsg.t :=
  CoordinatorMsg.mk
    [] [x02 :: Toy.key xff; x02 :: Toy.key x12; x02 :: Toy.key x13].

(** A session of the three participants, threshold 2. *)
Definition inputs : list Input.t :=
  [Input.mk (Toy.key x2a) (Toy.key x01) (Toy.key x63);
   Input.mk (Toy.key x2b) (Toy.key x02) (Toy.key x64);
   Input.mk (Toy.key x2c) (Toy.key x03) (Toy.key x65)].

Definition no_output : ParticipantState.t * ParticipantMsg.t :=
  (ParticipantState.mk 0 [] [] 0, ParticipantMsg.mk [] [] []).

Definition session_outputs
  : list (ParticipantState.t * ParticipantMsg.t) :=
  map (fun '(i, input) =>
         value_or no_output
           (participant_step1 (Input.seed input) (Input.deckey input)
                              enckeys 2 (Z.of_nat i) (Input.random input)))
      (enumerate inputs).

Definition session_shares : list (list Scalar) :=
  map (fun '(i, input) =>
         value_or [] (dealt_shares input enckeys 2 (Z.of_nat i)))
      (enumerate inputs).

Definition coordinator_output
  : CoordinatorMsg.t * DKGOutput * bytes * list Scalar :=
  value_or (CoordinatorMsg.mk [] [], 0, [], [])
           (coordinator_step (map snd session_outputs) 2 enckeys).

Definition session_cmsg : CoordinatorMsg.t :=
  fst (fst (fst coordinator_output)).

Definition session_dkg_output : DKGOutput :=
  snd (fst (fst coordinator_output)).

Definition session_eq_input : bytes := snd (fst coordinator_output).

Definition session_enc_secshares : list Scalar := snd coordinator_output.

Definition state1 : ParticipantState.t :=
  fst (nth 1 session_outputs no_output).

Definition pmsg1 : ParticipantMsg.t :=
  snd (nth 1 session_outputs no_output).

Definition step2_output : DKGOutput * bytes :=
  value_or (0, [])
           (participant_step2 state1 (Toy.key x02) session_cmsg
                              (nth 1 session_enc_secshares 0)).

(** The same three key pairs in the older variant. *)
Definition signers : list SignerInput.t :=
  [SignerInput.mk (Toy.key x2a) (Toy.key x01);
   SignerInput.mk (Toy.key x2b) (Toy.key x02);
   SignerInput.mk (Toy.key x2c) (Toy.key x03)].

Definition no_round1 : Reference.SignerState1.t * Reference.Unicast1.t :=
  (Reference.SignerState1.mk 0 [] [] 0 0 0, Reference.Unicast1.mk [] []).

Definition round1 : list (Reference.SignerState1.t * Reference.Unicast1.t) :=
  map (fun '(i, signer) =>
         value_or no_round1
           (Reference.signer_round1
              (SignerInput.seed signer) 2 3 (SignerInput.deckey signer)
              enckeys (Z.of_nat i)))
      (enumerate signers).

Definition round1_dealt : list (list Scalar) :=
  map (fun '(i, signer) =>
         value_or []
           (reference_dealt_shares (SignerInput.seed signer) enckeys 2
                                   (Z.of_nat i)))
      (enumerate signers).

Definition signer_state1 : Reference.SignerState1.t :=
  fst (nth 1 round1 no_round1).

Definition signer_uni1 : Reference.Unicast1.t :=
  snd (nth 1 round1 no_round1).

End ToyRun.

(** ** The error monad and the loops *)

Lemma bind_Ok {A B} (c : result A) (k : A -> result B) (b : B) :
  bind c k = Ok b <-> exists a, c = Ok a /\ k a = Ok b.
Proof.
  destruct c as [a|e]; simpl; split.
  - intros H. exists a. auto.
  - intros [a' [Ha Hk]]. inversion Ha. subst. exact Hk.
  - discriminate.
  - intros [a' [Ha _]]. discriminate.
Qed.

Lemma bind_Raise {A B} (c : result A) (k : A -> result B) (e : exn) :
  bind c k = Raise e <->
  c = Raise e \/ exists a, c = Ok a /\ k a = Raise e.
Proof.
  destruct c as [a|e']; simpl; split.
  - intros H. right. exists a. auto.
  - intros [H|[a' [Ha Hk]]]; [discriminate|]. inversion Ha. subst. exact Hk.
  - intros H. left. congruence.
  - intros [H|[a' [Ha _]]]; [congruence|discriminate].
Qed.

Lemma py_for_Raise {S A} (body : S -> A -> result S) (xs : list A) (s : S)
      (e : exn) :
  py_for body xs s = Raise e ->
  exists s' x, In x xs /\ body s' x = Raise e.
Proof.
  revert s. induction xs as [|x xs IH]; intros s H; simpl in H.
  - discriminate.
  - apply bind_Raise in H. destruct H as [H|[s1 [_ H]]].
    + exists s, x. split; [left; reflexivity|exact H].
    + destruct (IH _ H) as [s' [y [Hy Hb]]].
      exists s', y. split; [right; exact Hy|exact Hb].
Qed.

Lemma py_for_append {S A} (body : list S -> A -> result (list S))
      (f : A -> result S) (xs : list A) (acc : list S) :
  (forall acc x, body acc x = (y <- f x ;; Ok (acc ++ [y]))) ->
  py_for body xs acc = (ys <- py_listcomp f xs ;; Ok (acc ++ ys)).
Proof.
  intros Hbody. revert acc.
  induction xs as [|x xs IH]; intros acc; simpl.
  - rewrite app_nil_r. reflexivity.
  - rewrite Hbody. destruct (f x) as [y|e]; simpl; [|reflexivity].
    rewrite IH. destruct (py_listcomp f xs) as [ys|e]; simpl; [|reflexivity].
    rewrite <- app_assoc. reflexivity.
Qed.

Lemma py_listcomp_Ok {A B} (f : A -> result B) (xs : list A) (ys : list B) :
  py_listcomp f xs = Ok ys <-> Forall2 (fun x y => f x = Ok y) xs ys.
Proof.
  revert ys. induction xs as [|x xs IH]; intros ys; simpl.
  - split.
    + intros H. inversion H. constructor.
    + intros H. inversion H. reflexivity.
  - split.
    + intros H. apply bind_Ok in H. destruct H as [y [Hy H]].
      apply bind_Ok in H. destruct H as [ys' [Hys H]].
      inversion H. subst. constructor; [exact Hy|]. apply IH. exact Hys.
    + intros H. inversion H as [|x' y xs' ys' Hy Hys]. subst.
      rewrite Hy. simpl. apply IH in Hys. rewrite Hys. reflexivity.
Qed.

Lemma py_listcomp_total {A B} (f : A -> result B) (g : A -> B) (xs : list A) :
  (forall x, In x xs -> f x = Ok (g x)) ->
  py_listcomp f xs = Ok (map g xs).
Proof.
  induction xs as [|x xs IH]; intros H; simpl.
  - reflexivity.
  - rewrite (H x (or_introl eq_refl)). simpl.
    rewrite IH; [reflexivity|]. intros y Hy. apply H. right. exact Hy.
Qed.

Lemma Forall2_enumerate_from {A B} (R : nat * A -> B -> Prop) (k : nat)
      (xs : list A) (ys : list B) :
  Forall2 R (enumerate_from k xs) ys <->
  length ys = length xs /\
  forall i x y,
    nth_error xs i = Some x -> nth_error ys i = Some y ->
    R ((k + i)%nat, x) y.
Proof.
  revert k ys. induction xs as [|x xs IH]; intros k ys; simpl.
  - split.
    + intros H. inversion H. split; [reflexivity|].
      intros [|i] x y Hx; discriminate.
    + intros [Hlen _]. destruct ys; [constructor|discriminate].
  - split.
    + intros H. inversion H as [|p y l ys' Hy Hys]. subst.
      apply IH in Hys. destruct Hys as [Hlen Hnth].
      split; [simpl; congruence|].
      intros [|i] x' y' Hx Hy'; simpl in Hx, Hy'.
      * inversion Hx. inversion Hy'. subst.
        rewrite Nat.add_0_r. exact Hy.
      * rewrite Nat.add_succ_r. apply (Hnth i); assumption.
    + intros [Hlen Hnth]. destruct ys as [|y ys]; [discriminate|].
      constructor.
      * specialize (Hnth 0%nat x y eq_refl eq_refl).
        rewrite Nat.add_0_r in Hnth. exact Hnth.
      * apply IH. split; [simpl in Hlen; congruence|].
        intros i x' y' Hx Hy'.
        specialize (Hnth (S i) x' y' Hx Hy').
        rewrite Nat.add_succ_r in Hnth. exact Hnth.
Qed.

Lemma py_index_nat {A} (xs : list A) (i : nat) (x : A) :
  nth_error xs i = Some x -> py_index xs (Z.of_nat i) = Ok x.
Proof.
  intros H. unfold py_index.
  assert (Hlt : (i < length xs)%nat).
  { apply nth_error_Some. congruence. }
  destruct (Z.of_nat i <? 0) eqn:Hneg; [apply Z.ltb_lt in Hneg; lia|].
  replace (0 <=? Z.of_nat i) with true by (symmetry; apply Z.leb_le; lia).
  replace (Z.of_nat i <? Z.of_nat (length xs)) with true
    by (symmetry; apply Z.ltb_lt; lia).
  simpl. rewrite Nat2Z.id, H. reflexivity.
Qed.

(** ** Arithmetic of scalars *)

Lemma GROUP_ORDER_nonzero : GROUP_ORDER <> 0.
Proof. discriminate. Qed.

#[local] Opaque GROUP_ORDER.

Lemma mkScalar_add_l (a b : Z) : mkScalar (mkScalar a + b) = mkScalar (a + b).
Proof. unfold mkScalar. apply Z.add_mod_idemp_l, GROUP_ORDER_nonzero. Qed.

Lemma mkScalar_sub_r (a b : Z) : mkScalar (a - mkScalar b) = mkScalar (a - b).
Proof. unfold mkScalar. apply Zminus_mod_idemp_r. Qed.

Lemma Zsum_cons (x : Z) (xs : list Z) : Zsum (x :: xs) = x + Zsum xs.
Proof. reflexivity. Qed.

Lemma fold_scalar_add (xs : list Scalar) (a : Z) :
  fold_left scalar_add xs (mkScalar a) = mkScalar (a + Zsum xs).
Proof.
  revert a. induction xs as [|x xs IH]; intros a; cbn [fold_left].
  - cbn. rewrite Z.add_0_r. reflexivity.
  - change (scalar_add (mkScalar a) x) with (mkScalar (mkScalar a + x)).
    rewrite mkScalar_add_l, IH, Zsum_cons. f_equal. lia.
Qed.

Lemma Scalar_sum_Zsum (xs : list Scalar) : Scalar_sum xs = mkScalar (Zsum xs).
Proof. unfold Scalar_sum. rewrite fold_scalar_add. reflexivity. Qed.

Lemma mask_cancel (acc pad cs ms m c : Z) :
  c = scalar_add m pad ->
  mkScalar (scalar_sub acc pad - cs + ms) =
  mkScalar (acc - (c + cs) + (m + ms)).
Proof.
  intros ->. unfold scalar_sub, scalar_add.
  replace (mkScalar (acc - pad) - cs + ms)
    with (mkScalar (acc - pad) + (ms - cs)) by lia.
  replace (acc - (mkScalar (m + pad) + cs) + (m + ms))
    with (acc - cs + m + ms - mkScalar (m + pad)) by lia.
  rewrite mkScalar_add_l, mkScalar_sub_r. f_equal. lia.
Qed.

Lemma Zminus_mod_idemp_l_scalar (a b : Z) :
  mkScalar (mkScalar a - b) = mkScalar (a - b).
Proof. unfold mkScalar. apply Zminus_mod_idemp_l. Qed.

Lemma mkScalar_add_congr (a a' b b' : Z) :
  mkScalar a = mkScalar a' -> mkScalar b = mkScalar b' ->
  mkScalar (a + b) = mkScalar (a' + b').
Proof.
  unfold mkScalar. intros Ha Hb.
  rewrite (Z.add_mod a b), (Z.add_mod a' b') by apply GROUP_ORDER_nonzero.
  rewrite Ha, Hb. reflexivity.
Qed.

Lemma mkScalar_idem (a : Z) : mkScalar (mkScalar a) = mkScalar a.
Proof. unfold mkScalar. apply Z.mod_mod, GROUP_ORDER_nonzero. Qed.

Lemma sum_cancel (cs ms : Z) : mkScalar (mkScalar cs - cs + ms) = mkScalar ms.
Proof.
  replace (mkScalar cs - cs + ms) with (mkScalar cs + (ms - cs)) by lia.
  rewrite mkScalar_add_l. f_equal. lia.
Qed.

(** ** Pads *)

Section PadFacts.
Context {P : Primitives}.

Lemma ecdh_sending_receiving secretA pubA secretB pubB context :
    dh_commutes P ->
    pubkey_gen_plain secretA = Some pubA ->
    pubkey_gen_plain secretB = Some pubB ->
    ecdh secretA pubA pubB context true = ecdh secretB pubB pubA context false.
  Proof.
    intros Hdh HA HB. unfold ecdh.
    rewrite (Hdh secretA pubA secretB pubB HA HB). reflexivity.
  Qed.

Lemma ecdh_Raise seckey my_pubkey their_pubkey context sending e :
    ecdh seckey my_pubkey their_pubkey context sending = Raise e ->
    e = ValueError \/ e = AssertionError.
  Proof.
    unfold ecdh. intros H.
    destruct (ecdh_libsecp256k1 seckey their_pubkey) as [data|]; simpl in H.
    - right.
      match type of H with
      | bind (py_assert ?b) _ = _ => destruct b; simpl in H
      end; congruence.
    - left. congruence.
  Qed.

Lemma ecdh_undecodable seckey my_pubkey their_pubkey context sending :
    ecdh_libsecp256k1 seckey their_pubkey = None ->
    ecdh seckey my_pubkey their_pubkey context sending = Raise ValueError.
  Proof. intros H. unfold ecdh. rewrite H. reflexivity. Qed.
End PadFacts.

(** ** Pad symmetry *)

(** C2. For two generated key pairs and any context, the pad the sender
  derives with [sending = true] and the pad the receiver derives with
  [sending = false] are one and the same scalar: both sides hash the
  shared secret followed by the sender's key, the receiver's key and
  the context. *)
Theorem ecdh_pad_symmetry {P : Primitives} :
  forall secretA pubA secretB pubB ctx,
    curve_laws P ->
    pubkey_gen_plain secretA = Some pubA ->
    pubkey_gen_plain secretB = Some pubB ->
    exists (pad : Scalar) (secret : bytes),
      ecdh secretA pubA pubB ctx true = Ok pad /\
      ecdh secretB pubB pubA ctx false = Ok pad /\
      ecdh_libsecp256k1 secretA pubB = Some secret /\
      pad = mkScalar
              (int_from_bytes
                 (tagged_hash_bip_dkg
                    "encpedpop ecdh" ((secret ++ (pubA ++ pubB)) ++ ctx))).
Proof.
  intros secretA pubA secretB pubB ctx L HA HB.
  pose proof (ecdh_sending_receiving secretA pubA secretB pubB ctx
                (laws_commute P L) HA HB) as Hsym.
  rewrite <- Hsym. clear Hsym. unfold ecdh.
  destruct (ecdh_libsecp256k1 secretA pubB) as [secret|] eqn:Hdh.
  - simpl.
    assert (Hlen : length (secret ++ pubA ++ pubB) = (2 * 33 + 32)%nat).
    { rewrite !length_app.
      rewrite (laws_secret_size P L _ _ _ Hdh).
      rewrite (laws_pubkey_size P L _ _ HA).
      rewrite (laws_pubkey_size P L _ _ HB). reflexivity. }
    rewrite Hlen. simpl.
    eexists. exists secret. repeat split; reflexivity.
  - exfalso. exact (laws_defined P L _ _ _ _ HA HB Hdh).
Qed.

(** The small instance satisfies the laws assumed of the curve library. *)

Lemma toy_xor_bytes_comm (a b : bytes) : Toy.xor_bytes a b = Toy.xor_bytes b a.
Proof.
  revert b. induction a as [|x a IH]; intros [|y b]; simpl; try reflexivity.
  unfold Toy.xor_byte. rewrite Z.lxor_comm, IH. reflexivity.
Qed.

Lemma toy_xor_bytes_length (a b : bytes) :
  length a = length b -> length (Toy.xor_bytes a b) = length a.
Proof.
  revert b. induction a as [|x a IH]; intros [|y b] H; simpl in *;
    try reflexivity; try discriminate.
  f_equal. apply IH. congruence.
Qed.

Lemma toy_pubkey_Some (seckey pubkey : bytes) :
  Toy.pubkey seckey = Some pubkey ->
  length seckey = 32%nat /\ pubkey = x02 :: seckey.
Proof.
  unfold Toy.pubkey. destruct (Nat.eqb (length seckey) 32) eqn:Hlen.
  - intros H. inversion H. apply Nat.eqb_eq in Hlen. auto.
  - discriminate.
Qed.

Lemma toy_shared_generated (secretA secretB : bytes) :
  length secretA = 32%nat -> length secretB = 32%nat ->
  Toy.shared secretA (x02 :: secretB) = Some (Toy.xor_bytes secretA secretB).
Proof.
  intros HA HB. unfold Toy.shared. rewrite HA, HB. reflexivity.
Qed.

Lemma toy_curve_laws : curve_laws Toy.primitives.
Proof.
  constructor.
  - intros secretA pubA secretB pubB HA HB. simpl in *.
    apply toy_pubkey_Some in HA, HB.
    destruct HA as [HlenA ->]. destruct HB as [HlenB ->].
    rewrite !toy_shared_generated by assumption.
    rewrite toy_xor_bytes_comm. reflexivity.
  - intros seckey pubkey H. simpl in H.
    apply toy_pubkey_Some in H. destruct H as [Hlen ->].
    simpl. rewrite Hlen. reflexivity.
  - intros seckey pubkey secret. simpl. unfold Toy.shared.
    destruct pubkey as [|b body]; [discriminate|].
    destruct b; try discriminate.
    destruct (Nat.eqb (length seckey) 32) eqn:H1; [|discriminate].
    destruct (Nat.eqb (length body) 32) eqn:H2; [|discriminate].
    simpl. intros H. inversion H.
    apply Nat.eqb_eq in H1, H2.
    rewrite toy_xor_bytes_length; congruence.
  - intros secretA pubA secretB pubB HA HB. simpl in *.
    apply toy_pubkey_Some in HA, HB.
    destruct HA as [HlenA ->]. destruct HB as [HlenB ->].
    rewrite toy_shared_generated by assumption. discriminate.
Qed.

(** ** Structural errors of the coordinator *)

(** C7. When the number of participant messages differs from the number
  of encryption keys, [coordinator_step] raises [ValueError], an
  exception that carries no participant index; the comparison is the
  first thing the function does, so neither the secret-sharing core
  nor the aggregation runs. *)
Theorem coordinator_step_count_mismatch {C : SimplPedPop} :
  forall (pmsgs : list ParticipantMsg.t) (t : Z) (enckeys : list bytes),
    length pmsgs <> length enckeys ->
    coordinator_step pmsgs t enckeys = Raise ValueError.
Proof.
  intros pmsgs t enckeys Hlen. unfold coordinator_step.
  destruct (Nat.eqb (length enckeys) (length pmsgs)) eqn:Heq.
  - apply Nat.eqb_eq in Heq. congruence.
  - reflexivity.
Qed.

(** ** The index check of decryption *)

Section DecryptFacts.
Context {P : Primitives}.

Lemma decaps_pad_Raise deckey enckey context_ idx i pubnonce e :
  decaps_pad deckey enckey context_ idx i pubnonce = Raise e ->
  e = ValueError \/ e = AssertionError.
Proof.
  unfold decaps_pad. destruct (Z.of_nat i =? idx).
  - discriminate.
  - apply ecdh_Raise.
Qed.

Lemma decrypt_sum_in_range deckey enckey pubnonces sum_ciphertexts context idx :
  idx < Z.of_nat (length pubnonces) ->
  decrypt_sum deckey enckey pubnonces sum_ciphertexts context idx =
  (index_bytes <- to_bytes4 idx ;;
   py_for
     (fun sum_plaintexts '(i, pubnonce) =>
        pad <- decaps_pad deckey enckey (index_bytes ++ context) idx
                          i pubnonce ;;
        Ok (scalar_sub sum_plaintexts pad))
     (enumerate pubnonces) sum_ciphertexts).
Proof.
  intros Hlt. unfold decrypt_sum.
  destruct (idx >=? Z.of_nat (length pubnonces)) eqn:Hge.
  - apply Z.geb_le in Hge. lia.
  - reflexivity.
Qed.
End DecryptFacts.

(** C9. [decrypt_sum] raises [IndexError] exactly when
  [idx >= len(pubnonces)].  [IndexError] is not an
  [InvalidContributionError].  When [idx < len(pubnonces)] the check
  is passed and the function goes on to build the recipient context
  and to run the loop that removes one pad per sender. *)
Theorem decrypt_sum_index_check {P : Primitives} :
  forall (deckey enckey : bytes) (pubnonces : list bytes)
         (sum_ciphertexts : Scalar) (context : bytes) (idx : Z),
    (Z.of_nat (length pubnonces) <= idx ->
     decrypt_sum deckey enckey pubnonces sum_ciphertexts context idx
     = Raise IndexError) /\
    is_invalid_contribution IndexError = false /\
    (idx < Z.of_nat (length pubnonces) ->
     decrypt_sum deckey enckey pubnonces sum_ciphertexts context idx
     <> Raise IndexError /\
     decrypt_sum deckey enckey pubnonces sum_ciphertexts context idx =
     (index_bytes <- to_bytes4 idx ;;
      py_for
        (fun sum_plaintexts '(i, pubnonce) =>
           pad <- decaps_pad deckey enckey (index_bytes ++ context) idx
                             i pubnonce ;;
           Ok (scalar_sub sum_plaintexts pad))
        (enumerate pubnonces) sum_ciphertexts)).
Proof.
  intros deckey enckey pubnonces sum_ciphertexts context idx.
  split; [|split; [reflexivity|]].
  - intros Hge. unfold decrypt_sum.
    destruct (idx >=? Z.of_nat (length pubnonces)) eqn:H.
    + reflexivity.
    + rewrite Z.geb_leb in H. apply Z.leb_gt in H. lia.
  - intros Hlt. split; [|apply decrypt_sum_in_range; exact Hlt].
    rewrite decrypt_sum_in_range by exact Hlt. intros H.
    apply bind_Raise in H. destruct H as [H|[index_bytes [_ H]]].
    + unfold to_bytes4 in H.
      destruct ((0 <=? idx) && (idx <? 2 ^ 32)); discriminate.
    + apply py_for_Raise in H. destruct H as [s [[i pubnonce] [_ H]]].
      apply bind_Raise in H. destruct H as [H|[pad [_ H]]].
      * apply decaps_pad_Raise in H. destruct H; discriminate.
      * discriminate.
Qed.

(** ** Tamper detection in step 2 *)

(** C4. Whatever the participant state, when the public nonce that the
  coordinator message lists at the participant's own index differs
  from the one stored in the state, [participant_step2] raises
  [InvalidContributionError] with no participant index.  The result
  does not depend on the decryption key, on the encrypted share or on
  the secret-sharing core: nothing is decrypted or finalised. *)
Theorem participant_step2_wrong_pubnonce {P : Primitives} {C : SimplPedPop} :
  forall (state : ParticipantState.t) (deckey : bytes)
         (cmsg : CoordinatorMsg.t) (enc_secshare : Scalar)
         (reported : bytes),
    py_index (CoordinatorMsg.pubnonces cmsg) (ParticipantState.idx state)
    = Ok reported ->
    reported <> ParticipantState.pubnonce state ->
    participant_step2 state deckey cmsg enc_secshare
    = Raise (InvalidContributionError
               None "Coordinator replied with wrong pubnonce").
Proof.
  intros [simpl_state pubnonce enckeys idx] deckey [simpl_cmsg pubnonces]
         enc_secshare reported Hindex Hdiff.
  simpl in Hindex, Hdiff. unfold participant_step2.
  rewrite Hindex. simpl.
  destruct (bytes_eq_dec reported pubnonce) as [Heq|_].
  - contradiction.
  - reflexivity.
Qed.

(** ** Aggregation by the coordinator *)

Section CoordinatorFacts.
Context {C : SimplPedPop}.

Lemma check_enc_shares_from_Ok (pmsgs : list ParticipantMsg.t) (n m k : nat) :
  (forall i, (k <= i < k + m)%nat ->
             exists pmsg, nth_error pmsgs i = Some pmsg /\
                          length (ParticipantMsg.enc_shares pmsg) = n) ->
  py_for
    (fun (_ : unit) i =>
       pmsg <- py_index pmsgs (Z.of_nat i) ;;
       if negb (Nat.eqb (length (ParticipantMsg.enc_shares pmsg)) n) then
         Raise (InvalidContributionError
                  (Some i) "Participant sent enc_shares with invalid length")
       else Ok tt)
    (seq k m) tt = Ok tt.
Proof.
  revert k. induction m as [|m IH]; intros k H; simpl.
  - reflexivity.
  - destruct (H k) as [pmsg [Hnth Hlen]]; [lia|].
    rewrite (py_index_nat _ _ _ Hnth). simpl.
    rewrite Hlen, Nat.eqb_refl. simpl.
    apply IH. intros i Hi. apply H. lia.
Qed.

Lemma check_enc_shares_from_Raise (pmsgs : list ParticipantMsg.t)
      (n m k : nat) :
  (forall i, (k <= i < k + m)%nat -> nth_error pmsgs i <> None) ->
  (exists i pmsg, (k <= i < k + m)%nat /\ nth_error pmsgs i = Some pmsg /\
                  length (ParticipantMsg.enc_shares pmsg) <> n) ->
  exists i pmsg,
    (k <= i < k + m)%nat /\
    nth_error pmsgs i = Some pmsg /\
    length (ParticipantMsg.enc_shares pmsg) <> n /\
    (forall j other, (k <= j < i)%nat -> nth_error pmsgs j = Some other ->
                     length (ParticipantMsg.enc_shares other) = n) /\
    py_for
      (fun (_ : unit) i =>
         pmsg <- py_index pmsgs (Z.of_nat i) ;;
         if negb (Nat.eqb (length (ParticipantMsg.enc_shares pmsg)) n) then
           Raise (InvalidContributionError
                    (Some i) "Participant sent enc_shares with invalid length")
         else Ok tt)
      (seq k m) tt
    = Raise (InvalidContributionError
               (Some i) "Participant sent enc_shares with invalid length").
Proof.
  revert k. induction m as [|m IH]; intros k Hdef [i [pmsg [Hi [Hnth Hbad]]]].
  - lia.
  - destruct (nth_error pmsgs k) as [first|] eqn:Hfirst;
      [|exfalso; apply (Hdef k); [lia|exact Hfirst]].
    destruct (Nat.eqb (length (ParticipantMsg.enc_shares first)) n) eqn:Hlen.
    + apply Nat.eqb_eq in Hlen.
      assert (Hne : i <> k).
      { intros ->. rewrite Hfirst in Hnth. injection Hnth as E.
        rewrite E in Hlen. contradiction. }
      destruct (IH (S k)) as [i' [pmsg' [Hi' [Hnth' [Hbad' [Hmin Hrun]]]]]].
      * intros j Hj. apply Hdef. lia.
      * exists i, pmsg. repeat split; try assumption; lia.
      * exists i', pmsg'. repeat split; try assumption; try lia.
        -- intros j other Hj Hother.
           destruct (Nat.eq_dec j k) as [->|Hjk].
           ++ rewrite Hfirst in Hother. injection Hother as E.
              rewrite <- E. exact Hlen.
           ++ apply (Hmin j); [lia|exact Hother].
        -- simpl. rewrite (py_index_nat _ _ _ Hfirst). simpl.
           rewrite Hlen, Nat.eqb_refl. simpl. exact Hrun.
    + exists k, first.
      pose proof (proj1 (Nat.eqb_neq _ _) Hlen) as Hlen'.
      repeat split; try assumption; try lia.
      simpl. rewrite (py_index_nat _ _ _ Hfirst). simpl.
      rewrite Hlen. reflexivity.
Qed.

Lemma aggregate_Ok (pmsgs : list ParticipantMsg.t) (n : nat) :
  Forall (fun pmsg => length (ParticipantMsg.enc_shares pmsg) = n) pmsgs ->
  py_listcomp
    (fun i =>
       column <-
         py_listcomp
           (fun pmsg => py_index (ParticipantMsg.enc_shares pmsg) (Z.of_nat i))
           pmsgs ;;
       Ok (Scalar_sum column))
    (range n)
  = Ok (map (fun i => Scalar_sum (column i (map ParticipantMsg.enc_shares pmsgs)))
            (range n)).
Proof.
  intros Hall. apply py_listcomp_total. intros i Hi.
  apply in_seq in Hi.
  rewrite (py_listcomp_total _ (fun pmsg => nth i (ParticipantMsg.enc_shares pmsg) 0)).
  - simpl. unfold column. rewrite map_map. reflexivity.
  - intros pmsg Hin. rewrite Forall_forall in Hall.
    apply py_index_nat, nth_error_nth'. rewrite (Hall pmsg Hin). lia.
Qed.
End CoordinatorFacts.

(** C6. In a call with as many messages as encryption keys, [n] of
  each, in which the secret-sharing core has combined the embedded
  messages, if some message carries a vector of encrypted shares whose
  length is not [n], then [coordinator_step] raises
  [InvalidContributionError] with the index of such a participant
  (the lowest one), and so returns no aggregated ciphertexts. *)
Theorem coordinator_step_invalid_length {C : SimplPedPop} :
  forall (pmsgs : list ParticipantMsg.t) (t : Z) (enckeys : list bytes)
         (n : nat) core_output,
    length enckeys = n ->
    length pmsgs = n ->
    simpl_coordinator_step (map ParticipantMsg.simpl_pmsg pmsgs) t n
    = Ok core_output ->
    (exists i pmsg, nth_error pmsgs i = Some pmsg /\
                    length (ParticipantMsg.enc_shares pmsg) <> n) ->
    exists i pmsg,
      nth_error pmsgs i = Some pmsg /\
      length (ParticipantMsg.enc_shares pmsg) <> n /\
      (forall j other, (j < i)%nat -> nth_error pmsgs j = Some other ->
                       length (ParticipantMsg.enc_shares other) = n) /\
      coordinator_step pmsgs t enckeys
      = Raise (InvalidContributionError
                 (Some i) "Participant sent enc_shares with invalid length").
Proof.
  intros pmsgs t enckeys n [[simpl_cmsg dkg_output] eq_input]
         Hkeys Hmsgs Hcore [i [pmsg [Hnth Hbad]]].
  destruct (check_enc_shares_from_Raise pmsgs n n 0)
    as [i' [pmsg' [Hi' [Hnth' [Hbad' [Hmin Hrun]]]]]].
  - intros j Hj. apply nth_error_Some. lia.
  - assert (Hi : (i < n)%nat).
    { rewrite <- Hmsgs. apply nth_error_Some. congruence. }
    exists i, pmsg. repeat split; try assumption; lia.
  - exists i', pmsg'. repeat split; try assumption.
    + intros j other Hj. apply Hmin. lia.
    + unfold coordinator_step. rewrite Hkeys, Hmsgs, Nat.eqb_refl. simpl.
      rewrite Hcore. simpl. unfold check_enc_shares_length, range.
      rewrite Hrun. reflexivity.
Qed.

(** C3. For [n] participant messages, each with [n] encrypted shares,
  once the secret-sharing core has combined the embedded messages,
  [coordinator_step] returns, and entry [i] of the aggregated
  ciphertexts is the sum over all senders of the share that the
  sender encrypted for recipient [i]. *)
Theorem coordinator_step_aggregates {C : SimplPedPop} :
  forall (pmsgs : list ParticipantMsg.t) (t : Z) (enckeys : list bytes)
         (n : nat) core_output,
    length enckeys = n ->
    length pmsgs = n ->
    Forall (fun pmsg => length (ParticipantMsg.enc_shares pmsg) = n) pmsgs ->
    simpl_coordinator_step (map ParticipantMsg.simpl_pmsg pmsgs) t n
    = Ok core_output ->
    exists cmsg dkg_output eq_input enc_secshares,
      coordinator_step pmsgs t enckeys
      = Ok (cmsg, dkg_output, eq_input, enc_secshares) /\
      length enc_secshares = n /\
      forall i, (i < n)%nat ->
        nth_error enc_secshares i
        = Some (Scalar_sum
                  (map (fun pmsg => nth i (ParticipantMsg.enc_shares pmsg) 0)
                       pmsgs)).
Proof.
  intros pmsgs t enckeys n [[simpl_cmsg dkg_output] eq_input]
         Hkeys Hmsgs Hall Hcore.
  unfold coordinator_step. rewrite Hkeys, Hmsgs, Nat.eqb_refl. simpl.
  rewrite Hcore. simpl. unfold check_enc_shares_length, range.
  rewrite check_enc_shares_from_Ok.
  - simpl. fold (range n). rewrite (aggregate_Ok pmsgs n Hall). simpl.
    do 4 eexists. split; [reflexivity|]. split.
    + rewrite length_map. apply length_seq.
    + intros i Hi. unfold range.
      rewrite nth_error_map, nth_error_seq.
      destruct (Nat.ltb_spec i n) as [_|Hge]; [|lia]. simpl.
      unfold column. rewrite map_map. reflexivity.
  - intros i Hi. destruct (nth_error pmsgs i) as [pmsg|] eqn:Hnth.
    + exists pmsg. split; [reflexivity|].
      rewrite Forall_forall in Hall. apply Hall.
      apply nth_error_In in Hnth. exact Hnth.
    + apply nth_error_None in Hnth. lia.
Qed.

(** ** Encapsulation and encryption, entry by entry *)

Section EncryptFacts.
Context {P : Primitives}.

Lemma encaps_multi_listcomp secnonce pubnonce deckey enckeys context idx :
  encaps_multi secnonce pubnonce deckey enckeys context idx =
  py_listcomp
    (fun '(i, enckey) =>
       encaps_pad secnonce pubnonce deckey context idx i enckey)
    (enumerate enckeys).
Proof.
  unfold encaps_multi.
  rewrite (py_for_append _
             (fun '(i, enckey) =>
                encaps_pad secnonce pubnonce deckey context idx i enckey)).
  - destruct (py_listcomp _ _); reflexivity.
  - intros acc [i enckey]. reflexivity.
Qed.

Lemma encaps_multi_Ok secnonce pubnonce deckey enckeys context idx pads :
  encaps_multi secnonce pubnonce deckey enckeys context idx = Ok pads <->
  length pads = length enckeys /\
  forall i enckey pad,
    nth_error enckeys i = Some enckey -> nth_error pads i = Some pad ->
    encaps_pad secnonce pubnonce deckey context idx i enckey = Ok pad.
Proof.
  rewrite encaps_multi_listcomp, py_listcomp_Ok. unfold enumerate.
  rewrite Forall2_enumerate_from. reflexivity.
Qed.

Lemma encrypt_multi_Ok secnonce pubnonce deckey enckeys messages context idx
      ciphertexts :
  encrypt_multi secnonce pubnonce deckey enckeys messages context idx
  = Ok ciphertexts ->
  exists pads,
    encaps_multi secnonce pubnonce deckey enckeys context idx = Ok pads /\
    length messages = length pads /\
    ciphertexts =
    map (fun '(message, pad) => scalar_add message pad) (combine messages pads).
Proof.
  unfold encrypt_multi. intros H.
  apply bind_Ok in H. destruct H as [pads [Hpads H]].
  apply bind_Ok in H. destruct H as [pairs [Hzip H]].
  unfold py_zip_strict in Hzip.
  destruct (Nat.eqb (length messages) (length pads)) eqn:Hlen; [|discriminate].
  apply Nat.eqb_eq in Hlen. exists pads.
  inversion Hzip. inversion H. subst. auto.
Qed.

Lemma nth_masked (messages pads : list Scalar) (i : nat) :
  length messages = length pads -> (i < length pads)%nat ->
  nth i (map (fun '(message, pad) => scalar_add message pad)
             (combine messages pads)) 0
  = scalar_add (nth i messages 0) (nth i pads 0).
Proof.
  intros Hlen Hi.
  set (mask := fun '(message, pad) => scalar_add message pad).
  rewrite (nth_indep _ 0 (mask (0, 0))).
  - rewrite (map_nth mask), combine_nth by exact Hlen. reflexivity.
  - rewrite length_map, length_combine. lia.
Qed.

Lemma encrypt_multi_nth secnonce pubnonce deckey enckeys messages context idx
      ciphertexts i enckey :
  encrypt_multi secnonce pubnonce deckey enckeys messages context idx
  = Ok ciphertexts ->
  nth_error enckeys i = Some enckey ->
  exists pad,
    encaps_pad secnonce pubnonce deckey context idx i enckey = Ok pad /\
    nth i ciphertexts 0 = scalar_add (nth i messages 0) pad.
Proof.
  intros H Hkey. apply encrypt_multi_Ok in H.
  destruct H as [pads [Hpads [Hlen ->]]].
  apply encaps_multi_Ok in Hpads. destruct Hpads as [Hn Hpad].
  assert (Hi : (i < length pads)%nat).
  { rewrite Hn. apply nth_error_Some. congruence. }
  exists (nth i pads 0). split.
  - apply (Hpad i); [exact Hkey|]. apply nth_error_nth'. exact Hi.
  - apply nth_masked; assumption.
Qed.

Lemma encaps_pad_self secnonce pubnonce deckey context i enckey pad :
  encaps_pad secnonce pubnonce deckey context (Z.of_nat i) i enckey = Ok pad ->
  exists index_bytes,
    to_bytes4 (Z.of_nat i) = Ok index_bytes /\
    pad = self_pad deckey (index_bytes ++ context).
Proof.
  unfold encaps_pad. intros H.
  apply bind_Ok in H. destruct H as [index_bytes [Hbytes H]].
  rewrite Z.eqb_refl in H. inversion H. exists index_bytes. auto.
Qed.
End EncryptFacts.

(** ** The pad a sender keeps for itself *)

(** C10. At the sender's own position [idx < len(enckeys)], the pad
  of [encaps_multi] is [self_pad deckey (idx as 4 bytes ++ context)]
  and the ciphertext of [encrypt_multi] is the message plus that pad:
  two runs that differ only in the nonce pair agree there. *)
Theorem own_pad_ignores_nonce {P : Primitives} :
  forall (secnonce pubnonce secnonce' pubnonce' deckey : bytes)
         (enckeys : list bytes) (messages : list Scalar)
         (context : bytes) (idx : nat),
    (idx < length enckeys)%nat ->
    (forall pads pads',
        encaps_multi secnonce pubnonce deckey enckeys context (Z.of_nat idx)
        = Ok pads ->
        encaps_multi secnonce' pubnonce' deckey enckeys context (Z.of_nat idx)
        = Ok pads' ->
        exists index_bytes,
          to_bytes4 (Z.of_nat idx) = Ok index_bytes /\
          nth idx pads 0 = self_pad deckey (index_bytes ++ context) /\
          nth idx pads' 0 = self_pad deckey (index_bytes ++ context)) /\
    (forall ciphertexts ciphertexts',
        encrypt_multi secnonce pubnonce deckey enckeys messages context
                      (Z.of_nat idx) = Ok ciphertexts ->
        encrypt_multi secnonce' pubnonce' deckey enckeys messages context
                      (Z.of_nat idx) = Ok ciphertexts' ->
        exists index_bytes,
          to_bytes4 (Z.of_nat idx) = Ok index_bytes /\
          nth idx ciphertexts 0
          = scalar_add (nth idx messages 0)
                       (self_pad deckey (index_bytes ++ context)) /\
          nth idx ciphertexts' 0
          = scalar_add (nth idx messages 0)
                       (self_pad deckey (index_bytes ++ context))).
Proof.
  intros secnonce pubnonce secnonce' pubnonce' deckey enckeys messages
         context idx Hidx.
  destruct (nth_error enckeys idx) as [enckey|] eqn:Hkey;
    [|apply nth_error_None in Hkey; lia].
  split.
  - intros pads pads' H H'.
    apply encaps_multi_Ok in H, H'.
    destruct H as [Hn Hpad]. destruct H' as [Hn' Hpad'].
    assert (Hnth : nth_error pads idx = Some (nth idx pads 0))
      by (apply nth_error_nth'; lia).
    assert (Hnth' : nth_error pads' idx = Some (nth idx pads' 0))
      by (apply nth_error_nth'; lia).
    specialize (Hpad idx enckey _ Hkey Hnth).
    specialize (Hpad' idx enckey _ Hkey Hnth').
    apply encaps_pad_self in Hpad, Hpad'.
    destruct Hpad as [index_bytes [Hbytes Hpad]].
    destruct Hpad' as [index_bytes' [Hbytes' Hpad']].
    exists index_bytes. rewrite Hbytes in Hbytes'. inversion Hbytes'. subst.
    auto.
  - intros ciphertexts ciphertexts' H H'.
    destruct (encrypt_multi_nth _ _ _ _ _ _ _ _ _ _ H Hkey)
      as [pad [Hpad Hct]].
    destruct (encrypt_multi_nth _ _ _ _ _ _ _ _ _ _ H' Hkey)
      as [pad' [Hpad' Hct']].
    apply encaps_pad_self in Hpad, Hpad'.
    destruct Hpad as [index_bytes [Hbytes ->]].
    destruct Hpad' as [index_bytes' [Hbytes' ->]].
    exists index_bytes. rewrite Hbytes in Hbytes'. inversion Hbytes'. subst.
    auto.
Qed.

(** ** Aggregation followed by decryption *)

Section RoundTripFacts.
Context {P : Primitives}.

(** The loop of [decrypt_sum] over the senders [parties], started at
  sender number [k] with accumulator [acc], when every sender's
  ciphertext for the recipient is its message plus the pad that the
  recipient derives for that sender. *)
Lemma decrypt_loop_sum (deckey enckey context_ : bytes) (idx : nat)
      (parties : list Party.t) (ciphertexts : list (list Scalar))
      (k : nat) (acc : Scalar) :
  length ciphertexts = length parties ->
  (forall j p c,
      nth_error parties j = Some p -> nth_error ciphertexts j = Some c ->
      exists pad,
        nth idx c 0 = scalar_add (nth idx (Party.messages p) 0) pad /\
        decaps_pad deckey enckey context_ (Z.of_nat idx) (k + j)
                   (Party.pubnonce p) = Ok pad) ->
  exists r,
    py_for
      (fun sum_plaintexts '(i, pubnonce) =>
         pad <- decaps_pad deckey enckey context_ (Z.of_nat idx) i pubnonce ;;
         Ok (scalar_sub sum_plaintexts pad))
      (enumerate_from k (map Party.pubnonce parties)) acc = Ok r /\
    mkScalar r =
    mkScalar (acc - Zsum (column idx ciphertexts)
              + Zsum (column idx (map Party.messages parties))) /\
    (mkScalar acc = acc -> mkScalar r = r).
Proof.
  revert ciphertexts k acc.
  induction parties as [|p parties IH]; intros ciphertexts k acc Hlen Hpads.
  - destruct ciphertexts; [|discriminate]. exists acc. simpl.
    repeat split; [f_equal; lia|auto].
  - destruct ciphertexts as [|c ciphertexts]; [discriminate|].
    destruct (Hpads 0%nat p c eq_refl eq_refl) as [pad [Hc Hpad]].
    rewrite Nat.add_0_r in Hpad.
    destruct (IH ciphertexts (S k) (scalar_sub acc pad))
      as [r [Hrun [Hsum Hnorm]]].
    + simpl in Hlen. congruence.
    + intros j p' c' Hp' Hc'.
      destruct (Hpads (S j) p' c' Hp' Hc') as [pad' [Hc'' Hpad']].
      exists pad'. rewrite Nat.add_succ_r in Hpad'. auto.
    + exists r. cbn [map enumerate_from py_for]. rewrite Hpad.
      cbn [bind]. repeat split.
      * exact Hrun.
      * rewrite Hsum. unfold column. cbn [map].
        rewrite !Zsum_cons. apply mask_cancel, Hc.
      * intros _. apply Hnorm. unfold scalar_sub, mkScalar.
        apply Z.mod_mod, GROUP_ORDER_nonzero.
Qed.

(** The pad sender [j] derives for recipient [idx] is the pad the
  recipient derives for sender [j]. *)
Lemma encaps_decaps_pad (sender recipient : Party.t) (context : bytes)
      (j idx : nat) (pad : Scalar) (index_bytes : bytes) :
  dh_commutes P ->
  valid_keys sender -> valid_keys recipient ->
  (j = idx -> sender = recipient) ->
  to_bytes4 (Z.of_nat idx) = Ok index_bytes ->
  encaps_pad (Party.secnonce sender) (Party.pubnonce sender)
             (Party.deckey sender) context (Z.of_nat j) idx
             (Party.enckey recipient) = Ok pad ->
  decaps_pad (Party.deckey recipient) (Party.enckey recipient)
             (index_bytes ++ context) (Z.of_nat idx) j
             (Party.pubnonce sender) = Ok pad.
Proof.
  intros Hdh [_ Hnonce] [Hkey _] Hsame Hbytes H.
  unfold encaps_pad in H. rewrite Hbytes in H. cbn [bind] in H.
  unfold decaps_pad. rewrite Z.eqb_sym.
  destruct (Z.of_nat idx =? Z.of_nat j) eqn:Heq.
  - apply Z.eqb_eq, Nat2Z.inj in Heq.
    rewrite <- (Hsame (eq_sym Heq)). exact H.
  - rewrite <- H. symmetry.
    apply ecdh_sending_receiving; assumption.
Qed.
End RoundTripFacts.

(** C1. In a run with [n >= 1] participants holding generated key and
  nonce pairs, where every sender [s] has obtained its ciphertext
  vector from [encrypt_multi] with the shared list of encryption keys
  and its own index, every recipient [idx] who decrypts the sum of the
  ciphertexts addressed to it obtains the sum of the plaintexts
  addressed to it. *)
Theorem decrypt_sum_of_encrypt_multi {P : Primitives} :
  forall (parties : list Party.t) (context : bytes)
         (ciphertexts : list (list Scalar)) (idx : nat) (me : Party.t),
    dh_commutes P ->
    Forall valid_keys parties ->
    encrypted_by parties context ciphertexts ->
    nth_error parties idx = Some me ->
    decrypt_sum (Party.deckey me) (Party.enckey me)
                (map Party.pubnonce parties)
                (Scalar_sum (column idx ciphertexts))
                context (Z.of_nat idx)
    = Ok (Scalar_sum (column idx (map Party.messages parties))).
Proof.
  intros parties context ciphertexts idx me Hdh Hvalid [Hlen Henc] Hme.
  assert (Hidx : (idx < length parties)%nat)
    by (apply nth_error_Some; congruence).
  assert (Hmykey : nth_error (map Party.enckey parties) idx
                   = Some (Party.enckey me))
    by (rewrite nth_error_map, Hme; reflexivity).
  rewrite Forall_forall in Hvalid.
  assert (Hvme : valid_keys me) by (apply Hvalid, (nth_error_In _ _ Hme)).
  (* the recipient's own run fixes the encoding of its index *)
  destruct (nth_error ciphertexts idx) as [mine|] eqn:Hmine;
    [|apply nth_error_None in Hmine; lia].
  destruct (encrypt_multi_nth _ _ _ _ _ _ _ _ _ _ (Henc _ _ _ Hme Hmine) Hmykey)
    as [own [Hown _]].
  apply encaps_pad_self in Hown. destruct Hown as [index_bytes [Hbytes _]].
  rewrite decrypt_sum_in_range by (rewrite length_map; lia).
  rewrite Hbytes. cbn [bind]. unfold enumerate.
  destruct (decrypt_loop_sum (Party.deckey me) (Party.enckey me)
              (index_bytes ++ context) idx parties ciphertexts 0
              (Scalar_sum (column idx ciphertexts)) Hlen)
    as [r [Hrun [Hsum Hnorm]]].
  - intros j p c Hp Hc.
    destruct (encrypt_multi_nth _ _ _ _ _ _ _ _ _ _ (Henc _ _ _ Hp Hc) Hmykey)
      as [pad [Hpad Hct]].
    exists pad. split; [exact Hct|].
    apply encaps_decaps_pad; try assumption.
    + apply Hvalid, (nth_error_In _ _ Hp).
    + simpl. intros E. rewrite E in Hp. congruence.
  - rewrite Hrun. f_equal. rewrite <- Hnorm.
    + rewrite Hsum, !Scalar_sum_Zsum. apply sum_cancel.
    + rewrite Scalar_sum_Zsum. unfold mkScalar.
      apply Z.mod_mod, GROUP_ORDER_nonzero.
Qed.

(** ** Encryption keys that do not decode *)

Section UndecodableKeys.
Context {P : Primitives} {C : SimplPedPop}.

Lemma py_listcomp_Raise {A B} (f : A -> result B) (xs : list A) (e : exn) :
  py_listcomp f xs = Raise e -> exists x, In x xs /\ f x = Raise e.
Proof.
  induction xs as [|x xs IH]; simpl; intros H.
  - discriminate.
  - apply bind_Raise in H. destruct H as [H|[y [_ H]]].
    + exists x. auto.
    + apply bind_Raise in H. destruct H as [H|[ys [_ H]]]; [|discriminate].
      destruct (IH H) as [x' [Hin Hx']]. exists x'. auto.
Qed.

Lemma encaps_pad_Raise secnonce pubnonce deckey context idx i enckey e :
  encaps_pad secnonce pubnonce deckey context idx i enckey = Raise e ->
  e = ValueError \/ e = AssertionError \/ e = OverflowError.
Proof.
  unfold encaps_pad, to_bytes4. intros H.
  destruct ((0 <=? Z.of_nat i) && (Z.of_nat i <? 2 ^ 32)); simpl in H.
  - destruct (Z.of_nat i =? idx); [discriminate|].
    apply ecdh_Raise in H. tauto.
  - inversion H. auto.
Qed.

Lemma encaps_pad_undecodable secnonce pubnonce deckey context idx i enckey :
  Z.of_nat i <> idx ->
  ecdh_libsecp256k1 secnonce enckey = None ->
  exists e, encaps_pad secnonce pubnonce deckey context idx i enckey = Raise e.
Proof.
  intros Hother Hkey. unfold encaps_pad.
  destruct (to_bytes4 (Z.of_nat i)) as [index_bytes|e]; simpl.
  - apply Z.eqb_neq in Hother. rewrite Hother.
    rewrite ecdh_undecodable by exact Hkey. eauto.
  - eauto.
Qed.

Lemma encaps_multi_undecodable secnonce pubnonce deckey enckeys context idx
      i enckey :
  nth_error enckeys i = Some enckey ->
  Z.of_nat i <> idx ->
  ecdh_libsecp256k1 secnonce enckey = None ->
  exists e,
    encaps_multi secnonce pubnonce deckey enckeys context idx = Raise e /\
    (e = ValueError \/ e = AssertionError \/ e = OverflowError).
Proof.
  intros Hnth Hother Hkey.
  destruct (encaps_multi secnonce pubnonce deckey enckeys context idx)
    as [pads|e] eqn:Hrun.
  - exfalso. apply encaps_multi_Ok in Hrun. destruct Hrun as [Hlen Hpad].
    destruct (encaps_pad_undecodable secnonce pubnonce deckey context idx
                i enckey Hother Hkey) as [e He].
    rewrite (Hpad i enckey (nth i pads 0) Hnth) in He; [discriminate|].
    apply nth_error_nth'. rewrite Hlen. apply nth_error_Some. congruence.
  - exists e. split; [reflexivity|].
    rewrite encaps_multi_listcomp in Hrun.
    apply py_listcomp_Raise in Hrun. destruct Hrun as [[j key] [_ Hj]].
    apply encaps_pad_Raise in Hj. exact Hj.
Qed.

(** The loop of [Reference.signer_round1], from recipient [k] on. *)
Lemma reference_loop_classifies (deckey : bytes) (enckeys : list bytes)
      (shares : list Scalar) (enc_context : bytes) (idx : Z)
      (m k : nat) (acc : list Scalar) :
  (forall j, (k <= j < k + m)%nat ->
             nth_error shares j <> None /\ nth_error enckeys j <> None) ->
  (exists i enckey, (k <= i < k + m)%nat /\
                    nth_error enckeys i = Some enckey /\
                    Z.of_nat i <> idx /\ ecdh_raw deckey enckey = None) ->
  exists i enckey,
    (k <= i < k + m)%nat /\
    nth_error enckeys i = Some enckey /\
    Z.of_nat i <> idx /\ ecdh_raw deckey enckey = None /\
    py_for
      (fun enc_shares i =>
         if Z.of_nat i =? idx then Ok (enc_shares ++ [mkScalar 0])
         else
           enc_share <-
             Reference.except_ValueError
               (share <- py_index shares (Z.of_nat i) ;;
                enckey <- py_index enckeys (Z.of_nat i) ;;
                Reference.encrypt share deckey enckey enc_context)
               (InvalidContributionError
                  (Some i) "Participant sent invalid encryption key") ;;
           Ok (enc_shares ++ [enc_share]))
      (seq k m) acc
    = Raise (InvalidContributionError
               (Some i) "Participant sent invalid encryption key").
Proof.
  revert k acc.
  induction m as [|m IH];
    intros k acc Hdef [i [enckey [Hi [Hnth [Hother Hkey]]]]].
  - lia.
  - assert (Hrest :
      i <> k ->
      forall acc',
      exists i' enckey',
        (k <= i' < k + S m)%nat /\
        nth_error enckeys i' = Some enckey' /\
        Z.of_nat i' <> idx /\ ecdh_raw deckey enckey' = None /\
        py_for
          (fun enc_shares i =>
             if Z.of_nat i =? idx then Ok (enc_shares ++ [mkScalar 0])
             else
               enc_share <-
                 Reference.except_ValueError
                   (share <- py_index shares (Z.of_nat i) ;;
                    enckey <- py_index enckeys (Z.of_nat i) ;;
                    Reference.encrypt share deckey enckey enc_context)
                   (InvalidContributionError
                      (Some i) "Participant sent invalid encryption key") ;;
               Ok (enc_shares ++ [enc_share]))
          (seq (S k) m) acc'
        = Raise (InvalidContributionError
                   (Some i') "Participant sent invalid encryption key")).
    { intros Hne acc'.
      destruct (IH (S k) acc') as [i' [enckey' [Hi' H']]].
      - intros j Hj. apply Hdef. lia.
      - exists i, enckey. repeat split; try assumption; lia.
      - exists i', enckey'. split; [lia|exact H']. }
    cbn [seq py_for].
    destruct (Z.of_nat k =? idx) eqn:Hself.
    + cbn [bind]. apply Hrest. intros ->. apply Z.eqb_eq in Hself. auto.
    + destruct (Hdef k) as [Hshare Hkey_k]; [lia|].
      destruct (nth_error shares k) as [share|] eqn:Hs; [|congruence].
      destruct (nth_error enckeys k) as [enckey_k|] eqn:Hk; [|congruence].
      rewrite (py_index_nat _ _ _ Hs), (py_index_nat _ _ _ Hk).
      cbn [bind]. unfold Reference.encrypt, Reference.ecdh.
      destruct (ecdh_raw deckey enckey_k) as [point|] eqn:Hraw.
      * cbn. apply Hrest. intros ->. congruence.
      * cbn. exists k, enckey_k. apply Z.eqb_neq in Hself.
        repeat split; try assumption; lia.
Qed.

(** The older variant names the owner of a key that does not decode. *)
Lemma reference_signer_round1_classifies (seed : bytes) (t : Z) (n : nat)
      (deckey : bytes) (enckeys : list bytes) (idx : Z) (t_bytes : bytes)
      simpl_state simpl_uni1 (shares : list Scalar) (i : nat)
      (enckey : bytes) :
  t < 2 ^ 32 ->
  to_bytes4 t = Ok t_bytes ->
  simpl_signer_round1
    (tagged_hash_bip_dkg "EncPedPop seed" (seed ++ (t_bytes ++ join enckeys)))
    t (length enckeys) idx = Ok (simpl_state, simpl_uni1, shares) ->
  length shares = length enckeys ->
  nth_error enckeys i = Some enckey ->
  Z.of_nat i <> idx ->
  ecdh_raw deckey enckey = None ->
  exists j enckey_j,
    nth_error enckeys j = Some enckey_j /\
    Z.of_nat j <> idx /\ ecdh_raw deckey enckey_j = None /\
    Reference.signer_round1 seed t n deckey enckeys idx
    = Raise (InvalidContributionError
               (Some j) "Participant sent invalid encryption key").
Proof.
  intros Ht Hbytes Hcore Hlen Hnth Hother Hkey.
  assert (Hi : (i < length enckeys)%nat)
    by (apply nth_error_Some; congruence).
  destruct (reference_loop_classifies deckey enckeys shares
              (t_bytes ++ join enckeys) idx (length enckeys) 0 [])
    as [j [enckey_j [Hj [Hnth_j [Hother_j [Hkey_j Hrun]]]]]].
  - intros j Hj. split; apply nth_error_Some; lia.
  - exists i, enckey. repeat split; try assumption; lia.
  - exists j, enckey_j. repeat split; try assumption.
    unfold Reference.signer_round1.
    replace (t <? 2 ^ (4 * 8)) with true
      by (symmetry; apply Z.ltb_lt; exact Ht).
    cbn [py_assert bind]. rewrite Hbytes. cbn [bind].
    rewrite Hcore. cbn [bind]. rewrite Hlen, Nat.eqb_refl.
    cbn [py_assert bind]. unfold range. rewrite Hrun. reflexivity.
Qed.
End UndecodableKeys.

(** C5. In [participant_step1] of the nonce-based variant, when the
  session nonce and the secret-sharing core have been set up and some
  other participant's encryption key does not decode, the call fails
  with the exception of the curve library ([ValueError]), with
  [AssertionError] or with [OverflowError]: never with an
  [InvalidContributionError] that names the owner of the key. *)
Theorem participant_step1_undecodable_enckey
        {P : Primitives} {C : SimplPedPop} :
  forall (seed deckey : bytes) (enckeys : list bytes) (t idx : Z)
         (random enc_context pubnonce : bytes)
         simpl_state simpl_pmsg (shares : list Scalar)
         (i : nat) (enckey : bytes),
    t < 2 ^ 32 ->
    length random = 32%nat ->
    serialize_enc_context t enckeys = Ok enc_context ->
    pubkey_gen_plain (prf seed "encpodpop secnonce" (random ++ enc_context))
    = Some pubnonce ->
    simpl_participant_step1
      (derive_simpl_seed seed pubnonce enc_context) t (length enckeys) idx
    = Ok (simpl_state, simpl_pmsg, shares) ->
    length shares = length enckeys ->
    nth_error enckeys i = Some enckey ->
    Z.of_nat i <> idx ->
    ecdh_libsecp256k1
      (prf seed "encpodpop secnonce" (random ++ enc_context)) enckey = None ->
    exists e,
      participant_step1 seed deckey enckeys t idx random = Raise e /\
      (e = ValueError \/ e = AssertionError \/ e = OverflowError) /\
      is_invalid_contribution e = false.
Proof.
  intros seed deckey enckeys t idx random enc_context pubnonce
         simpl_state simpl_pmsg shares i enckey
         Ht Hrandom Hctx Hnonce Hcore Hlen Hnth Hother Hkey.
  destruct (encaps_multi_undecodable
              (prf seed "encpodpop secnonce" (random ++ enc_context))
              pubnonce deckey enckeys enc_context idx i enckey
              Hnth Hother Hkey) as [e [Hrun He]].
  exists e. split; [|split; [exact He|]].
  - unfold participant_step1.
    replace (t <? 2 ^ (4 * 8)) with true
      by (symmetry; apply Z.ltb_lt; exact Ht).
    cbn [py_assert bind]. rewrite Hrandom. cbn [Nat.eqb py_assert bind].
    rewrite Hctx. cbn [bind]. rewrite Hnonce. cbn [decoded bind].
    rewrite Hcore. cbn [bind]. rewrite Hlen, Nat.eqb_refl.
    cbn [py_assert bind]. unfold encrypt_multi. rewrite Hrun. reflexivity.
  - destruct He as [->|[->| ->]]; reflexivity.
Qed.

(** ** What step 1 does with the decryption key *)

Section DeckeyFacts.
Context {P : Primitives}.

Lemma same_outcome_bind {A B B'} (c : result A)
      (k : A -> result B) (k' : A -> result B') :
  (forall a, same_outcome (k a) (k' a)) ->
  same_outcome (bind c k) (bind c k').
Proof.
  intros H. destruct c as [a|e]; simpl; [apply H|reflexivity].
Qed.

Lemma encaps_listcomp_deckey secnonce pubnonce deckey deckey' context idx
      (keys : list (nat * bytes)) :
  match
    py_listcomp
      (fun '(i, enckey) =>
         encaps_pad secnonce pubnonce deckey context idx i enckey) keys,
    py_listcomp
      (fun '(i, enckey) =>
         encaps_pad secnonce pubnonce deckey' context idx i enckey) keys
  with
  | Ok pads, Ok pads' => length pads = length pads'
  | Raise e, Raise e' => e = e'
  | _, _ => False
  end.
Proof.
  unfold encaps_pad.
  induction keys as [|[i enckey] keys IH]; simpl.
  - reflexivity.
  - destruct (to_bytes4 (Z.of_nat i)) as [index_bytes|e]; simpl;
      [|reflexivity].
    destruct (Z.of_nat i =? idx).
    + simpl.
      destruct (py_listcomp _ keys) as [pads|e];
        destruct (py_listcomp _ keys) as [pads'|e']; simpl;
        try contradiction; congruence.
    + destruct (ecdh secnonce pubnonce enckey (index_bytes ++ context) true)
        as [pad|e]; simpl; [|reflexivity].
      destruct (py_listcomp _ keys) as [pads|e];
        destruct (py_listcomp _ keys) as [pads'|e']; simpl;
        try contradiction; congruence.
Qed.

Lemma encrypt_multi_deckey secnonce pubnonce deckey deckey' enckeys messages
      context idx :
  same_outcome
    (encrypt_multi secnonce pubnonce deckey enckeys messages context idx)
    (encrypt_multi secnonce pubnonce deckey' enckeys messages context idx).
Proof.
  unfold encrypt_multi. rewrite !encaps_multi_listcomp.
  pose proof (encaps_listcomp_deckey secnonce pubnonce deckey deckey'
                context idx (enumerate enckeys)) as H.
  destruct (py_listcomp _ (enumerate enckeys)) as [pads|e];
    destruct (py_listcomp _ (enumerate enckeys)) as [pads'|e']; simpl;
    try contradiction; [|exact H].
  unfold py_zip_strict. rewrite H.
  destruct (Nat.eqb (length messages) (length pads')); reflexivity.
Qed.
End DeckeyFacts.

(** C8, as the code has it. [participant_step1] makes no check that
  relates [enckeys[idx]] to the decryption key: whether it returns,
  and which exception it raises when it does not, is the same for
  every decryption key. *)
Theorem participant_step1_outcome_ignores_deckey
        {P : Primitives} {C : SimplPedPop} :
  forall (seed deckey deckey' : bytes) (enckeys : list bytes) (t idx : Z)
         (random : bytes),
    same_outcome
      (participant_step1 seed deckey enckeys t idx random)
      (participant_step1 seed deckey' enckeys t idx random).
Proof.
  intros seed deckey deckey' enckeys t idx random. unfold participant_step1.
  apply same_outcome_bind. intros _.
  apply same_outcome_bind. intros _.
  apply same_outcome_bind. intros enc_context.
  apply same_outcome_bind. intros pubnonce.
  apply same_outcome_bind. intros [[simpl_state simpl_pmsg] shares].
  apply same_outcome_bind. intros _.
  pose proof (encrypt_multi_deckey
                (prf seed "encpodpop secnonce" (random ++ enc_context))
                pubnonce deckey deckey' enckeys shares enc_context idx) as H.
  destruct (encrypt_multi _ _ deckey _ _ _ _);
    destruct (encrypt_multi _ _ deckey' _ _ _ _); exact H.
Qed.

(** ** Step 1: parameters and shape of the result *)

(** X1. [participant_step1] asserts [t < 2**32] and [len(random) == 32]
    before anything else, and a negative [t] that passes both
    assertions makes the encoding of the session context raise
    [OverflowError]. *)
Theorem participant_step1_rejects_parameters
        {P : Primitives} {C : SimplPedPop} :
  forall (seed deckey : bytes) (enckeys : list bytes) (t idx : Z)
         (random : bytes),
    (2 ^ 32 <= t ->
     participant_step1 seed deckey enckeys t idx random
     = Raise AssertionError) /\
    (t < 2 ^ 32 -> length random <> 32%nat ->
     participant_step1 seed deckey enckeys t idx random
     = Raise AssertionError) /\
    (t < 0 -> length random = 32%nat ->
     participant_step1 seed deckey enckeys t idx random
     = Raise OverflowError).
Proof.
  intros seed deckey enckeys t idx random. unfold participant_step1.
  repeat split.
  - intros Ht.
    replace (t <? 2 ^ (4 * 8)) with false
      by (symmetry; apply Z.ltb_ge; exact Ht).
    reflexivity.
  - intros Ht Hrandom.
    replace (t <? 2 ^ (4 * 8)) with true
      by (symmetry; apply Z.ltb_lt; exact Ht).
    apply Nat.eqb_neq in Hrandom. rewrite Hrandom. reflexivity.
  - intros Ht Hrandom.
    replace (t <? 2 ^ (4 * 8)) with true
      by (symmetry; apply Z.ltb_lt; lia).
    rewrite Hrandom. cbn [Nat.eqb py_assert bind].
    unfold serialize_enc_context, to_bytes4.
    replace (0 <=? t) with false by (symmetry; apply Z.leb_gt; exact Ht).
    reflexivity.
Qed.

Section Step1Facts.
Context {P : Primitives} {C : SimplPedPop}.

(** Everything a returning [participant_step1] has computed. *)
Lemma participant_step1_inv seed deckey enckeys t idx random state pmsg :
  participant_step1 seed deckey enckeys t idx random = Ok (state, pmsg) ->
  exists enc_context pubnonce simpl_state simpl_pmsg shares enc_shares,
    t < 2 ^ 32 /\
    length random = 32%nat /\
    serialize_enc_context t enckeys = Ok enc_context /\
    pubkey_gen_plain (prf seed "encpodpop secnonce" (random ++ enc_context))
    = Some pubnonce /\
    simpl_participant_step1
      (derive_simpl_seed seed pubnonce enc_context) t (length enckeys) idx
    = Ok (simpl_state, simpl_pmsg, shares) /\
    length shares = length enckeys /\
    encrypt_multi (prf seed "encpodpop secnonce" (random ++ enc_context))
                  pubnonce deckey enckeys shares enc_context idx
    = Ok enc_shares /\
    state = ParticipantState.mk simpl_state pubnonce enckeys idx /\
    pmsg = ParticipantMsg.mk simpl_pmsg pubnonce enc_shares.
Proof.
  unfold participant_step1. intros H.
  apply bind_Ok in H. destruct H as [[] [Ht H]].
  apply bind_Ok in H. destruct H as [[] [Hrandom H]].
  apply bind_Ok in H. destruct H as [enc_context [Hctx H]].
  apply bind_Ok in H. destruct H as [pubnonce [Hnonce H]].
  apply bind_Ok in H.
  destruct H as [[[simpl_state simpl_pmsg] shares] [Hcore H]].
  apply bind_Ok in H. destruct H as [[] [Hlen H]].
  apply bind_Ok in H. destruct H as [enc_shares [Henc H]].
  injection H as <- <-.
  exists enc_context, pubnonce, simpl_state, simpl_pmsg, shares, enc_shares.
  unfold py_assert in Ht, Hrandom, Hlen.
  destruct (t <? 2 ^ (4 * 8)) eqn:Ht'; [|discriminate].
  destruct (Nat.eqb (length random) 32) eqn:Hrandom'; [|discriminate].
  destruct (Nat.eqb (length shares) (length enckeys)) eqn:Hlen';
    [|discriminate].
  apply Z.ltb_lt in Ht'. apply Nat.eqb_eq in Hrandom', Hlen'.
  unfold decoded in Hnonce.
  destruct (pubkey_gen_plain _) as [pubnonce'|] eqn:Hgen; [|discriminate].
  injection Hnonce as ->.
  repeat split; auto.
Qed.

Lemma to_bytes4_Ok (i : Z) (index_bytes : bytes) :
  to_bytes4 i = Ok index_bytes -> 0 <= i < 2 ^ 32.
Proof.
  unfold to_bytes4.
  destruct ((0 <=? i) && (i <? 2 ^ 32)) eqn:H; [|discriminate].
  intros _. apply andb_true_iff in H. destruct H as [H1 H2].
  apply Z.leb_le in H1. apply Z.ltb_lt in H2. lia.
Qed.
End Step1Facts.

(** X2. When [participant_step1] returns, [0 <= t < 2**32], the state
    stores the arguments [enckeys] and [idx] and the very public nonce
    that is sent in the message, that nonce is the public key of the
    secret nonce derived from seed, randomness and session context, and
    the message carries exactly one encrypted share per encryption
    key. *)
Theorem participant_step1_returns_shape {P : Primitives} {C : SimplPedPop} :
  forall (seed deckey : bytes) (enckeys : list bytes) (t idx : Z)
         (random : bytes) state pmsg,
    participant_step1 seed deckey enckeys t idx random = Ok (state, pmsg) ->
    0 <= t < 2 ^ 32 /\
    length random = 32%nat /\
    ParticipantState.enckeys state = enckeys /\
    ParticipantState.idx state = idx /\
    ParticipantState.pubnonce state = ParticipantMsg.pubnonce pmsg /\
    length (ParticipantMsg.enc_shares pmsg) = length enckeys /\
    exists enc_context,
      serialize_enc_context t enckeys = Ok enc_context /\
      pubkey_gen_plain (prf seed "encpodpop secnonce" (random ++ enc_context))
      = Some (ParticipantMsg.pubnonce pmsg).
Proof.
  intros seed deckey enckeys t idx random state pmsg H.
  apply participant_step1_inv in H.
  destruct H as (enc_context & pubnonce & simpl_state & simpl_pmsg & shares
                 & enc_shares & Ht & Hrandom & Hctx & Hnonce & Hcore & Hlen
                 & Henc & -> & ->).
  cbn [ParticipantState.enckeys ParticipantState.idx
       ParticipantState.pubnonce ParticipantMsg.pubnonce
       ParticipantMsg.enc_shares].
  assert (Hrange : 0 <= t < 2 ^ 32).
  { unfold serialize_enc_context in Hctx.
    apply bind_Ok in Hctx. destruct Hctx as [t_bytes [Hbytes _]].
    apply to_bytes4_Ok in Hbytes. exact Hbytes. }
  apply encrypt_multi_Ok in Henc.
  destruct Henc as [pads [Hpads [Hzip ->]]].
  apply encaps_multi_Ok in Hpads. destruct Hpads as [Hn _].
  repeat split; try assumption; try lia.
  - rewrite length_map, length_combine. lia.
  - exists enc_context. split; assumption.
Qed.

Section Step1Returns.
Context {P : Primitives}.

Lemma ecdh_defined secretA pubA secretB pubB context sending :
  curve_laws P ->
  pubkey_gen_plain secretA = Some pubA ->
  pubkey_gen_plain secretB = Some pubB ->
  exists pad, ecdh secretA pubA pubB context sending = Ok pad.
Proof.
  intros L HA HB. unfold ecdh.
  destruct (ecdh_libsecp256k1 secretA pubB) as [secret|] eqn:Hdh.
  - cbn [decoded bind].
    assert (Hlen : length (if sending then secret ++ pubA ++ pubB
                           else secret ++ pubB ++ pubA)
                   = (2 * 33 + 32)%nat).
    { destruct sending; rewrite !length_app;
        rewrite (laws_secret_size P L _ _ _ Hdh);
        rewrite (laws_pubkey_size P L _ _ HA);
        rewrite (laws_pubkey_size P L _ _ HB); reflexivity. }
    rewrite Hlen. cbn. eauto.
  - exfalso. exact (laws_defined P L _ _ _ _ HA HB Hdh).
Qed.

Lemma py_listcomp_defined {A B} (f : A -> result B) (xs : list A) :
  (forall x, In x xs -> exists y, f x = Ok y) ->
  exists ys, py_listcomp f xs = Ok ys.
Proof.
  induction xs as [|x xs IH]; intros H; simpl.
  - eauto.
  - destruct (H x (or_introl eq_refl)) as [y Hy]. rewrite Hy. simpl.
    destruct IH as [ys Hys].
    + intros x' Hin. apply H. right. exact Hin.
    + rewrite Hys. simpl. eauto.
Qed.

Lemma In_enumerate_from {A} (k i : nat) (x : A) (xs : list A) :
  In (i, x) (enumerate_from k xs) ->
  (k <= i)%nat /\ nth_error xs (i - k) = Some x.
Proof.
  revert k. induction xs as [|y xs IH]; intros k H; simpl in H.
  - contradiction.
  - destruct H as [H|H].
    + injection H as <- <-. rewrite Nat.sub_diag. split; [lia|reflexivity].
    + apply IH in H. destruct H as [Hle Hnth]. split; [lia|].
      replace (i - k)%nat with (S (i - S k)) by lia. exact Hnth.
Qed.

Lemma encaps_multi_returns secnonce pubnonce deckey enckeys context idx :
  curve_laws P ->
  pubkey_gen_plain secnonce = Some pubnonce ->
  Z.of_nat (length enckeys) <= 2 ^ 32 ->
  (forall i enckey,
      nth_error enckeys i = Some enckey -> Z.of_nat i <> idx ->
      exists seckey, pubkey_gen_plain seckey = Some enckey) ->
  exists pads,
    encaps_multi secnonce pubnonce deckey enckeys context idx = Ok pads.
Proof.
  intros L Hnonce Hsize Hkeys. rewrite encaps_multi_listcomp.
  apply py_listcomp_defined. intros [i enckey] Hin.
  apply In_enumerate_from in Hin. destruct Hin as [_ Hnth].
  rewrite Nat.sub_0_r in Hnth.
  assert (Hi : (i < length enckeys)%nat)
    by (apply nth_error_Some; congruence).
  unfold encaps_pad, to_bytes4.
  replace (0 <=? Z.of_nat i) with true by (symmetry; apply Z.leb_le; lia).
  replace (Z.of_nat i <? 2 ^ 32) with true by (symmetry; apply Z.ltb_lt; lia).
  cbn [andb bind].
  destruct (Z.of_nat i =? idx) eqn:Hself.
  - eauto.
  - apply Z.eqb_neq in Hself.
    destruct (Hkeys i enckey Hnth Hself) as [seckey Hseckey].
    apply (ecdh_defined secnonce pubnonce seckey enckey _ true L Hnonce Hseckey).
Qed.
End Step1Returns.

(** X3. [participant_step1] returns whenever its parameters are in
    range ([t] fits four bytes, 32 bytes of randomness, at most [2**32]
    encryption keys), the derived secret nonce has a public key, the
    secret-sharing core deals one share per key, and every encryption
    key other than the caller's own is a generated public key; the
    message then carries one encrypted share per key.  Nothing is
    required of [enckeys[idx]] or of the decryption key. *)
Theorem participant_step1_returns {P : Primitives} {C : SimplPedPop} :
  forall (seed deckey : bytes) (enckeys : list bytes) (t idx : Z)
         (random enc_context pubnonce : bytes)
         simpl_state simpl_pmsg (shares : list Scalar),
    curve_laws P ->
    length random = 32%nat ->
    Z.of_nat (length enckeys) <= 2 ^ 32 ->
    serialize_enc_context t enckeys = Ok enc_context ->
    pubkey_gen_plain (prf seed "encpodpop secnonce" (random ++ enc_context))
    = Some pubnonce ->
    simpl_participant_step1
      (derive_simpl_seed seed pubnonce enc_context) t (length enckeys) idx
    = Ok (simpl_state, simpl_pmsg, shares) ->
    length shares = length enckeys ->
    (forall i enckey,
        nth_error enckeys i = Some enckey -> Z.of_nat i <> idx ->
        exists seckey, pubkey_gen_plain seckey = Some enckey) ->
    exists enc_shares,
      participant_step1 seed deckey enckeys t idx random
      = Ok (ParticipantState.mk simpl_state pubnonce enckeys idx,
            ParticipantMsg.mk simpl_pmsg pubnonce enc_shares) /\
      length enc_shares = length enckeys.
Proof.
  intros seed deckey enckeys t idx random enc_context pubnonce
         simpl_state simpl_pmsg shares L Hrandom Hsize Hctx Hnonce Hcore
         Hlen Hkeys.
  destruct (encaps_multi_returns
              (prf seed "encpodpop secnonce" (random ++ enc_context))
              pubnonce deckey enckeys enc_context idx L Hnonce Hsize Hkeys)
    as [pads Hpads].
  pose proof (proj1 (encaps_multi_Ok _ _ _ _ _ _ _) Hpads) as [Hn _].
  exists (map (fun '(message, pad) => scalar_add message pad)
              (combine shares pads)).
  split.
  - assert (Ht : t < 2 ^ 32).
    { unfold serialize_enc_context in Hctx.
      apply bind_Ok in Hctx. destruct Hctx as [t_bytes [Hbytes _]].
      apply to_bytes4_Ok in Hbytes. lia. }
    unfold participant_step1.
    replace (t <? 2 ^ (4 * 8)) with true
      by (symmetry; apply Z.ltb_lt; exact Ht).
    cbn [py_assert bind]. rewrite Hrandom. cbn [Nat.eqb py_assert bind].
    rewrite Hctx. cbn [bind]. rewrite Hnonce. cbn [decoded bind].
    rewrite Hcore. cbn [bind]. rewrite Hlen, Nat.eqb_refl.
    cbn [py_assert bind]. unfold encrypt_multi. rewrite Hpads.
    cbn [bind]. unfold py_zip_strict.
    replace (Nat.eqb (length shares) (length pads)) with true
      by (symmetry; apply Nat.eqb_eq; congruence).
    reflexivity.
  - rewrite length_map, length_combine. lia.
Qed.

(** ** Lengths in [encrypt_multi] *)

(** X4. [encrypt_multi] returns one ciphertext per encryption key and
    only for as many messages as keys; with a different number of
    messages it raises [ValueError] once the pads have been derived
    (an exception of the pad derivation comes first). *)
Theorem encrypt_multi_lengths {P : Primitives} :
  forall (secnonce pubnonce deckey : bytes) (enckeys : list bytes)
         (messages : list Scalar) (context : bytes) (idx : Z),
    (forall ciphertexts,
        encrypt_multi secnonce pubnonce deckey enckeys messages context idx
        = Ok ciphertexts ->
        length ciphertexts = length enckeys /\
        length messages = length enckeys) /\
    (forall pads,
        length messages <> length enckeys ->
        encaps_multi secnonce pubnonce deckey enckeys context idx = Ok pads ->
        encrypt_multi secnonce pubnonce deckey enckeys messages context idx
        = Raise ValueError) /\
    (forall e,
        encaps_multi secnonce pubnonce deckey enckeys context idx = Raise e ->
        encrypt_multi secnonce pubnonce deckey enckeys messages context idx
        = Raise e).
Proof.
  intros secnonce pubnonce deckey enckeys messages context idx.
  repeat split.
  - apply encrypt_multi_Ok in H. destruct H as [pads [Hpads [Hlen ->]]].
    apply encaps_multi_Ok in Hpads. destruct Hpads as [Hn _].
    rewrite length_map, length_combine. lia.
  - apply encrypt_multi_Ok in H. destruct H as [pads [Hpads [Hlen ->]]].
    apply encaps_multi_Ok in Hpads. destruct Hpads as [Hn _]. lia.
  - intros pads Hdiff Hpads. unfold encrypt_multi. rewrite Hpads.
    cbn [bind]. unfold py_zip_strict.
    apply encaps_multi_Ok in Hpads. destruct Hpads as [Hn _].
    replace (Nat.eqb (length messages) (length pads)) with false
      by (symmetry; apply Nat.eqb_neq; congruence).
    reflexivity.
  - intros e Hpads. unfold encrypt_multi. rewrite Hpads. reflexivity.
Qed.

(** ** The coordinator, case by case *)

Section CoordinatorCases.
Context {C : SimplPedPop}.

Lemma check_enc_shares_first_invalid (before rest : list ParticipantMsg.t)
      (n : nat) :
  py_for
    (fun (_ : unit) i =>
       pmsg <- py_index (before ++ rest) (Z.of_nat i) ;;
       if negb (Nat.eqb (length (ParticipantMsg.enc_shares pmsg)) n) then
         Raise (InvalidContributionError
                  (Some i) "Participant sent enc_shares with invalid length")
       else Ok tt)
    (seq (length before) (length rest)) tt
  = match first_invalid_length_from (length before) rest n with
    | Some i =>
        Raise (InvalidContributionError
                 (Some i) "Participant sent enc_shares with invalid length")
    | None => Ok tt
    end.
Proof.
  revert before. induction rest as [|pmsg rest IH]; intros before.
  - reflexivity.
  - cbn [length seq py_for first_invalid_length_from].
    rewrite (py_index_nat (before ++ pmsg :: rest) (length before) pmsg).
    + cbn [bind].
      destruct (Nat.eqb (length (ParticipantMsg.enc_shares pmsg)) n).
      * cbn [negb bind].
        specialize (IH (before ++ [pmsg])).
        rewrite <- app_assoc in IH. cbn [app] in IH.
        rewrite length_app in IH. cbn [length] in IH.
        rewrite Nat.add_1_r in IH. exact IH.
      * reflexivity.
    + rewrite nth_error_app2 by lia. rewrite Nat.sub_diag. reflexivity.
Qed.

Lemma first_invalid_length_None (start : nat) (pmsgs : list ParticipantMsg.t)
      (n : nat) :
  first_invalid_length_from start pmsgs n = None ->
  Forall (fun pmsg => length (ParticipantMsg.enc_shares pmsg) = n) pmsgs.
Proof.
  revert start. induction pmsgs as [|pmsg pmsgs IH]; intros start H.
  - constructor.
  - cbn [first_invalid_length_from] in H.
    destruct (Nat.eqb (length (ParticipantMsg.enc_shares pmsg)) n) eqn:Hlen;
      [|discriminate].
    constructor; [apply Nat.eqb_eq; exact Hlen|exact (IH _ H)].
Qed.

End CoordinatorCases.

(** X5. With as many messages as encryption keys, [coordinator_step]
    first runs the secret-sharing core and lets its exception through;
    then it raises [InvalidContributionError] for the first message
    whose vector of encrypted shares has the wrong length; otherwise it
    returns the core's message with the public nonces in the order of
    the participants, the core's output, the core's transcript followed
    by all encryption keys and all public nonces, and, for every
    recipient, the sum of the shares encrypted for it. *)
Theorem coordinator_step_cases {C : SimplPedPop} :
  forall (pmsgs : list ParticipantMsg.t) (t : Z) (enckeys : list bytes),
    length pmsgs = length enckeys ->
    coordinator_step pmsgs t enckeys =
    ('(simpl_cmsg, dkg_output, eq_input) <-
       simpl_coordinator_step
         (map ParticipantMsg.simpl_pmsg pmsgs) t (length enckeys) ;;
     match first_invalid_length pmsgs (length enckeys) with
     | Some i =>
         Raise (InvalidContributionError
                  (Some i) "Participant sent enc_shares with invalid length")
     | None =>
         Ok (CoordinatorMsg.mk
               simpl_cmsg (map ParticipantMsg.pubnonce pmsgs),
             dkg_output,
             eq_input ++ (join enckeys
                          ++ join (map ParticipantMsg.pubnonce pmsgs)),
             map (fun i =>
                    Scalar_sum
                      (column i (map ParticipantMsg.enc_shares pmsgs)))
                 (range (length enckeys)))
     end).
Proof.
  intros pmsgs t enckeys Hlen. unfold coordinator_step.
  rewrite Hlen, Nat.eqb_refl. cbn [negb].
  destruct (simpl_coordinator_step _ t (length enckeys))
    as [[[simpl_cmsg dkg_output] eq_input]|e]; [|reflexivity].
  cbn [bind]. unfold check_enc_shares_length, range, first_invalid_length.
  pose proof (check_enc_shares_first_invalid [] pmsgs (length enckeys)) as Hcheck.
  cbn [app length] in Hcheck. rewrite Hlen in Hcheck. rewrite Hcheck.
  destruct (first_invalid_length_from 0 pmsgs (length enckeys)) as [i|] eqn:Hfirst.
  - reflexivity.
  - cbn [bind]. apply first_invalid_length_None in Hfirst.
    fold (range (length enckeys)).
    rewrite (aggregate_Ok pmsgs (length enckeys) Hfirst). reflexivity.
Qed.

(** ** Step 2 and the coordinator's message *)

Section Step2Facts.
Context {P : Primitives} {C : SimplPedPop}.

Lemma py_index_out_of_range {A} (xs : list A) (i : Z) :
  Z.of_nat (length xs) <= i \/ i < - Z.of_nat (length xs) ->
  py_index xs i = Raise IndexError.
Proof.
  intros H. unfold py_index.
  destruct (i <? 0) eqn:Hneg.
  - apply Z.ltb_lt in Hneg.
    replace (0 <=? i + Z.of_nat (length xs)) with false
      by (symmetry; apply Z.leb_gt; lia).
    reflexivity.
  - apply Z.ltb_ge in Hneg.
    replace (i <? Z.of_nat (length xs)) with false
      by (symmetry; apply Z.ltb_ge; lia).
    rewrite andb_false_r. reflexivity.
Qed.

Lemma py_index_Ok {A} (xs : list A) (i : Z) (x : A) :
  py_index xs i = Ok x ->
  0 <= i ->
  nth_error xs (Z.to_nat i) = Some x.
Proof.
  unfold py_index. intros H Hi.
  replace (i <? 0) with false in H by (symmetry; apply Z.ltb_ge; exact Hi).
  destruct ((0 <=? i) && (i <? Z.of_nat (length xs))); [|discriminate].
  destruct (nth_error xs (Z.to_nat i)); [|discriminate].
  congruence.
Qed.
End Step2Facts.

(** X6. When the participant's index lies outside the list of public
    nonces of the coordinator message (also counting from the end, as
    Python does for a negative index), [participant_step2] raises
    [IndexError]: a coordinator message that is too short is not
    reported as an [InvalidContributionError]. *)
Theorem participant_step2_short_message {P : Primitives} {C : SimplPedPop} :
  forall (state : ParticipantState.t) (deckey : bytes)
         (cmsg : CoordinatorMsg.t) (enc_secshare : Scalar),
    Z.of_nat (length (CoordinatorMsg.pubnonces cmsg))
    <= ParticipantState.idx state
    \/ ParticipantState.idx state
       < - Z.of_nat (length (CoordinatorMsg.pubnonces cmsg)) ->
    participant_step2 state deckey cmsg enc_secshare = Raise IndexError /\
    is_invalid_contribution IndexError = false.
Proof.
  intros [simpl_state pubnonce enckeys idx] deckey [simpl_cmsg pubnonces]
         enc_secshare H.
  cbn [CoordinatorMsg.pubnonces ParticipantState.idx] in H.
  split; [|reflexivity].
  unfold participant_step2. rewrite (py_index_out_of_range _ _ H).
  reflexivity.
Qed.

(** X7. For a negative index [decrypt_sum] passes its range check and
    then fails to encode the index: it raises [OverflowError], whatever
    the keys, nonces and ciphertext. *)
Theorem decrypt_sum_negative_index {P : Primitives} :
  forall (deckey enckey : bytes) (pubnonces : list bytes)
         (sum_ciphertexts : Scalar) (context : bytes) (idx : Z),
    idx < 0 ->
    decrypt_sum deckey enckey pubnonces sum_ciphertexts context idx
    = Raise OverflowError.
Proof.
  intros deckey enckey pubnonces sum_ciphertexts context idx Hneg.
  rewrite decrypt_sum_in_range by lia.
  unfold to_bytes4.
  replace (0 <=? idx) with false by (symmetry; apply Z.leb_gt; exact Hneg).
  reflexivity.
Qed.

(** ** Contexts determine what they were built from *)

Section ContextFacts.

Lemma byte_of_Z_value (z : Z) : Z.of_N (Byte.to_N (byte_of_Z z)) = z mod 256.
Proof.
  unfold byte_of_Z.
  pose proof (Z.mod_pos_bound z 256 ltac:(lia)) as Hrange.
  destruct (Byte.of_N (Z.to_N (z mod 256))) as [b|] eqn:E.
  - apply Byte.to_of_N in E. rewrite E. apply Z2N.id. lia.
  - apply Byte.of_N_None_iff in E. lia.
Qed.

Lemma to_bytes4_value (i : Z) (index_bytes : bytes) :
  to_bytes4 i = Ok index_bytes ->
  length index_bytes = 4%nat /\ from_bytes_big index_bytes = i.
Proof.
  intros H. pose proof (to_bytes4_Ok i index_bytes H) as Hi.
  unfold to_bytes4 in H.
  destruct ((0 <=? i) && (i <? 2 ^ 32)); [|discriminate].
  injection H as <-. split; [reflexivity|].
  unfold from_bytes_big. cbn [fold_left].
  rewrite !byte_of_Z_value, !Z.shiftr_div_pow2 by lia.
  change (2 ^ 24) with 16777216. change (2 ^ 16) with 65536.
  change (2 ^ 8) with 256. change (2 ^ 32) with 4294967296 in Hi.
  Z.div_mod_to_equations. lia.
Qed.
End ContextFacts.

Section ContextInjective.

Lemma app_same_length_inv {A} (a b x y : list A) :
  length a = length b -> a ++ x = b ++ y -> a = b /\ x = y.
Proof.
  revert b. induction a as [|h a IH]; intros [|h' b] Hlen H;
    try discriminate.
  - auto.
  - cbn [app] in H. injection H as -> H.
    destruct (IH b) as [-> ->]; [simpl in Hlen; congruence|exact H|auto].
Qed.

Lemma to_bytes4_injective (i j : Z) (a b : bytes) :
  to_bytes4 i = Ok a -> to_bytes4 j = Ok b -> a = b -> i = j.
Proof.
  intros Hi Hj ->.
  apply to_bytes4_value in Hi, Hj. destruct Hi as [_ <-], Hj as [_ <-].
  reflexivity.
Qed.

Lemma join_fixed_size_injective (size : nat) (xs ys : list bytes) :
  size <> 0%nat ->
  Forall (fun x => length x = size) xs ->
  Forall (fun y => length y = size) ys ->
  join xs = join ys -> xs = ys.
Proof.
  intros Hsize Hxs. revert ys.
  induction Hxs as [|x xs Hx Hxs IH]; intros ys Hys H.
  - destruct Hys as [|y ys Hy Hys]; [reflexivity|].
    unfold join in H. cbn [concat] in H.
    destruct y; [simpl in Hy; congruence|discriminate].
  - destruct Hys as [|y ys Hy Hys].
    + unfold join in H. cbn [concat] in H.
      destruct x; [simpl in Hx; congruence|discriminate].
    + unfold join in H. cbn [concat] in H.
      apply app_same_length_inv in H; [|congruence].
      destruct H as [-> H]. f_equal. apply IH; assumption.
Qed.
End ContextInjective.

(** X8. The context of a recipient, the index on four bytes followed by
    the session context, determines both: two recipient contexts are
    equal only for equal indices and equal session contexts, so the
    pads of two positions are never derived from the same context. *)
Theorem recipient_context_injective :
  forall (i j : Z) (index_i index_j context context' : bytes),
    to_bytes4 i = Ok index_i ->
    to_bytes4 j = Ok index_j ->
    index_i ++ context = index_j ++ context' ->
    i = j /\ context = context'.
Proof.
  intros i j index_i index_j context context' Hi Hj H.
  pose proof (to_bytes4_value i index_i Hi) as [Hlen_i _].
  pose proof (to_bytes4_value j index_j Hj) as [Hlen_j _].
  apply app_same_length_inv in H; [|congruence].
  destruct H as [Hindex Hcontext]. split; [|exact Hcontext].
  exact (to_bytes4_injective i j index_i index_j Hi Hj Hindex).
Qed.

(** X9. [serialize_enc_context] is injective on thresholds and lists of
    33-byte encryption keys: two sessions with the same context have
    the same threshold and the same keys in the same order. *)
Theorem serialize_enc_context_injective :
  forall (t t' : Z) (enckeys enckeys' : list bytes) (enc_context : bytes),
    Forall (fun enckey => length enckey = 33%nat) enckeys ->
    Forall (fun enckey => length enckey = 33%nat) enckeys' ->
    serialize_enc_context t enckeys = Ok enc_context ->
    serialize_enc_context t' enckeys' = Ok enc_context ->
    t = t' /\ enckeys = enckeys'.
Proof.
  intros t t' enckeys enckeys' enc_context Hkeys Hkeys' H H'.
  unfold serialize_enc_context in H, H'.
  apply bind_Ok in H. destruct H as [t_bytes [Ht H]].
  apply bind_Ok in H'. destruct H' as [t_bytes' [Ht' H']].
  injection H as <-. injection H' as H'.
  pose proof (to_bytes4_value t t_bytes Ht) as [Hlen _].
  pose proof (to_bytes4_value t' t_bytes' Ht') as [Hlen' _].
  apply app_same_length_inv in H'; [|congruence].
  destruct H' as [Hbytes Hjoin]. split.
  - symmetry. exact (to_bytes4_injective t' t t_bytes' t_bytes Ht' Ht Hbytes).
  - symmetry.
    apply (join_fixed_size_injective 33); [discriminate|assumption..].
Qed.

(** ** Transcripts *)

Section TranscriptFacts.
Context {P : Primitives} {C : SimplPedPop}.

(** Everything a returning [coordinator_step] has computed. *)
Lemma coordinator_step_inv pmsgs t enckeys cmsg dkg_output eq_input
      enc_secshares :
  coordinator_step pmsgs t enckeys
  = Ok (cmsg, dkg_output, eq_input, enc_secshares) ->
  length pmsgs = length enckeys /\
  Forall (fun pmsg =>
            length (ParticipantMsg.enc_shares pmsg) = length enckeys) pmsgs /\
  exists simpl_cmsg core_eq_input,
    simpl_coordinator_step
      (map ParticipantMsg.simpl_pmsg pmsgs) t (length enckeys)
    = Ok (simpl_cmsg, dkg_output, core_eq_input) /\
    cmsg = CoordinatorMsg.mk simpl_cmsg (map ParticipantMsg.pubnonce pmsgs) /\
    eq_input = core_eq_input
               ++ (join enckeys ++ join (map ParticipantMsg.pubnonce pmsgs)) /\
    enc_secshares =
    map (fun i => Scalar_sum (column i (map ParticipantMsg.enc_shares pmsgs)))
        (range (length enckeys)).
Proof.
  unfold coordinator_step. intros H.
  destruct (Nat.eqb (length enckeys) (length pmsgs)) eqn:Hlen;
    [|discriminate].
  apply Nat.eqb_eq in Hlen. cbn [negb] in H.
  apply bind_Ok in H.
  destruct H as [[[simpl_cmsg dkg_output'] core_eq_input] [Hcore H]].
  apply bind_Ok in H. destruct H as [[] [Hcheck H]].
  unfold check_enc_shares_length, range in Hcheck.
  pose proof (check_enc_shares_first_invalid [] pmsgs (length enckeys))
    as Hloop.
  cbn [app length] in Hloop. rewrite <- Hlen in Hloop.
  rewrite Hloop in Hcheck.
  destruct (first_invalid_length_from 0 pmsgs (length enckeys)) eqn:Hfirst;
    [discriminate|].
  apply first_invalid_length_None in Hfirst.
  rewrite (aggregate_Ok pmsgs (length enckeys) Hfirst) in H.
  cbn [bind] in H. injection H as <- <- <- <-.
  split; [congruence|]. split; [exact Hfirst|].
  exists simpl_cmsg, core_eq_input. auto.
Qed.

(** Everything a returning [participant_step2] has computed. *)
Lemma participant_step2_inv state deckey cmsg enc_secshare dkg_output
      eq_input :
  participant_step2 state deckey cmsg enc_secshare
  = Ok (dkg_output, eq_input) ->
  exists enc_context own_enckey secshare core_eq_input,
    py_index (CoordinatorMsg.pubnonces cmsg) (ParticipantState.idx state)
    = Ok (ParticipantState.pubnonce state) /\
    serialize_enc_context
      (simpl_state_t (ParticipantState.simpl_state state))
      (ParticipantState.enckeys state) = Ok enc_context /\
    py_index (ParticipantState.enckeys state) (ParticipantState.idx state)
    = Ok own_enckey /\
    decrypt_sum deckey own_enckey (CoordinatorMsg.pubnonces cmsg)
                enc_secshare enc_context (ParticipantState.idx state)
    = Ok secshare /\
    simpl_participant_step2
      (ParticipantState.simpl_state state) (CoordinatorMsg.simpl_cmsg cmsg)
      secshare = Ok (dkg_output, core_eq_input) /\
    eq_input = core_eq_input
               ++ (join (ParticipantState.enckeys state)
                   ++ join (CoordinatorMsg.pubnonces cmsg)).
Proof.
  destruct state as [simpl_state pubnonce enckeys idx].
  destruct cmsg as [simpl_cmsg pubnonces].
  unfold participant_step2. intros H.
  apply bind_Ok in H. destruct H as [reported [Hreported H]].
  destruct (bytes_eq_dec reported pubnonce) as [->|_]; [|discriminate].
  apply bind_Ok in H. destruct H as [enc_context [Hctx H]].
  apply bind_Ok in H. destruct H as [own_enckey [Hown H]].
  apply bind_Ok in H. destruct H as [secshare [Hdec H]].
  apply bind_Ok in H. destruct H as [[dkg_output' core_eq_input] [Hcore H]].
  injection H as <- <-.
  exists enc_context, own_enckey, secshare, core_eq_input.
  cbn [CoordinatorMsg.pubnonces CoordinatorMsg.simpl_cmsg
       ParticipantState.idx ParticipantState.pubnonce
       ParticipantState.enckeys ParticipantState.simpl_state].
  auto 10.
Qed.
End TranscriptFacts.

(** X10. When the coordinator and a participant of the same session
    (same list of encryption keys, the coordinator's message) both
    return, each transcript is the transcript of the secret-sharing core
    on that side followed by all encryption keys and all public nonces
    of the coordinator message; so the two transcripts are equal exactly
    when the two core transcripts are. *)
Theorem transcripts_agree {P : Primitives} {C : SimplPedPop} :
  forall (pmsgs : list ParticipantMsg.t) (t : Z) (enckeys : list bytes)
         (cmsg : CoordinatorMsg.t) dkg_c (eq_c : bytes)
         (enc_secshares : list Scalar)
         (state : ParticipantState.t) (deckey : bytes)
         (enc_secshare : Scalar) dkg_p (eq_p : bytes),
    coordinator_step pmsgs t enckeys = Ok (cmsg, dkg_c, eq_c, enc_secshares) ->
    participant_step2 state deckey cmsg enc_secshare = Ok (dkg_p, eq_p) ->
    ParticipantState.enckeys state = enckeys ->
    exists simpl_cmsg core_eq_c secshare core_eq_p,
      simpl_coordinator_step
        (map ParticipantMsg.simpl_pmsg pmsgs) t (length enckeys)
      = Ok (simpl_cmsg, dkg_c, core_eq_c) /\
      simpl_participant_step2
        (ParticipantState.simpl_state state) simpl_cmsg secshare
      = Ok (dkg_p, core_eq_p) /\
      eq_c = core_eq_c
             ++ (join enckeys ++ join (map ParticipantMsg.pubnonce pmsgs)) /\
      eq_p = core_eq_p
             ++ (join enckeys ++ join (map ParticipantMsg.pubnonce pmsgs)) /\
      (eq_c = eq_p <-> core_eq_c = core_eq_p).
Proof.
  intros pmsgs t enckeys cmsg dkg_c eq_c enc_secshares state deckey
         enc_secshare dkg_p eq_p Hc Hp Hkeys.
  apply coordinator_step_inv in Hc.
  destruct Hc as (_ & _ & simpl_cmsg & core_eq_c & Hcore_c & -> & -> & _).
  apply participant_step2_inv in Hp.
  destruct Hp as (enc_context & own_enckey & secshare & core_eq_p
                  & _ & _ & _ & _ & Hcore_p & ->).
  cbn [CoordinatorMsg.pubnonces CoordinatorMsg.simpl_cmsg] in *.
  rewrite Hkeys.
  exists simpl_cmsg, core_eq_c, secshare, core_eq_p.
  repeat split; try assumption; try reflexivity.
  - intros H. apply app_inv_tail in H. exact H.
  - intros ->. reflexivity.
Qed.

(** ** From step 1 through the coordinator to step 2 *)

Section SessionFacts.
Context {P : Primitives} {C : SimplPedPop}.

Lemma list_choice {A B} (R : nat -> A -> B -> Prop) (xs : list A) :
  (forall i x, nth_error xs i = Some x -> exists y, R i x y) ->
  exists ys,
    length ys = length xs /\
    forall i x y,
      nth_error xs i = Some x -> nth_error ys i = Some y -> R i x y.
Proof.
  revert R. induction xs as [|a xs IH]; intros R H.
  - exists []. split; [reflexivity|]. intros [|i] x y Hx; discriminate.
  - destruct (H 0%nat a eq_refl) as [b Hb].
    destruct (IH (fun i => R (S i))) as [ys [Hlen Hys]].
    + intros i x Hx. apply (H (S i)). exact Hx.
    + exists (b :: ys). split; [simpl; congruence|].
      intros [|i] x y Hx Hy; simpl in Hx, Hy.
      * injection Hx as <-. injection Hy as <-. exact Hb.
      * apply Hys; assumption.
Qed.

Lemma map_eq_pointwise {A B D} (f : A -> D) (g : B -> D)
      (xs : list A) (ys : list B) :
  length xs = length ys ->
  (forall i x y,
      nth_error xs i = Some x -> nth_error ys i = Some y -> f x = g y) ->
  map f xs = map g ys.
Proof.
  revert ys. induction xs as [|x xs IH]; intros [|y ys] Hlen H;
    try discriminate.
  - reflexivity.
  - cbn [map]. f_equal.
    + apply (H 0%nat); reflexivity.
    + apply IH; [simpl in Hlen; congruence|].
      intros i x' y' Hx Hy. apply (H (S i)); assumption.
Qed.

(** Aggregation followed by decryption, for ciphertexts that
    [encrypt_multi] returned. *)
Lemma decrypt_sum_encrypted_by (parties : list Party.t) (context : bytes)
      (ciphertexts : list (list Scalar)) (idx : nat) (me : Party.t) :
  dh_commutes P ->
  Forall valid_keys parties ->
  encrypted_by parties context ciphertexts ->
  nth_error parties idx = Some me ->
  decrypt_sum (Party.deckey me) (Party.enckey me)
              (map Party.pubnonce parties)
              (Scalar_sum (column idx ciphertexts))
              context (Z.of_nat idx)
  = Ok (Scalar_sum (column idx (map Party.messages parties))).
Proof.
  intros Hdh Hvalid [Hlen Henc] Hme.
  assert (Hidx : (idx < length parties)%nat)
    by (apply nth_error_Some; congruence).
  assert (Hmykey : nth_error (map Party.enckey parties) idx
                   = Some (Party.enckey me))
    by (rewrite nth_error_map, Hme; reflexivity).
  rewrite Forall_forall in Hvalid.
  assert (Hvme : valid_keys me) by (apply Hvalid, (nth_error_In _ _ Hme)).
  destruct (nth_error ciphertexts idx) as [mine|] eqn:Hmine;
    [|apply nth_error_None in Hmine; lia].
  destruct (encrypt_multi_nth _ _ _ _ _ _ _ _ _ _ (Henc _ _ _ Hme Hmine) Hmykey)
    as [own [Hown _]].
  apply encaps_pad_self in Hown. destruct Hown as [index_bytes [Hbytes _]].
  rewrite decrypt_sum_in_range by (rewrite length_map; lia).
  rewrite Hbytes. cbn [bind]. unfold enumerate.
  destruct (decrypt_loop_sum (Party.deckey me) (Party.enckey me)
              (index_bytes ++ context) idx parties ciphertexts 0
              (Scalar_sum (column idx ciphertexts)) Hlen)
    as [r [Hrun [Hsum Hnorm]]].
  - intros j p c Hp Hc.
    destruct (encrypt_multi_nth _ _ _ _ _ _ _ _ _ _ (Henc _ _ _ Hp Hc) Hmykey)
      as [pad [Hpad Hct]].
    exists pad. split; [exact Hct|].
    apply encaps_decaps_pad; try assumption.
    + apply Hvalid, (nth_error_In _ _ Hp).
    + simpl. intros E. rewrite E in Hp. congruence.
  - rewrite Hrun. f_equal. rewrite <- Hnorm.
    + rewrite Hsum, !Scalar_sum_Zsum. apply sum_cancel.
    + rewrite Scalar_sum_Zsum. unfold mkScalar.
      apply Z.mod_mod, GROUP_ORDER_nonzero.
Qed.

Lemma dealt_shares_of_step1 input enckeys t idx enc_context pubnonce
      simpl_state simpl_pmsg shares dealt :
  serialize_enc_context t enckeys = Ok enc_context ->
  pubkey_gen_plain (prf (Input.seed input) "encpodpop secnonce"
                        (Input.random input ++ enc_context))
  = Some pubnonce ->
  simpl_participant_step1
    (derive_simpl_seed (Input.seed input) pubnonce enc_context)
    t (length enckeys) idx = Ok (simpl_state, simpl_pmsg, shares) ->
  dealt_shares input enckeys t idx = Ok dealt ->
  dealt = shares.
Proof.
  intros Hctx Hnonce Hcore. unfold dealt_shares.
  rewrite Hctx. cbn [bind]. rewrite Hnonce. cbn [decoded bind].
  rewrite Hcore. cbn [bind]. congruence.
Qed.
End SessionFacts.

(** X11. A whole session.  Every participant [i] holds the decryption
    key of [enckeys[i]] and has run [participant_step1] with the same
    threshold and keys; the coordinator has combined the messages.
    Then the coordinator returns one aggregated ciphertext per
    participant, and [participant_step2] of participant [idx], given
    the coordinator's message and its aggregated ciphertext, passes the
    nonce check, decrypts, and calls the secret-sharing core with the
    sum of the shares that all participants' cores dealt to [idx];
    what it returns is the core's output with the transcript extended
    by all encryption keys and all public nonces. *)
Theorem session_step2_receives_sum_of_shares
        {P : Primitives} {C : SimplPedPop} :
  forall (inputs : list Input.t) (enckeys : list bytes) (t : Z)
         (outputs : list (ParticipantState.t * ParticipantMsg.t))
         (shares : list (list Scalar))
         (cmsg : CoordinatorMsg.t) dkg_c (eq_c : bytes)
         (enc_secshares : list Scalar)
         (idx : nat) (input : Input.t)
         (state : ParticipantState.t) (pmsg : ParticipantMsg.t),
    dh_commutes P ->
    core_stores_threshold C ->
    own_keys inputs enckeys ->
    step1_outputs inputs enckeys t outputs ->
    step1_shares inputs enckeys t shares ->
    coordinator_step (map snd outputs) t enckeys
    = Ok (cmsg, dkg_c, eq_c, enc_secshares) ->
    nth_error inputs idx = Some input ->
    nth_error outputs idx = Some (state, pmsg) ->
    exists enc_secshare,
      nth_error enc_secshares idx = Some enc_secshare /\
      participant_step2 state (Input.deckey input) cmsg enc_secshare =
      ('(dkg_output, eq_input) <-
         simpl_participant_step2
           (ParticipantState.simpl_state state)
           (CoordinatorMsg.simpl_cmsg cmsg)
           (Scalar_sum (column idx shares)) ;;
       Ok (dkg_output,
           eq_input ++ (join enckeys
                        ++ join (map ParticipantMsg.pubnonce
                                     (map snd outputs))))).
Proof.
  intros inputs enckeys t outputs shares cmsg dkg_c eq_c enc_secshares
         idx input state pmsg Hdh Hthreshold [Hn_keys Hown] [Hn_out Hstep1]
         [Hn_shares Hdealt] Hcoord Hinput Houtput.
  assert (Hidx : (idx < length inputs)%nat)
    by (apply nth_error_Some; congruence).
  (* the coordinator *)
  apply coordinator_step_inv in Hcoord.
  destruct Hcoord as (_ & _ & simpl_cmsg & core_eq & _ & -> & _ & ->).
  set (pmsgs := map snd outputs).
  exists (Scalar_sum (column idx (map ParticipantMsg.enc_shares pmsgs))).
  split.
  { unfold range. rewrite nth_error_map, nth_error_seq.
    destruct (Nat.ltb_spec idx (length enckeys)) as [_|Hge]; [|lia].
    reflexivity. }
  (* this participant's step 1 *)
  pose proof (Hstep1 idx input (state, pmsg) Hinput Houtput) as Hmine.
  apply participant_step1_inv in Hmine.
  destruct Hmine as (enc_context & pubnonce & simpl_state & simpl_pmsg
                     & mine & enc_shares & _ & _ & Hctx & Hnonce & Hcore
                     & _ & _ & -> & ->).
  (* one party per participant *)
  destruct (list_choice
              (fun i (x : Input.t) (p : Party.t) =>
                 Party.deckey p = Input.deckey x /\
                 nth_error enckeys i = Some (Party.enckey p) /\
                 valid_keys p /\
                 nth_error shares i = Some (Party.messages p) /\
                 exists output,
                   nth_error outputs i = Some output /\
                   ParticipantMsg.pubnonce (snd output) = Party.pubnonce p /\
                   encrypt_multi (Party.secnonce p) (Party.pubnonce p)
                                 (Party.deckey p) enckeys (Party.messages p)
                                 enc_context (Z.of_nat i)
                   = Ok (ParticipantMsg.enc_shares (snd output)))
              inputs) as [parties [Hn_parties Hparties]].
  { intros i x Hx.
    assert (Hi : (i < length inputs)%nat)
      by (apply nth_error_Some; congruence).
    destruct (nth_error outputs i) as [[state_i pmsg_i]|] eqn:Hout_i;
      [|apply nth_error_None in Hout_i; lia].
    destruct (nth_error enckeys i) as [enckey_i|] eqn:Hkey_i;
      [|apply nth_error_None in Hkey_i; lia].
    destruct (nth_error shares i) as [dealt_i|] eqn:Hshares_i;
      [|apply nth_error_None in Hshares_i; lia].
    pose proof (Hstep1 i x _ Hx Hout_i) as Hrun.
    apply participant_step1_inv in Hrun.
    destruct Hrun as (enc_context_i & pubnonce_i & simpl_state_i
                      & simpl_pmsg_i & shares_i & enc_shares_i & _ & _
                      & Hctx_i & Hnonce_i & Hcore_i & _ & Henc_i & -> & ->).
    rewrite Hctx in Hctx_i. injection Hctx_i as <-.
    pose proof (dealt_shares_of_step1 x enckeys t (Z.of_nat i) enc_context
                  pubnonce_i simpl_state_i simpl_pmsg_i shares_i dealt_i
                  Hctx Hnonce_i Hcore_i (Hdealt i x dealt_i Hx Hshares_i))
      as ->.
    exists (Party.mk (Input.deckey x) enckey_i
                     (prf (Input.seed x) "encpodpop secnonce"
                          (Input.random x ++ enc_context))
                     pubnonce_i shares_i).
    cbn [Party.deckey Party.enckey Party.secnonce Party.pubnonce
         Party.messages].
    repeat split; try reflexivity.
    - exact (Hown i x enckey_i Hx Hkey_i).
    - exact Hnonce_i.
    - eexists. split; [reflexivity|]. split; [reflexivity|exact Henc_i]. }
  destruct (nth_error parties idx) as [me|] eqn:Hme;
    [|apply nth_error_None in Hme; lia].
  destruct (Hparties idx input me Hinput Hme)
    as (Hme_deckey & Hme_enckey & Hme_valid & Hme_shares & output
        & Hme_output & Hme_pubnonce & _).
  rewrite Houtput in Hme_output. injection Hme_output as <-.
  cbn [snd ParticipantMsg.pubnonce] in Hme_pubnonce.
  (* the lists of the session, read off the parties *)
  assert (Hkeys : map Party.enckey parties = enckeys).
  { rewrite <- (map_id enckeys).
    apply map_eq_pointwise; [congruence|].
    intros i p enckey Hp Hkey.
    destruct (nth_error inputs i) as [x|] eqn:Hx;
      [|apply nth_error_None in Hx;
        assert (i < length parties)%nat by (apply nth_error_Some; congruence);
        lia].
    destruct (Hparties i x p Hx Hp) as (_ & Hkey' & _). congruence. }
  assert (Hnonces : map Party.pubnonce parties
                    = map ParticipantMsg.pubnonce pmsgs).
  { unfold pmsgs. rewrite map_map.
    apply map_eq_pointwise; [congruence|].
    intros i p output Hp Hout.
    destruct (nth_error inputs i) as [x|] eqn:Hx;
      [|apply nth_error_None in Hx;
        assert (i < length parties)%nat by (apply nth_error_Some; congruence);
        lia].
    destruct (Hparties i x p Hx Hp) as (_ & _ & _ & _ & output' & Hout' & Hpub & _).
    congruence. }
  assert (Hmessages : map Party.messages parties = shares).
  { rewrite <- (map_id shares).
    apply map_eq_pointwise; [congruence|].
    intros i p dealt Hp Hdealt_i.
    destruct (nth_error inputs i) as [x|] eqn:Hx;
      [|apply nth_error_None in Hx;
        assert (i < length parties)%nat by (apply nth_error_Some; congruence);
        lia].
    destruct (Hparties i x p Hx Hp) as (_ & _ & _ & Hsh & _). congruence. }
  assert (Hvalid : Forall valid_keys parties).
  { apply Forall_forall. intros p Hin.
    apply In_nth_error in Hin. destruct Hin as [i Hp].
    destruct (nth_error inputs i) as [x|] eqn:Hx;
      [|apply nth_error_None in Hx;
        assert (i < length parties)%nat by (apply nth_error_Some; congruence);
        lia].
    destruct (Hparties i x p Hx Hp) as (_ & _ & Hv & _). exact Hv. }
  assert (Hencrypted :
            encrypted_by parties enc_context
                         (map ParticipantMsg.enc_shares pmsgs)).
  { split; [unfold pmsgs; rewrite !length_map; congruence|].
    intros i p c Hp Hc. rewrite Hkeys.
    destruct (nth_error inputs i) as [x|] eqn:Hx;
      [|apply nth_error_None in Hx;
        assert (i < length parties)%nat by (apply nth_error_Some; congruence);
        lia].
    destruct (Hparties i x p Hx Hp)
      as (_ & _ & _ & _ & output & Hout & _ & Henc).
    unfold pmsgs in Hc. rewrite map_map, nth_error_map, Hout in Hc.
    injection Hc as <-. exact Henc. }
  pose proof (decrypt_sum_encrypted_by parties enc_context
                (map ParticipantMsg.enc_shares pmsgs) idx me
                Hdh Hvalid Hencrypted Hme) as Hdecrypt.
  rewrite Hnonces, Hmessages, Hme_deckey in Hdecrypt.
  (* step 2 *)
  unfold participant_step2.
  cbn [CoordinatorMsg.simpl_cmsg ParticipantState.simpl_state].
  rewrite (py_index_nat (map ParticipantMsg.pubnonce pmsgs) idx pubnonce).
  - cbn [bind].
    destruct (bytes_eq_dec pubnonce pubnonce) as [_|Hne]; [|contradiction].
    rewrite (Hthreshold _ _ _ _ _ _ _ Hcore), Hctx. cbn [bind].
    rewrite (py_index_nat enckeys idx (Party.enckey me) Hme_enckey).
    cbn [bind]. rewrite Hdecrypt. reflexivity.
  - unfold pmsgs. rewrite map_map, nth_error_map, Houtput. reflexivity.
Qed.

(** ** The older variant: round 1 *)

Section ReferenceRound1.
Context {P : Primitives} {C : SimplPedPop}.

Lemma Forall2_seq {B} (R : nat -> B -> Prop) (k m : nat) (ys : list B) :
  Forall2 R (seq k m) ys <->
  length ys = m /\
  forall j y, nth_error ys j = Some y -> R (k + j)%nat y.
Proof.
  revert k ys. induction m as [|m IH]; intros k ys; cbn [seq].
  - split.
    + intros H. inversion H. split; [reflexivity|].
      intros [|j] y Hy; discriminate.
    + intros [Hlen _]. destruct ys; [constructor|discriminate].
  - split.
    + intros H. inversion H as [|i y l ys' Hy Hys]. subst.
      apply IH in Hys. destruct Hys as [Hlen Hnth].
      split; [simpl; congruence|].
      intros [|j] y' Hy'; simpl in Hy'.
      * injection Hy' as <-. rewrite Nat.add_0_r. exact Hy.
      * rewrite Nat.add_succ_r. apply (Hnth j). exact Hy'.
    + intros [Hlen Hnth]. destruct ys as [|y ys]; [discriminate|].
      constructor.
      * specialize (Hnth 0%nat y eq_refl).
        rewrite Nat.add_0_r in Hnth. exact Hnth.
      * apply IH. split; [simpl in Hlen; congruence|].
        intros j y' Hy'. specialize (Hnth (S j) y' Hy').
        rewrite Nat.add_succ_r in Hnth. exact Hnth.
Qed.

Lemma reference_ecdh_Ok deckey enckey context pad :
  Reference.ecdh deckey enckey context = Ok pad ->
  exists point,
    ecdh_raw deckey enckey = Some point /\
    pad = mkScalar
            (int_from_bytes
               (tagged_hash_bip_dkg
                  "ECDH" (to_bytes_compressed point ++ context))).
Proof.
  unfold Reference.ecdh.
  destruct (ecdh_raw deckey enckey) as [point|]; [|discriminate].
  cbn. intros H. injection H as <-. eauto.
Qed.

(** The encrypted shares that the loop of [signer_round1] returns. *)
Lemma reference_enc_shares_inv deckey enckeys shares enc_context idx n
      enc_shares :
  py_for
    (fun enc_shares i =>
       if Z.of_nat i =? idx then Ok (enc_shares ++ [mkScalar 0])
       else
         enc_share <-
           Reference.except_ValueError
             (share <- py_index shares (Z.of_nat i) ;;
              enckey <- py_index enckeys (Z.of_nat i) ;;
              Reference.encrypt share deckey enckey enc_context)
             (InvalidContributionError
                (Some i) "Participant sent invalid encryption key") ;;
         Ok (enc_shares ++ [enc_share]))
    (range n) [] = Ok enc_shares ->
  length enc_shares = n /\
  forall i enc_share,
    nth_error enc_shares i = Some enc_share ->
    (Z.of_nat i = idx -> enc_share = 0) /\
    (Z.of_nat i <> idx ->
     exists share enckey pad,
       nth_error shares i = Some share /\
       nth_error enckeys i = Some enckey /\
       Reference.ecdh deckey enckey enc_context = Ok pad /\
       enc_share = scalar_add share pad).
Proof.
  intros H.
  rewrite (py_for_append _
             (fun i =>
                if Z.of_nat i =? idx then Ok (mkScalar 0)
                else
                  Reference.except_ValueError
                    (share <- py_index shares (Z.of_nat i) ;;
                     enckey <- py_index enckeys (Z.of_nat i) ;;
                     Reference.encrypt share deckey enckey enc_context)
                    (InvalidContributionError
                       (Some i) "Participant sent invalid encryption key")))
    in H.
  2:{ intros acc i. destruct (Z.of_nat i =? idx); reflexivity. }
  apply bind_Ok in H. destruct H as [new [Hnew H]].
  cbn [app] in H. injection H as <-.
  apply py_listcomp_Ok in Hnew. unfold range in Hnew.
  apply Forall2_seq in Hnew. destruct Hnew as [Hlen Hnth].
  split; [exact Hlen|].
  intros i enc_share Hi. specialize (Hnth i enc_share Hi).
  cbn [Nat.add] in Hnth.
  destruct (Z.of_nat i =? idx) eqn:Hself.
  - apply Z.eqb_eq in Hself. injection Hnth as <-.
    split; [reflexivity|contradiction].
  - apply Z.eqb_neq in Hself. split; [contradiction|]. intros _.
    unfold Reference.except_ValueError in Hnth.
    destruct (py_index shares (Z.of_nat i)) as [share|e] eqn:Hshare;
      [|destruct e; discriminate].
    destruct (py_index enckeys (Z.of_nat i)) as [enckey|e] eqn:Hkey;
      [|destruct e; discriminate].
    cbn [bind] in Hnth. unfold Reference.encrypt in Hnth.
    destruct (Reference.ecdh deckey enckey enc_context) as [pad|e] eqn:Hpad;
      [|destruct e; discriminate].
    cbn [bind] in Hnth. injection Hnth as <-.
    apply py_index_Ok in Hshare; [|lia]. apply py_index_Ok in Hkey; [|lia].
    rewrite Nat2Z.id in Hshare, Hkey.
    exists share, enckey, pad. auto.
Qed.

(** Everything a returning [signer_round1] has computed. *)
Lemma reference_signer_round1_inv seed t n deckey enckeys idx state1 uni1 :
  Reference.signer_round1 seed t n deckey enckeys idx = Ok (state1, uni1) ->
  exists t_bytes simpl_state simpl_uni1 shares enc_shares self_share,
    to_bytes4 t = Ok t_bytes /\
    simpl_signer_round1
      (tagged_hash_bip_dkg
         "EncPedPop seed" (seed ++ (t_bytes ++ join enckeys)))
      t (length enckeys) idx = Ok (simpl_state, simpl_uni1, shares) /\
    length shares = length enckeys /\
    length enc_shares = length enckeys /\
    (forall i enc_share,
        nth_error enc_shares i = Some enc_share ->
        (Z.of_nat i = idx -> enc_share = 0) /\
        (Z.of_nat i <> idx ->
         exists share enckey pad,
           nth_error shares i = Some share /\
           nth_error enckeys i = Some enckey /\
           Reference.ecdh deckey enckey (t_bytes ++ join enckeys) = Ok pad /\
           enc_share = scalar_add share pad)) /\
    py_index shares idx = Ok self_share /\
    state1 = Reference.SignerState1.mk
               t deckey enckeys idx self_share simpl_state /\
    uni1 = Reference.Unicast1.mk simpl_uni1 enc_shares.
Proof.
  unfold Reference.signer_round1. intros H.
  apply bind_Ok in H. destruct H as [[] [_ H]].
  apply bind_Ok in H. destruct H as [t_bytes [Hbytes H]].
  apply bind_Ok in H.
  destruct H as [[[simpl_state simpl_uni1] shares] [Hcore H]].
  apply bind_Ok in H. destruct H as [[] [Hlen H]].
  apply bind_Ok in H. destruct H as [enc_shares [Hloop H]].
  apply bind_Ok in H. destruct H as [self_share [Hself H]].
  injection H as <- <-.
  unfold py_assert in Hlen.
  destruct (Nat.eqb (length shares) (length enckeys)) eqn:Hlen';
    [|discriminate].
  apply Nat.eqb_eq in Hlen'.
  apply reference_enc_shares_inv in Hloop. destruct Hloop as [Hn Hnth].
  exists t_bytes, simpl_state, simpl_uni1, shares, enc_shares, self_share.
  auto 10.
Qed.
End ReferenceRound1.

(** X12. When the older [signer_round1] returns, the message holds one
    entry per encryption key, the entry at the signer's own position is
    the scalar 0, every other key decodes, the share kept in the state
    is the core's share for the signer itself, and the state stores the
    threshold, the decryption key, the keys and the index. *)
Theorem reference_signer_round1_returns_shape
        {P : Primitives} {C : SimplPedPop} :
  forall (seed : bytes) (t : Z) (n : nat) (deckey : bytes)
         (enckeys : list bytes) (idx : Z) state1 uni1,
    Reference.signer_round1 seed t n deckey enckeys idx = Ok (state1, uni1) ->
    length (Reference.Unicast1.enc_shares uni1) = length enckeys /\
    (forall i, Z.of_nat i = idx -> (i < length enckeys)%nat ->
               nth_error (Reference.Unicast1.enc_shares uni1) i = Some 0) /\
    (forall i enckey, nth_error enckeys i = Some enckey ->
                      Z.of_nat i <> idx ->
                      ecdh_raw deckey enckey <> None) /\
    Reference.SignerState1.t_ state1 = t /\
    Reference.SignerState1.deckey state1 = deckey /\
    Reference.SignerState1.enckeys state1 = enckeys /\
    Reference.SignerState1.idx state1 = idx /\
    exists t_bytes simpl_uni1 shares,
      to_bytes4 t = Ok t_bytes /\
      simpl_signer_round1
        (tagged_hash_bip_dkg
           "EncPedPop seed" (seed ++ (t_bytes ++ join enckeys)))
        t (length enckeys) idx
      = Ok (Reference.SignerState1.simpl_state state1, simpl_uni1, shares) /\
      py_index shares idx = Ok (Reference.SignerState1.self_share state1).
Proof.
  intros seed t n deckey enckeys idx state1 uni1 H.
  apply reference_signer_round1_inv in H.
  destruct H as (t_bytes & simpl_state & simpl_uni1 & shares & enc_shares
                 & self_share & Hbytes & Hcore & Hlen & Hn & Hnth & Hself
                 & -> & ->).
  cbn [Reference.Unicast1.enc_shares Reference.SignerState1.t_
       Reference.SignerState1.deckey Reference.SignerState1.enckeys
       Reference.SignerState1.idx Reference.SignerState1.simpl_state
       Reference.SignerState1.self_share].
  split; [exact Hn|]. split; [|split].
  - intros i Hi Hlt.
    destruct (nth_error enc_shares i) as [enc_share|] eqn:Hshare;
      [|apply nth_error_None in Hshare; lia].
    destruct (Hnth i enc_share Hshare) as [Hzero _].
    transitivity (Some enc_share); [exact Hshare|].
    f_equal. exact (Hzero Hi).
  - intros i enckey Hkey Hother Hnone.
    assert (Hlt : (i < length enckeys)%nat)
      by (apply nth_error_Some; congruence).
    destruct (nth_error enc_shares i) as [enc_share|] eqn:Hshare;
      [|apply nth_error_None in Hshare; lia].
    destruct (Hnth i enc_share Hshare) as [_ Hpad].
    destruct (Hpad Hother) as (share & enckey' & pad & _ & Hkey' & Hecdh & _).
    rewrite Hkey in Hkey'. injection Hkey' as <-.
    apply reference_ecdh_Ok in Hecdh. destruct Hecdh as [point [Hraw _]].
    congruence.
  - repeat split. exists t_bytes, simpl_uni1, shares. auto.
Qed.

(** ** The older variant: decryption *)

Section ReferenceDecrypt.
Context {P : Primitives}.

Lemma reference_pad_Ok deckey enckeys context i enckey point :
  nth_error enckeys i = Some enckey ->
  ecdh_raw deckey enckey = Some point ->
  Reference.ecdh deckey enckey context
  = Ok (reference_pad deckey enckeys context i).
Proof.
  intros Hkey Hraw. unfold reference_pad.
  assert (E : nth i enckeys [] = enckey)
    by (apply nth_error_nth; exact Hkey).
  rewrite E. unfold Reference.ecdh. rewrite Hraw. reflexivity.
Qed.

(** The loop of the older [decrypt_sum] from position [k] on, when the
    keys it uses decode. *)
Lemma reference_decrypt_loop deckey enckeys idx context (m k : nat)
      (acc : Scalar) :
  (k + m <= length enckeys)%nat ->
  (forall i enckey,
      (k <= i < k + m)%nat -> nth_error enckeys i = Some enckey ->
      Z.of_nat i <> idx -> ecdh_raw deckey enckey <> None) ->
  exists r,
    py_for
      (fun shares_sum i =>
         if negb (Z.of_nat i =? idx) then
           enckey <- py_index enckeys (Z.of_nat i) ;;
           pad <- Reference.ecdh deckey enckey context ;;
           Ok (scalar_sub shares_sum pad)
         else Ok shares_sum)
      (seq k m) acc = Ok r /\
    mkScalar r =
    mkScalar (acc - Zsum (map (fun i =>
                                 if Z.of_nat i =? idx then 0
                                 else reference_pad deckey enckeys context i)
                              (seq k m))) /\
    (mkScalar acc = acc -> mkScalar r = r).
Proof.
  revert k acc. induction m as [|m IH]; intros k acc Hlen Hkeys.
  - exists acc. cbn. rewrite Z.sub_0_r. auto.
  - cbn [seq py_for map]. rewrite Zsum_cons.
    destruct (Z.of_nat k =? idx) eqn:Hself; cbn [negb bind].
    + destruct (IH (S k) acc) as [r [Hrun [Hsum Hnorm]]].
      * lia.
      * intros i enckey Hi. apply Hkeys. lia.
      * exists r. split; [exact Hrun|]. split; [|exact Hnorm].
        rewrite Hsum. f_equal.
    + apply Z.eqb_neq in Hself.
      destruct (nth_error enckeys k) as [enckey|] eqn:Hkey;
        [|apply nth_error_None in Hkey; lia].
      destruct (ecdh_raw deckey enckey) as [point|] eqn:Hraw;
        [|exfalso; apply (Hkeys k enckey); [lia|exact Hkey|exact Hself
                                                |exact Hraw]].
      rewrite (py_index_nat _ _ _ Hkey). cbn [bind].
      rewrite (reference_pad_Ok deckey enckeys context k enckey point Hkey Hraw).
      cbn [bind].
      destruct (IH (S k)
                   (scalar_sub acc (reference_pad deckey enckeys context k)))
        as [r [Hrun [Hsum Hnorm]]].
      * lia.
      * intros i enckey' Hi. apply Hkeys. lia.
      * exists r. split; [exact Hrun|]. split.
        -- rewrite Hsum. unfold scalar_sub.
           set (rest := Zsum (map _ (seq (S k) m))).
           set (pad := reference_pad deckey enckeys context k).
           change (mkScalar (mkScalar (acc - pad) - rest)
                   = mkScalar (acc - (pad + rest))).
           rewrite Zminus_mod_idemp_l_scalar. f_equal. lia.
        -- intros _. apply Hnorm. unfold scalar_sub, mkScalar.
           apply Z.mod_mod, GROUP_ORDER_nonzero.
Qed.
End ReferenceDecrypt.

Section ReferenceDecryptErrors.
Context {P : Primitives}.

Lemma reference_decrypt_loop_Raise deckey enckeys idx context (m k : nat)
      (acc : Scalar) (e : exn) :
  (k + m <= length enckeys)%nat ->
  py_for
    (fun shares_sum i =>
       if negb (Z.of_nat i =? idx) then
         enckey <- py_index enckeys (Z.of_nat i) ;;
         pad <- Reference.ecdh deckey enckey context ;;
         Ok (scalar_sub shares_sum pad)
       else Ok shares_sum)
    (seq k m) acc = Raise e ->
  e = ValueError.
Proof.
  intros Hlen H. apply py_for_Raise in H.
  destruct H as [s [i [Hin H]]]. apply in_seq in Hin.
  destruct (Z.of_nat i =? idx); [discriminate|]. cbn [negb] in H.
  destruct (nth_error enckeys i) as [enckey|] eqn:Hkey;
    [|apply nth_error_None in Hkey; lia].
  rewrite (py_index_nat _ _ _ Hkey) in H. cbn [bind] in H.
  unfold Reference.ecdh in H.
  destruct (ecdh_raw deckey enckey); cbn in H; congruence.
Qed.

Lemma reference_decrypt_loop_Ok_inv deckey enckeys idx context (m k : nat)
      (acc r : Scalar) :
  py_for
    (fun shares_sum i =>
       if negb (Z.of_nat i =? idx) then
         enckey <- py_index enckeys (Z.of_nat i) ;;
         pad <- Reference.ecdh deckey enckey context ;;
         Ok (scalar_sub shares_sum pad)
       else Ok shares_sum)
    (seq k m) acc = Ok r ->
  forall i enckey,
    (k <= i < k + m)%nat -> nth_error enckeys i = Some enckey ->
    Z.of_nat i <> idx -> ecdh_raw deckey enckey <> None.
Proof.
  revert k acc. induction m as [|m IH]; intros k acc H i enckey Hi Hkey Hother.
  - lia.
  - cbn [seq py_for] in H. apply bind_Ok in H. destruct H as [acc' [Hk H]].
    destruct (Nat.eq_dec i k) as [->|Hne].
    + apply Z.eqb_neq in Hother. rewrite Hother in Hk. cbn [negb] in Hk.
      rewrite (py_index_nat _ _ _ Hkey) in Hk. cbn [bind] in Hk.
      unfold Reference.ecdh in Hk. intros Hnone. rewrite Hnone in Hk.
      discriminate.
    + apply (IH (S k) acc' H i enckey); [lia|exact Hkey|exact Hother].
Qed.
End ReferenceDecryptErrors.

(** X13. The older [decrypt_sum] skips the signer's own position and
    removes one pad for every other encryption key.  When all those
    keys decode it returns the ciphertext sum minus the pads (modulo
    the group order); when one of them does not, it raises the curve
    library's [ValueError], which nothing here turns into an
    [InvalidContributionError]. *)
Theorem reference_decrypt_sum_outcome {P : Primitives} :
  forall (ciphertext_sum : Scalar) (deckey : bytes) (enckeys : list bytes)
         (idx : Z) (context : bytes),
    ((forall i enckey,
         nth_error enckeys i = Some enckey -> Z.of_nat i <> idx ->
         ecdh_raw deckey enckey <> None) ->
     exists shares_sum,
       Reference.decrypt_sum ciphertext_sum deckey enckeys idx context
       = Ok shares_sum /\
       mkScalar shares_sum =
       mkScalar (ciphertext_sum
                 - Zsum (map (fun i =>
                                if Z.of_nat i =? idx then 0
                                else reference_pad deckey enckeys context i)
                             (range (length enckeys))))) /\
    ((exists i enckey,
         nth_error enckeys i = Some enckey /\ Z.of_nat i <> idx /\
         ecdh_raw deckey enckey = None) ->
     Reference.decrypt_sum ciphertext_sum deckey enckeys idx context
     = Raise ValueError).
Proof.
  intros ciphertext_sum deckey enckeys idx context. split.
  - intros Hkeys.
    destruct (reference_decrypt_loop deckey enckeys idx context
                (length enckeys) 0 ciphertext_sum) as [r [Hrun [Hsum _]]].
    + lia.
    + intros i enckey _. apply Hkeys.
    + exists r. split; [exact Hrun|exact Hsum].
  - intros [i [enckey [Hkey [Hother Hnone]]]].
    unfold Reference.decrypt_sum, range.
    destruct (py_for _ (seq 0 (length enckeys)) ciphertext_sum)
      as [r|e] eqn:Hrun.
    + exfalso.
      apply (reference_decrypt_loop_Ok_inv _ _ _ _ _ _ _ _ Hrun i enckey);
        try assumption.
      split; [lia|]. apply nth_error_Some. congruence.
    + apply reference_decrypt_loop_Raise in Hrun; [|lia].
      rewrite Hrun. reflexivity.
Qed.

(** X14. On a state that [signer_round1] returned, the decryption in
    [signer_pre_finalize] cannot fail, whatever the broadcast holds:
    the keys it needs were decoded in round 1.  The call hands the
    decrypted sum plus the signer's own share to the core and appends
    the encryption keys to the core's transcript, so its only
    exceptions are the core's. *)
Theorem reference_pre_finalize_after_round1
        {P : Primitives} {C : SimplPedPop} {F : SimplPreFinalize C} :
  forall (seed : bytes) (t : Z) (n : nat) (deckey : bytes)
         (enckeys : list bytes) (idx : Z) state1 uni1
         (broad1 : Reference.Broadcast1.t),
    Reference.signer_round1 seed t n deckey enckeys idx = Ok (state1, uni1) ->
    exists t_bytes shares_sum,
      to_bytes4 t = Ok t_bytes /\
      Reference.decrypt_sum (Reference.Broadcast1.enc_shares_sum broad1)
                            deckey enckeys idx (t_bytes ++ join enckeys)
      = Ok shares_sum /\
      Reference.signer_pre_finalize state1 broad1 =
      ('(eta, dkg_output) <-
         simpl_signer_pre_finalize
           (Reference.SignerState1.simpl_state state1)
           (Reference.Broadcast1.simpl_broad1 broad1)
           (scalar_add shares_sum
                       (Reference.SignerState1.self_share state1)) ;;
       Ok (eta ++ join enckeys, dkg_output)).
Proof.
  intros seed t n deckey enckeys idx state1 uni1 [simpl_broad1 enc_shares_sum]
         H.
  apply reference_signer_round1_inv in H.
  destruct H as (t_bytes & simpl_state & simpl_uni1 & shares & enc_shares
                 & self_share & Hbytes & Hcore & Hlen & Hn & Hnth & Hself
                 & -> & ->).
  cbn [Reference.Broadcast1.enc_shares_sum Reference.Broadcast1.simpl_broad1
       Reference.SignerState1.simpl_state Reference.SignerState1.self_share].
  destruct (reference_decrypt_loop deckey enckeys idx (t_bytes ++ join enckeys)
              (length enckeys) 0 enc_shares_sum) as [r [Hrun _]].
  - lia.
  - intros i enckey [_ Hi] Hkey Hother Hnone.
    destruct (nth_error enc_shares i) as [enc_share|] eqn:Hshare;
      [|apply nth_error_None in Hshare; simpl in Hi; lia].
    destruct (Hnth i enc_share Hshare) as [_ Hpad].
    destruct (Hpad Hother) as (share & enckey' & pad & _ & Hkey' & Hecdh & _).
    rewrite Hkey in Hkey'. injection Hkey' as <-.
    apply reference_ecdh_Ok in Hecdh. destruct Hecdh as [point [Hraw _]].
    congruence.
  - exists t_bytes, r. split; [exact Hbytes|]. split; [exact Hrun|].
    unfold Reference.signer_pre_finalize. rewrite Hbytes. cbn [bind].
    unfold Reference.decrypt_sum, range in *. rewrite Hrun. reflexivity.
Qed.

(** ** The older variant: a whole session *)

Section ReferenceSession.
Context {P : Primitives} {C : SimplPedPop}.

Lemma Zsum_map_add {A} (f g : A -> Z) (xs : list A) :
  Zsum (map (fun x => f x + g x) xs) = Zsum (map f xs) + Zsum (map g xs).
Proof.
  induction xs as [|x xs IH]; cbn [map].
  - reflexivity.
  - rewrite !Zsum_cons, IH. lia.
Qed.

Lemma mkScalar_Zsum_map_congr {A} (f g : A -> Z) (xs : list A) :
  (forall x, In x xs -> mkScalar (f x) = mkScalar (g x)) ->
  mkScalar (Zsum (map f xs)) = mkScalar (Zsum (map g xs)).
Proof.
  induction xs as [|x xs IH]; intros H; cbn [map].
  - reflexivity.
  - rewrite !Zsum_cons. apply mkScalar_add_congr.
    + apply H. left. reflexivity.
    + apply IH. intros y Hy. apply H. right. exact Hy.
Qed.

Lemma Zsum_skip (f : nat -> Z) (idx m k : nat) :
  Zsum (map (fun j => if Z.of_nat j =? Z.of_nat idx then 0 else f j)
            (seq k m))
  + (if (k <=? idx)%nat && (idx <? k + m)%nat then f idx else 0)
  = Zsum (map f (seq k m)).
Proof.
  revert k. induction m as [|m IH]; intros k.
  - cbn [seq map].
    destruct (Nat.leb_spec k idx); destruct (Nat.ltb_spec idx (k + 0));
      cbn; lia.
  - cbn [seq map]. rewrite !Zsum_cons, <- (IH (S k)).
    destruct (Z.of_nat k =? Z.of_nat idx) eqn:Hk.
    + apply Z.eqb_eq, Nat2Z.inj in Hk. subst k.
      replace (idx <=? idx)%nat with true by (symmetry; apply Nat.leb_le; lia).
      replace (idx <? idx + S m)%nat with true
        by (symmetry; apply Nat.ltb_lt; lia).
      replace (S idx <=? idx)%nat with false
        by (symmetry; apply Nat.leb_gt; lia).
      cbn [andb]. lia.
    + apply Z.eqb_neq in Hk.
      assert (Hne : k <> idx) by (intros ->; apply Hk; reflexivity).
      assert (E : ((k <=? idx)%nat && (idx <? k + S m)%nat)
                  = ((S k <=? idx)%nat && (idx <? S k + m)%nat)).
      { destruct (Nat.leb_spec k idx); destruct (Nat.leb_spec (S k) idx);
          destruct (Nat.ltb_spec idx (k + S m));
          destruct (Nat.ltb_spec idx (S k + m)); try reflexivity; lia. }
      rewrite E. lia.
Qed.

Lemma column_seq (i : nat) (vectors : list (list Scalar)) :
  column i vectors
  = map (fun j => nth i (nth j vectors []) 0) (seq 0 (length vectors)).
Proof.
  unfold column. induction vectors as [|v vectors IH].
  - reflexivity.
  - cbn [length seq map nth]. f_equal.
    rewrite <- seq_shift, map_map. exact IH.
Qed.

Lemma reference_total (r acc ciphertexts pads others own all : Z) :
  mkScalar r = mkScalar (acc - pads) ->
  acc = mkScalar ciphertexts ->
  mkScalar ciphertexts = mkScalar (others + pads) ->
  others + own = all ->
  scalar_add r own = mkScalar all.
Proof.
  intros Hr -> Hc <-. unfold scalar_add.
  rewrite <- mkScalar_add_l, Hr, Hc, Zminus_mod_idemp_l_scalar, mkScalar_add_l.
  f_equal. lia.
Qed.

Lemma reference_dealt_shares_of_round1 seed enckeys t idx t_bytes
      simpl_state simpl_uni1 shares dealt :
  to_bytes4 t = Ok t_bytes ->
  simpl_signer_round1
    (tagged_hash_bip_dkg "EncPedPop seed" (seed ++ (t_bytes ++ join enckeys)))
    t (length enckeys) idx = Ok (simpl_state, simpl_uni1, shares) ->
  reference_dealt_shares seed enckeys t idx = Ok dealt ->
  dealt = shares.
Proof.
  intros Hbytes Hcore. unfold reference_dealt_shares.
  rewrite Hbytes. cbn [bind]. rewrite Hcore. cbn [bind]. congruence.
Qed.
End ReferenceSession.

(** X15. A whole session of the older variant.  Any two signers share
    their Diffie-Hellman secret, every signer [j] has run
    [signer_round1] with the same threshold and keys, and the broadcast
    to signer [idx] carries the sum of the entries at position [idx] of
    all signers' encrypted shares.  Then [signer_pre_finalize] of signer
    [idx] calls the core with the sum of the shares that all signers'
    cores dealt to [idx], its own included, and returns the core's
    output with the encryption keys appended to the transcript. *)
Theorem reference_session_receives_sum_of_shares
        {P : Primitives} {C : SimplPedPop} {F : SimplPreFinalize C} :
  forall (signers : list SignerInput.t) (enckeys : list bytes) (t : Z)
         (outputs : list (Reference.SignerState1.t * Reference.Unicast1.t))
         (shares : list (list Scalar))
         (idx : nat) (signer : SignerInput.t)
         state1 uni1 (simpl_broad1 : simpl_Broadcast1),
    pairwise_shared_secrets signers enckeys ->
    round1_outputs signers enckeys t outputs ->
    round1_shares signers enckeys t shares ->
    nth_error signers idx = Some signer ->
    nth_error outputs idx = Some (state1, uni1) ->
    Reference.signer_pre_finalize
      state1
      (Reference.Broadcast1.mk
         simpl_broad1
         (Scalar_sum
            (column idx
                    (map Reference.Unicast1.enc_shares (map snd outputs)))))
    = ('(eta, dkg_output) <-
         simpl_signer_pre_finalize
           (Reference.SignerState1.simpl_state state1) simpl_broad1
           (Scalar_sum (column idx shares)) ;;
       Ok (eta ++ join enckeys, dkg_output)).
Proof.
  intros signers enckeys t outputs shares idx signer state1 uni1 simpl_broad1
         [Hn_keys Hshared] [Hn_out Hround1] [Hn_shares Hdealt] Hsigner Houtput.
  assert (Hidx : (idx < length signers)%nat)
    by (apply nth_error_Some; congruence).
  set (ciphertexts := map Reference.Unicast1.enc_shares (map snd outputs)).
  assert (Hn_ct : length ciphertexts = length signers)
    by (unfold ciphertexts; rewrite !length_map; exact Hn_out).
  (* round 1 of this signer *)
  pose proof (Hround1 idx signer _ Hsigner Houtput) as Hmine.
  apply reference_signer_round1_inv in Hmine.
  destruct Hmine as (t_bytes & simpl_state & simpl_uni1 & mine & enc_mine
                     & self_share & Hbytes & Hcore & Hlen & Hn & Hnth & Hself
                     & -> & ->).
  destruct (nth_error enckeys idx) as [my_enckey|] eqn:Hmykey;
    [|apply nth_error_None in Hmykey; lia].
  destruct (nth_error shares idx) as [my_dealt|] eqn:Hmydealt;
    [|apply nth_error_None in Hmydealt; lia].
  pose proof (reference_dealt_shares_of_round1 _ _ _ _ _ _ _ _ _ Hbytes Hcore
                (Hdealt idx signer my_dealt Hsigner Hmydealt)) as ->.
  (* the loop of decrypt_sum *)
  destruct (reference_decrypt_loop
              (SignerInput.deckey signer) enckeys (Z.of_nat idx)
              (t_bytes ++ join enckeys) (length enckeys) 0
              (Scalar_sum (column idx ciphertexts))) as [r [Hrun [Hr _]]].
  { lia. }
  { intros i enckey [_ Hi] Hkey Hother Hnone.
    destruct (nth_error enc_mine i) as [enc_share|] eqn:Hshare;
      [|apply nth_error_None in Hshare; simpl in Hi; lia].
    destruct (Hnth i enc_share Hshare) as [_ Hpad].
    destruct (Hpad Hother) as (share & enckey' & pad & _ & Hkey' & Hecdh & _).
    rewrite Hkey in Hkey'. injection Hkey' as <-.
    apply reference_ecdh_Ok in Hecdh. destruct Hecdh as [point [Hraw _]].
    congruence. }
  unfold Reference.signer_pre_finalize.
  cbn [Reference.SignerState1.simpl_state].
  rewrite Hbytes. cbn [bind].
  unfold Reference.decrypt_sum, range. rewrite Hrun. cbn [bind].
  (* the total share *)
  replace (scalar_add r self_share) with (Scalar_sum (column idx shares));
    [reflexivity|].
  symmetry. rewrite (Scalar_sum_Zsum (column idx shares)).
  apply (reference_total r (Scalar_sum (column idx ciphertexts))
           (Zsum (column idx ciphertexts))
           (Zsum (map (fun i =>
                         if Z.of_nat i =? Z.of_nat idx then 0
                         else reference_pad (SignerInput.deckey signer)
                                            enckeys (t_bytes ++ join enckeys) i)
                      (seq 0 (length enckeys))))
           (Zsum (map (fun j =>
                         if Z.of_nat j =? Z.of_nat idx then 0
                         else nth idx (nth j shares []) 0)
                      (seq 0 (length enckeys))))).
  - exact Hr.
  - apply Scalar_sum_Zsum.
  - rewrite column_seq, Hn_ct, <- Hn_keys, <- Zsum_map_add.
    apply mkScalar_Zsum_map_congr. intros j Hj. apply in_seq in Hj.
    destruct (nth_error signers j) as [sender|] eqn:Hsender;
      [|apply nth_error_None in Hsender; lia].
    destruct (nth_error outputs j) as [[state_j uni_j]|] eqn:Hout_j;
      [|apply nth_error_None in Hout_j; lia].
    destruct (nth_error enckeys j) as [enckey_j|] eqn:Hkey_j;
      [|apply nth_error_None in Hkey_j; lia].
    destruct (nth_error shares j) as [dealt_j|] eqn:Hdealt_j;
      [|apply nth_error_None in Hdealt_j; lia].
    pose proof (Hround1 j sender _ Hsender Hout_j) as Hrun_j.
    apply reference_signer_round1_inv in Hrun_j.
    destruct Hrun_j as (t_bytes_j & simpl_state_j & simpl_uni1_j & shares_j
                        & enc_j & self_j & Hbytes_j & Hcore_j & Hlen_j & Hn_j
                        & Hnth_j & _ & _ & ->).
    rewrite Hbytes in Hbytes_j. injection Hbytes_j as <-.
    pose proof (reference_dealt_shares_of_round1 _ _ _ _ _ _ _ _ _
                  Hbytes Hcore_j (Hdealt j sender dealt_j Hsender Hdealt_j))
      as ->.
    assert (Hct : nth j ciphertexts [] = enc_j).
    { apply nth_error_nth. unfold ciphertexts.
      rewrite map_map, nth_error_map, Hout_j. reflexivity. }
    assert (Hsh : nth j shares [] = shares_j)
      by (apply nth_error_nth; exact Hdealt_j).
    unfold Scalar in *. rewrite Hct, Hsh.
    destruct (nth_error enc_j idx) as [enc_share|] eqn:Hshare;
      [|apply nth_error_None in Hshare; lia].
    assert (Henc : nth idx enc_j 0 = enc_share)
      by (apply nth_error_nth; exact Hshare).
    rewrite Henc.
    destruct (Hnth_j idx enc_share Hshare) as [Hzero Hpad].
    destruct (Z.of_nat j =? Z.of_nat idx) eqn:Hsame.
    + apply Z.eqb_eq in Hsame. rewrite (Hzero (eq_sym Hsame)). reflexivity.
    + apply Z.eqb_neq in Hsame.
      destruct (Hpad (fun E => Hsame (eq_sym E)))
        as (share & enckey' & pad & Hshare_j & Hkey' & Hecdh & ->).
      rewrite Hmykey in Hkey'. injection Hkey' as <-.
      assert (Hsh_idx : nth idx shares_j 0 = share)
        by (apply nth_error_nth; exact Hshare_j).
      rewrite Hsh_idx.
      apply reference_ecdh_Ok in Hecdh. destruct Hecdh as [point [Hraw Hpad_eq]].
      rewrite (Hshared j idx sender signer enckey_j my_enckey
                 Hsender Hsigner Hkey_j Hmykey) in Hraw.
      pose proof (reference_pad_Ok (SignerInput.deckey signer) enckeys
                    (t_bytes ++ join enckeys) j enckey_j point Hkey_j Hraw)
        as Hmine.
      unfold Reference.ecdh in Hmine. rewrite Hraw in Hmine.
      cbn in Hmine. injection Hmine as Hmine.
      rewrite <- Hmine, <- Hpad_eq. unfold scalar_add.
      apply mkScalar_idem.
  - rewrite column_seq, Hn_shares, <- Hn_keys. unfold Scalar in *.
    pose proof (Zsum_skip (fun j => nth idx (nth j shares []) 0)
                  idx (length enckeys) 0) as Hskip.
    replace ((0 <=? idx)%nat && (idx <? 0 + length enckeys)%nat) with true
      in Hskip
      by (symmetry; apply andb_true_iff; split;
          [apply Nat.leb_le|apply Nat.ltb_lt]; lia).
    rewrite <- Hskip. f_equal.
    assert (Hsh : nth idx shares [] = mine)
      by (apply nth_error_nth; exact Hmydealt).
    rewrite Hsh. apply py_index_Ok in Hself; [|lia].
    rewrite Nat2Z.id in Hself. symmetry. apply nth_error_nth. exact Hself.
Qed.

(** ** Decryption: when it returns and how it fails *)

Section DecryptOutcome.
Context {P : Primitives}.

Lemma decrypt_loop_returns deckey enckey context_ idx pubnonces (k : nat)
      (acc : Scalar) :
  curve_laws P ->
  pubkey_gen_plain deckey = Some enckey ->
  (forall i pubnonce,
      nth_error pubnonces i = Some pubnonce -> Z.of_nat (k + i) <> idx ->
      exists secnonce, pubkey_gen_plain secnonce = Some pubnonce) ->
  exists r,
    py_for
      (fun sum_plaintexts '(i, pubnonce) =>
         pad <- decaps_pad deckey enckey context_ idx i pubnonce ;;
         Ok (scalar_sub sum_plaintexts pad))
      (enumerate_from k pubnonces) acc = Ok r.
Proof.
  intros L Hkey. revert k acc.
  induction pubnonces as [|pubnonce pubnonces IH]; intros k acc Hnonces.
  - exists acc. reflexivity.
  - cbn [enumerate_from py_for].
    assert (Hpad : exists pad,
               decaps_pad deckey enckey context_ idx k pubnonce = Ok pad).
    { unfold decaps_pad. destruct (Z.of_nat k =? idx) eqn:Hself.
      - eauto.
      - apply Z.eqb_neq in Hself.
        destruct (Hnonces 0%nat pubnonce eq_refl) as [secnonce Hsecnonce].
        + rewrite Nat.add_0_r. exact Hself.
        + apply (ecdh_defined deckey enckey secnonce pubnonce _ false
                   L Hkey Hsecnonce). }
    destruct Hpad as [pad Hpad]. rewrite Hpad. cbn [bind].
    apply IH. intros i pubnonce' Hnth Hother.
    apply (Hnonces (S i) pubnonce' Hnth).
    rewrite Nat.add_succ_r. exact Hother.
Qed.

Lemma decrypt_loop_Ok_inv deckey enckey context_ idx pubnonces (k : nat)
      (acc r : Scalar) :
  py_for
    (fun sum_plaintexts '(i, pubnonce) =>
       pad <- decaps_pad deckey enckey context_ idx i pubnonce ;;
       Ok (scalar_sub sum_plaintexts pad))
    (enumerate_from k pubnonces) acc = Ok r ->
  forall i pubnonce,
    nth_error pubnonces i = Some pubnonce -> Z.of_nat (k + i) <> idx ->
    ecdh_libsecp256k1 deckey pubnonce <> None.
Proof.
  revert k acc.
  induction pubnonces as [|first pubnonces IH];
    intros k acc H i pubnonce Hnth Hother.
  - destruct i; discriminate Hnth.
  - cbn [enumerate_from py_for] in H.
    apply bind_Ok in H. destruct H as [acc' [Hfirst H]].
    destruct i as [|i]; simpl in Hnth.
    + injection Hnth as <-. rewrite Nat.add_0_r in Hother.
      apply Z.eqb_neq in Hother.
      apply bind_Ok in Hfirst. destruct Hfirst as [pad [Hpad _]].
      unfold decaps_pad in Hpad. rewrite Hother in Hpad.
      intros Hnone.
      rewrite (ecdh_undecodable _ _ _ _ _ Hnone) in Hpad. discriminate.
    + apply (IH (S k) acc' H i pubnonce Hnth).
      rewrite Nat.add_succ_r in Hother. exact Hother.
Qed.
End DecryptOutcome.

(** X16. [decrypt_sum] returns whenever the index is in range (and fits
    four bytes), the decryption key belongs to the given encryption
    key, and the public nonce of every other sender is a generated
    public key. *)
Theorem decrypt_sum_returns {P : Primitives} :
  forall (deckey enckey : bytes) (pubnonces : list bytes)
         (sum_ciphertexts : Scalar) (context : bytes) (idx : Z),
    curve_laws P ->
    pubkey_gen_plain deckey = Some enckey ->
    0 <= idx < Z.of_nat (length pubnonces) ->
    idx < 2 ^ 32 ->
    (forall i pubnonce,
        nth_error pubnonces i = Some pubnonce -> Z.of_nat i <> idx ->
        exists secnonce, pubkey_gen_plain secnonce = Some pubnonce) ->
    exists sum_plaintexts,
      decrypt_sum deckey enckey pubnonces sum_ciphertexts context idx
      = Ok sum_plaintexts.
Proof.
  intros deckey enckey pubnonces sum_ciphertexts context idx L Hkey
         Hrange Hsize Hnonces.
  rewrite decrypt_sum_in_range by lia.
  unfold to_bytes4.
  replace (0 <=? idx) with true by (symmetry; apply Z.leb_le; lia).
  replace (idx <? 2 ^ 32) with true by (symmetry; apply Z.ltb_lt; lia).
  cbn [andb bind]. unfold enumerate.
  apply decrypt_loop_returns; try assumption.
Qed.

(** X17. When the public nonce of some other sender does not decode,
    [decrypt_sum] (and with it step 2 of the participant) does not
    return, and the exception is the curve library's [ValueError], an
    [AssertionError] or an [OverflowError]: a malformed nonce relayed by
    the coordinator is not reported as an [InvalidContributionError]. *)
Theorem decrypt_sum_undecodable_pubnonce {P : Primitives} :
  forall (deckey enckey : bytes) (pubnonces : list bytes)
         (sum_ciphertexts : Scalar) (context : bytes) (idx : Z)
         (i : nat) (pubnonce : bytes),
    idx < Z.of_nat (length pubnonces) ->
    nth_error pubnonces i = Some pubnonce ->
    Z.of_nat i <> idx ->
    ecdh_libsecp256k1 deckey pubnonce = None ->
    exists e,
      decrypt_sum deckey enckey pubnonces sum_ciphertexts context idx
      = Raise e /\
      (e = ValueError \/ e = AssertionError \/ e = OverflowError) /\
      is_invalid_contribution e = false.
Proof.
  intros deckey enckey pubnonces sum_ciphertexts context idx i pubnonce
         Hrange Hnth Hother Hnone.
  rewrite decrypt_sum_in_range by exact Hrange.
  assert (Hcases :
            exists e,
              (index_bytes <- to_bytes4 idx ;;
               py_for
                 (fun sum_plaintexts '(i, pubnonce) =>
                    pad <- decaps_pad deckey enckey (index_bytes ++ context)
                                      idx i pubnonce ;;
                    Ok (scalar_sub sum_plaintexts pad))
                 (enumerate pubnonces) sum_ciphertexts) = Raise e /\
              (e = ValueError \/ e = AssertionError \/ e = OverflowError)).
  { unfold to_bytes4.
    destruct ((0 <=? idx) && (idx <? 2 ^ 32)); cbn [bind]; [|eauto].
    match goal with
    | |- exists e, ?run = Raise e /\ _ => destruct run as [r|e] eqn:Hrun
    end.
    - exfalso. unfold enumerate in Hrun.
      apply (decrypt_loop_Ok_inv _ _ _ _ _ _ _ _ Hrun i pubnonce Hnth);
        [exact Hother|exact Hnone].
    - exists e. split; [reflexivity|].
      apply py_for_Raise in Hrun.
      destruct Hrun as [s [[j nonce] [_ Hbody]]].
      apply bind_Raise in Hbody. destruct Hbody as [Hpad|[pad [_ Hbody]]];
        [|discriminate].
      apply decaps_pad_Raise in Hpad. tauto. }
  destruct Hcases as [e [Hrun He]].
  exists e. split; [exact Hrun|]. split; [exact He|].
  destruct He as [->|[->| ->]]; reflexivity.
Qed.

(** ** The statements at concrete inputs *)

Section Runs.
#[local] Existing Instance Toy.primitives.
#[local] Existing Instance Toy.core.
#[local] Existing Instance Toy.finalize.
Import ToyRun.

Lemma ecdh_pad_symmetry_witness :
  exists (pad : Scalar) (secret : bytes),
    ecdh (Toy.key x01) (x02 :: Toy.key x01) (x02 :: Toy.key x07) [x2a] true
    = Ok pad /\
    ecdh (Toy.key x07) (x02 :: Toy.key x07) (x02 :: Toy.key x01) [x2a] false
    = Ok pad /\
    ecdh_libsecp256k1 (Toy.key x01) (x02 :: Toy.key x07) = Some secret /\
    pad = mkScalar
            (int_from_bytes
               (tagged_hash_bip_dkg
                  "encpedpop ecdh"
                  ((secret ++ ((x02 :: Toy.key x01) ++ (x02 :: Toy.key x07)))
                     ++ [x2a]))).
Proof.
  apply (ecdh_pad_symmetry (P := Toy.primitives)).
  - exact toy_curve_laws.
  - reflexivity.
  - reflexivity.
Defined.

Lemma decrypt_sum_of_encrypt_multi_witness :
  decrypt_sum (Toy.key x02) (x02 :: Toy.key x02)
              (map Party.pubnonce parties)
              (Scalar_sum (column 1 ciphertexts)) context 1
  = Ok (Scalar_sum (column 1 (map Party.messages parties))).
Proof.
  apply (decrypt_sum_of_encrypt_multi
           parties context ciphertexts 1 (party x02 x12 [13; 17; 19])).
  - exact (laws_commute _ toy_curve_laws).
  - repeat constructor.
  - split; [reflexivity|].
    intros s p c Hp Hc.
    destruct s as [|[|[|s]]]; simpl in Hp, Hc.
    + injection Hp as <-. injection Hc as <-. vm_compute. reflexivity.
    + injection Hp as <-. injection Hc as <-. vm_compute. reflexivity.
    + injection Hp as <-. injection Hc as <-. vm_compute. reflexivity.
    + destruct s; discriminate Hp.
  - reflexivity.
Defined.

Lemma coordinator_step_aggregates_witness :
  exists cmsg dkg_output eq_input enc_secshares,
    coordinator_step full_pmsgs 2 [[x01]; [x02]]
    = Ok (cmsg, dkg_output, eq_input, enc_secshares) /\
    length enc_secshares = 2%nat /\
    forall i, (i < 2)%nat ->
      nth_error enc_secshares i
      = Some (Scalar_sum
                (map (fun pmsg => nth i (ParticipantMsg.enc_shares pmsg) 0)
                     full_pmsgs)).
Proof.
  apply (coordinator_step_aggregates
           full_pmsgs 2 [[x01]; [x02]] 2 ([[x01]; [x02]], 0, [])).
  - reflexivity.
  - reflexivity.
  - repeat constructor.
  - reflexivity.
Defined.

Lemma participant_step2_wrong_pubnonce_witness :
  participant_step1 seed (Toy.key x01) enckeys 2 0 random
  = Ok (state0, pmsg0) /\
  participant_step2 state0 (Toy.key x01) tampered_cmsg 0
  = Raise (InvalidContributionError
             None "Coordinator replied with wrong pubnonce").
Proof.
  split.
  - reflexivity.
  - apply (participant_step2_wrong_pubnonce
             state0 (Toy.key x01) tampered_cmsg 0 (x02 :: Toy.key xff)).
    + reflexivity.
    + vm_compute. discriminate.
Defined.

Lemma participant_step1_undecodable_enckey_witness :
  exists e,
    participant_step1 seed (Toy.key x01) bad_enckeys 2 0 random = Raise e /\
    (e = ValueError \/ e = AssertionError \/ e = OverflowError) /\
    is_invalid_contribution e = false.
Proof.
  apply (participant_step1_undecodable_enckey
           seed (Toy.key x01) bad_enckeys 2 0 random
           bad_enc_context (x02 :: bad_secnonce)
           (2 : @simpl_ParticipantState Toy.core)
           (bad_simpl_seed : @simpl_ParticipantMsg Toy.core)
           (Toy.shares_of bad_simpl_seed 2)
           1 (repeat x00 33)).
  - reflexivity.
  - reflexivity.
  - reflexivity.
  - vm_compute. reflexivity.
  - reflexivity.
  - reflexivity.
  - reflexivity.
  - discriminate.
  - vm_compute. reflexivity.
Defined.

Lemma coordinator_step_invalid_length_witness :
  exists i pmsg,
    nth_error short_pmsgs i = Some pmsg /\
    length (ParticipantMsg.enc_shares pmsg) <> 2%nat /\
    (forall j other, (j < i)%nat -> nth_error short_pmsgs j = Some other ->
                     length (ParticipantMsg.enc_shares other) = 2%nat) /\
    coordinator_step short_pmsgs 2 [[x01]; [x02]]
    = Raise (InvalidContributionError
               (Some i) "Participant sent enc_shares with invalid length").
Proof.
  apply (coordinator_step_invalid_length
           short_pmsgs 2 [[x01]; [x02]] 2 ([[x01]; [x02]], 0, [])).
  - reflexivity.
  - reflexivity.
  - reflexivity.
  - exists 1%nat, (@ParticipantMsg.mk Toy.core [x02] [x0b] [3]).
    split; [reflexivity|]. simpl. discriminate.
Defined.

Lemma coordinator_step_count_mismatch_witness :
  coordinator_step full_pmsgs 2 [[x01]; [x02]; [x03]] = Raise ValueError.
Proof.
  apply (coordinator_step_count_mismatch full_pmsgs 2 [[x01]; [x02]; [x03]]).
  simpl. discriminate.
Defined.

(** C8, as stated, fails: the decryption key [09..09] does not belong
  to [enckeys[0]], and step 1 returns a state and a message. *)
Lemma participant_step1_accepts_foreign_enckey :
  pubkey_gen_plain (Toy.key x09) <> Some (nth 0 enckeys []) /\
  returns (participant_step1 seed (Toy.key x09) enckeys 2 0 random) = true.
Proof.
  split.
  - vm_compute. discriminate.
  - vm_compute. reflexivity.
Qed.

Lemma decrypt_sum_index_check_witness :
  decrypt_sum (Toy.key x02) (x02 :: Toy.key x02)
              (map Party.pubnonce parties) 0 context 3
  = Raise IndexError /\
  decrypt_sum (Toy.key x02) (x02 :: Toy.key x02)
              (map Party.pubnonce parties) 0 context 1
  <> Raise IndexError.
Proof.
  split.
  - apply (proj1 (decrypt_sum_index_check
                    (Toy.key x02) (x02 :: Toy.key x02)
                    (map Party.pubnonce parties) 0 context 3)).
    simpl. lia.
  - apply (proj2 (proj2 (decrypt_sum_index_check
                           (Toy.key x02) (x02 :: Toy.key x02)
                           (map Party.pubnonce parties) 0 context 1))).
    simpl. lia.
Defined.

Lemma own_pad_ignores_nonce_witness :
  exists index_bytes,
    to_bytes4 1 = Ok index_bytes /\
    nth 1 pads1 0 = self_pad (Toy.key x02) (index_bytes ++ context) /\
    nth 1 pads1' 0 = self_pad (Toy.key x02) (index_bytes ++ context) /\
    nth 1 ciphertexts1 0
    = scalar_add 17 (self_pad (Toy.key x02) (index_bytes ++ context)) /\
    nth 1 ciphertexts1' 0
    = scalar_add 17 (self_pad (Toy.key x02) (index_bytes ++ context)).
Proof.
  destruct (own_pad_ignores_nonce
              (Toy.key x12) (x02 :: Toy.key x12)
              (Toy.key x77) (x02 :: Toy.key x77) (Toy.key x02)
              enckeys [13; 17; 19] context 1) as [Hpads Hciphertexts].
  - simpl. lia.
  - destruct (Hpads pads1 pads1') as [index_bytes [Hbytes [Hpad Hpad']]].
    + vm_compute. reflexivity.
    + vm_compute. reflexivity.
    + destruct (Hciphertexts ciphertexts1 ciphertexts1')
        as [index_bytes' [Hbytes' [Hct Hct']]].
      * vm_compute. reflexivity.
      * vm_compute. reflexivity.
      * exists index_bytes. rewrite Hbytes in Hbytes'.
        injection Hbytes' as <-.
        split; [exact Hbytes|]. split; [exact Hpad|].
        split; [exact Hpad'|]. split; [exact Hct|exact Hct'].
Defined.

(** The two variants on the same keys, the second of which does not
  decode: the nonce-based variant lets the library's exception
  through, the older one names participant 1. *)
Example participant_step1_bad_enckey_run :
  participant_step1 seed (Toy.key x01) bad_enckeys 2 0 random
  = Raise ValueError.
Proof. reflexivity. Qed.

Example reference_signer_round1_bad_enckey_run :
  Reference.signer_round1 seed 2 2 (Toy.key x01) bad_enckeys 0
  = Raise (InvalidContributionError
             (Some 1%nat) "Participant sent invalid encryption key").
Proof. reflexivity. Qed.

Lemma participant_step1_rejects_parameters_witness :
  participant_step1 seed (Toy.key x01) enckeys (2 ^ 32) 0 random
  = Raise AssertionError /\
  participant_step1 seed (Toy.key x01) enckeys 2 0 [x00]
  = Raise AssertionError /\
  participant_step1 seed (Toy.key x01) enckeys (-1) 0 random
  = Raise OverflowError.
Proof.
  split; [|split].
  - apply (proj1 (participant_step1_rejects_parameters
                    seed (Toy.key x01) enckeys (2 ^ 32) 0 random)).
    lia.
  - apply (proj1 (proj2 (participant_step1_rejects_parameters
                           seed (Toy.key x01) enckeys 2 0 [x00]))).
    + lia.
    + simpl. discriminate.
  - apply (proj2 (proj2 (participant_step1_rejects_parameters
                           seed (Toy.key x01) enckeys (-1) 0 random))).
    + lia.
    + reflexivity.
Defined.

Lemma participant_step1_returns_shape_witness :
  0 <= 2 < 2 ^ 32 /\
  length random = 32%nat /\
  ParticipantState.enckeys state0 = enckeys /\
  ParticipantState.idx state0 = 0 /\
  ParticipantState.pubnonce state0 = ParticipantMsg.pubnonce pmsg0 /\
  length (ParticipantMsg.enc_shares pmsg0) = length enckeys /\
  exists enc_context,
    serialize_enc_context 2 enckeys = Ok enc_context /\
    pubkey_gen_plain (prf seed "encpodpop secnonce" (random ++ enc_context))
    = Some (ParticipantMsg.pubnonce pmsg0).
Proof.
  apply (participant_step1_returns_shape
           seed (Toy.key x01) enckeys 2 0 random state0 pmsg0).
  reflexivity.
Defined.

Lemma participant_step1_returns_witness :
  exists enc_shares,
    participant_step1 seed (Toy.key x01) enckeys 2 0 random
    = Ok (ParticipantState.mk (2 : @simpl_ParticipantState Toy.core)
                              pubnonce0 enckeys 0,
          ParticipantMsg.mk (simpl_seed0 : @simpl_ParticipantMsg Toy.core)
                            pubnonce0 enc_shares) /\
    length enc_shares = length enckeys.
Proof.
  apply (participant_step1_returns
           seed (Toy.key x01) enckeys 2 0 random enc_context pubnonce0
           (2 : @simpl_ParticipantState Toy.core)
           (simpl_seed0 : @simpl_ParticipantMsg Toy.core)
           (Toy.shares_of simpl_seed0 3)).
  - exact toy_curve_laws.
  - reflexivity.
  - simpl. lia.
  - reflexivity.
  - reflexivity.
  - reflexivity.
  - reflexivity.
  - intros i enckey Hnth Hother.
    destruct i as [|[|[|i]]]; simpl in Hnth.
    + exfalso. apply Hother. reflexivity.
    + injection Hnth as <-. exists (Toy.key x02). reflexivity.
    + injection Hnth as <-. exists (Toy.key x03). reflexivity.
    + destruct i; discriminate Hnth.
Defined.

Lemma encrypt_multi_lengths_witness :
  (length ciphertexts1 = length enckeys /\
   length [13; 17; 19] = length enckeys) /\
  encrypt_multi (Toy.key x12) (x02 :: Toy.key x12) (Toy.key x02)
                enckeys [13; 17] context 1 = Raise ValueError.
Proof.
  destruct (encrypt_multi_lengths
              (Toy.key x12) (x02 :: Toy.key x12) (Toy.key x02)
              enckeys [13; 17; 19] context 1) as [Hlen _].
  destruct (encrypt_multi_lengths
              (Toy.key x12) (x02 :: Toy.key x12) (Toy.key x02)
              enckeys [13; 17] context 1) as [_ [Hshort _]].
  split.
  - apply Hlen. vm_compute. reflexivity.
  - apply (Hshort pads1).
    + simpl. discriminate.
    + vm_compute. reflexivity.
Defined.

Lemma coordinator_step_cases_witness :
  coordinator_step short_pmsgs 2 [[x01]; [x02]] =
  ('(simpl_cmsg, dkg_output, eq_input) <-
     simpl_coordinator_step
       (map ParticipantMsg.simpl_pmsg short_pmsgs) 2 2 ;;
   match first_invalid_length short_pmsgs 2 with
   | Some i =>
       Raise (InvalidContributionError
                (Some i) "Participant sent enc_shares with invalid length")
   | None =>
       Ok (CoordinatorMsg.mk
             simpl_cmsg (map ParticipantMsg.pubnonce short_pmsgs),
           dkg_output,
           eq_input ++ (join [[x01]; [x02]]
                        ++ join (map ParticipantMsg.pubnonce short_pmsgs)),
           map (fun i =>
                  Scalar_sum
                    (column i (map ParticipantMsg.enc_shares short_pmsgs)))
               (range 2))
   end).
Proof.
  apply (coordinator_step_cases short_pmsgs 2 [[x01]; [x02]]).
  reflexivity.
Defined.

Lemma participant_step2_short_message_witness :
  participant_step2 state0 (Toy.key x01)
                    (CoordinatorMsg.mk [] []) 0 = Raise IndexError /\
  is_invalid_contribution IndexError = false.
Proof.
  apply (participant_step2_short_message
           state0 (Toy.key x01) (@CoordinatorMsg.mk Toy.core [] []) 0).
  left. simpl. lia.
Defined.

Lemma decrypt_sum_negative_index_witness :
  decrypt_sum (Toy.key x02) (x02 :: Toy.key x02)
              (map Party.pubnonce parties) 0 context (-1)
  = Raise OverflowError.
Proof.
  apply (decrypt_sum_negative_index
           (Toy.key x02) (x02 :: Toy.key x02)
           (map Party.pubnonce parties) 0 context (-1)).
  lia.
Defined.

Lemma recipient_context_injective_witness :
  258 = 258 /\ context = context.
Proof.
  apply (recipient_context_injective
           258 258 [x00; x00; x01; x02] [x00; x00; x01; x02] context context).
  - reflexivity.
  - reflexivity.
  - reflexivity.
Defined.

Lemma serialize_enc_context_injective_witness :
  2 = 2 /\ enckeys = enckeys.
Proof.
  apply (serialize_enc_context_injective 2 2 enckeys enckeys enc_context).
  - repeat constructor.
  - repeat constructor.
  - reflexivity.
  - reflexivity.
Defined.

Lemma toy_core_stores_threshold : core_stores_threshold Toy.core.
Proof.
  intros seed' t n idx simpl_state simpl_pmsg shares H.
  simpl in H. injection H as <- _ _. reflexivity.
Qed.

Lemma toy_own_keys : own_keys inputs enckeys.
Proof.
  split; [reflexivity|].
  intros i input enckey Hinput Hkey.
  destruct i as [|[|[|i]]]; simpl in Hinput, Hkey.
  - injection Hinput as <-. injection Hkey as <-. reflexivity.
  - injection Hinput as <-. injection Hkey as <-. reflexivity.
  - injection Hinput as <-. injection Hkey as <-. reflexivity.
  - destruct i; discriminate Hinput.
Qed.

Lemma toy_step1_outputs : step1_outputs inputs enckeys 2 session_outputs.
Proof.
  split; [reflexivity|].
  intros i input output Hinput Houtput.
  destruct i as [|[|[|i]]]; simpl in Hinput.
  - injection Hinput as <-.
    assert (E : nth 0 session_outputs no_output = output)
      by (apply nth_error_nth; exact Houtput).
    rewrite <- E. reflexivity.
  - injection Hinput as <-.
    assert (E : nth 1 session_outputs no_output = output)
      by (apply nth_error_nth; exact Houtput).
    rewrite <- E. reflexivity.
  - injection Hinput as <-.
    assert (E : nth 2 session_outputs no_output = output)
      by (apply nth_error_nth; exact Houtput).
    rewrite <- E. reflexivity.
  - destruct i; discriminate Hinput.
Qed.

Lemma toy_step1_shares : step1_shares inputs enckeys 2 session_shares.
Proof.
  split; [reflexivity|].
  intros i input dealt Hinput Hdealt.
  destruct i as [|[|[|i]]]; simpl in Hinput.
  - injection Hinput as <-.
    assert (E : nth 0 session_shares [] = dealt)
      by (apply nth_error_nth; exact Hdealt).
    rewrite <- E. reflexivity.
  - injection Hinput as <-.
    assert (E : nth 1 session_shares [] = dealt)
      by (apply nth_error_nth; exact Hdealt).
    rewrite <- E. reflexivity.
  - injection Hinput as <-.
    assert (E : nth 2 session_shares [] = dealt)
      by (apply nth_error_nth; exact Hdealt).
    rewrite <- E. reflexivity.
  - destruct i; discriminate Hinput.
Qed.

Lemma toy_coordinator_output :
  coordinator_step (map snd session_outputs) 2 enckeys
  = Ok (session_cmsg, session_dkg_output, session_eq_input,
        session_enc_secshares).
Proof. reflexivity. Qed.

Lemma transcripts_agree_witness :
  exists simpl_cmsg core_eq_c secshare core_eq_p,
    simpl_coordinator_step
      (map ParticipantMsg.simpl_pmsg (map snd session_outputs)) 2
      (length enckeys)
    = Ok (simpl_cmsg, session_dkg_output, core_eq_c) /\
    simpl_participant_step2
      (ParticipantState.simpl_state state1) simpl_cmsg secshare
    = Ok (fst step2_output, core_eq_p) /\
    session_eq_input
    = core_eq_c
      ++ (join enckeys
          ++ join (map ParticipantMsg.pubnonce (map snd session_outputs))) /\
    snd step2_output
    = core_eq_p
      ++ (join enckeys
          ++ join (map ParticipantMsg.pubnonce (map snd session_outputs))) /\
    (session_eq_input = snd step2_output <-> core_eq_c = core_eq_p).
Proof.
  apply (transcripts_agree
           (map snd session_outputs) 2 enckeys session_cmsg
           session_dkg_output session_eq_input session_enc_secshares
           state1 (Toy.key x02) (nth 1 session_enc_secshares 0)
           (fst step2_output) (snd step2_output)).
  - exact toy_coordinator_output.
  - vm_compute. reflexivity.
  - vm_compute. reflexivity.
Defined.

Lemma session_step2_receives_sum_of_shares_witness :
  exists enc_secshare,
    nth_error session_enc_secshares 1 = Some enc_secshare /\
    participant_step2 state1 (Toy.key x02) session_cmsg enc_secshare =
    ('(dkg_output, eq_input) <-
       simpl_participant_step2
         (ParticipantState.simpl_state state1)
         (CoordinatorMsg.simpl_cmsg session_cmsg)
         (Scalar_sum (column 1 session_shares)) ;;
     Ok (dkg_output,
         eq_input ++ (join enckeys
                      ++ join (map ParticipantMsg.pubnonce
                                   (map snd session_outputs))))).
Proof.
  apply (session_step2_receives_sum_of_shares
           inputs enckeys 2 session_outputs session_shares
           session_cmsg session_dkg_output session_eq_input
           session_enc_secshares 1
           (Input.mk (Toy.key x2b) (Toy.key x02) (Toy.key x64))
           state1 pmsg1).
  - exact (laws_commute _ toy_curve_laws).
  - exact toy_core_stores_threshold.
  - exact toy_own_keys.
  - exact toy_step1_outputs.
  - exact toy_step1_shares.
  - exact toy_coordinator_output.
  - reflexivity.
  - reflexivity.
Defined.

Lemma toy_round1_outputs : round1_outputs signers enckeys 2 round1.
Proof.
  split; [reflexivity|].
  intros i signer output Hsigner Houtput.
  destruct i as [|[|[|i]]]; simpl in Hsigner.
  - injection Hsigner as <-.
    assert (E : nth 0 round1 no_round1 = output)
      by (apply nth_error_nth; exact Houtput).
    rewrite <- E. reflexivity.
  - injection Hsigner as <-.
    assert (E : nth 1 round1 no_round1 = output)
      by (apply nth_error_nth; exact Houtput).
    rewrite <- E. reflexivity.
  - injection Hsigner as <-.
    assert (E : nth 2 round1 no_round1 = output)
      by (apply nth_error_nth; exact Houtput).
    rewrite <- E. reflexivity.
  - destruct i; discriminate Hsigner.
Qed.

Lemma toy_round1_shares : round1_shares signers enckeys 2 round1_dealt.
Proof.
  split; [reflexivity|].
  intros i signer dealt Hsigner Hdealt.
  destruct i as [|[|[|i]]]; simpl in Hsigner.
  - injection Hsigner as <-.
    assert (E : nth 0 round1_dealt [] = dealt)
      by (apply nth_error_nth; exact Hdealt).
    rewrite <- E. reflexivity.
  - injection Hsigner as <-.
    assert (E : nth 1 round1_dealt [] = dealt)
      by (apply nth_error_nth; exact Hdealt).
    rewrite <- E. reflexivity.
  - injection Hsigner as <-.
    assert (E : nth 2 round1_dealt [] = dealt)
      by (apply nth_error_nth; exact Hdealt).
    rewrite <- E. reflexivity.
  - destruct i; discriminate Hsigner.
Qed.

Lemma toy_pairwise_shared_secrets : pairwise_shared_secrets signers enckeys.
Proof.
  split; [reflexivity|].
  intros i j a b enckey_i enckey_j Hi Hj Hki Hkj.
  destruct i as [|[|[|i]]]; simpl in Hi, Hki;
    try (destruct i; discriminate Hi);
    injection Hi as <-; injection Hki as <-;
    destruct j as [|[|[|j]]]; simpl in Hj, Hkj;
    try (destruct j; discriminate Hj);
    injection Hj as <-; injection Hkj as <-;
    vm_compute; reflexivity.
Qed.

Lemma reference_signer_round1_returns_shape_witness :
  length (Reference.Unicast1.enc_shares signer_uni1) = length enckeys /\
  (forall i, Z.of_nat i = 1 -> (i < length enckeys)%nat ->
             nth_error (Reference.Unicast1.enc_shares signer_uni1) i
             = Some 0) /\
  (forall i enckey, nth_error enckeys i = Some enckey ->
                    Z.of_nat i <> 1 ->
                    ecdh_raw (Toy.key x02) enckey <> None) /\
  Reference.SignerState1.t_ signer_state1 = 2 /\
  Reference.SignerState1.deckey signer_state1 = Toy.key x02 /\
  Reference.SignerState1.enckeys signer_state1 = enckeys /\
  Reference.SignerState1.idx signer_state1 = 1 /\
  exists t_bytes simpl_uni1 shares,
    to_bytes4 2 = Ok t_bytes /\
    simpl_signer_round1
      (tagged_hash_bip_dkg
         "EncPedPop seed" (Toy.key x2b ++ (t_bytes ++ join enckeys)))
      2 (length enckeys) 1
    = Ok (Reference.SignerState1.simpl_state signer_state1, simpl_uni1,
          shares) /\
    py_index shares 1 = Ok (Reference.SignerState1.self_share signer_state1).
Proof.
  apply (reference_signer_round1_returns_shape
           (Toy.key x2b) 2 3 (Toy.key x02) enckeys 1
           signer_state1 signer_uni1).
  reflexivity.
Defined.

Lemma reference_decrypt_sum_outcome_witness :
  (exists shares_sum,
      Reference.decrypt_sum 100 (Toy.key x02) enckeys 1 context
      = Ok shares_sum /\
      mkScalar shares_sum =
      mkScalar (100
                - Zsum (map (fun i =>
                               if Z.of_nat i =? 1 then 0
                               else reference_pad (Toy.key x02) enckeys
                                                  context i)
                            (range (length enckeys))))) /\
  Reference.decrypt_sum 100 (Toy.key x01) bad_enckeys 0 context
  = Raise ValueError.
Proof.
  split.
  - apply (proj1 (reference_decrypt_sum_outcome
                    100 (Toy.key x02) enckeys 1 context)).
    intros i enckey Hkey _.
    destruct i as [|[|[|i]]]; simpl in Hkey.
    + injection Hkey as <-. vm_compute. discriminate.
    + injection Hkey as <-. vm_compute. discriminate.
    + injection Hkey as <-. vm_compute. discriminate.
    + destruct i; discriminate Hkey.
  - apply (proj2 (reference_decrypt_sum_outcome
                    100 (Toy.key x01) bad_enckeys 0 context)).
    exists 1%nat, (repeat x00 33).
    split; [reflexivity|]. split; [discriminate|]. reflexivity.
Defined.

Lemma reference_pre_finalize_after_round1_witness :
  exists t_bytes shares_sum,
    to_bytes4 2 = Ok t_bytes /\
    Reference.decrypt_sum 12345 (Toy.key x02) enckeys 1
                          (t_bytes ++ join enckeys)
    = Ok shares_sum /\
    Reference.signer_pre_finalize
      signer_state1 (Reference.Broadcast1.mk [x07] 12345) =
    ('(eta, dkg_output) <-
       simpl_signer_pre_finalize
         (Reference.SignerState1.simpl_state signer_state1) [x07]
         (scalar_add shares_sum
                     (Reference.SignerState1.self_share signer_state1)) ;;
     Ok (eta ++ join enckeys, dkg_output)).
Proof.
  apply (reference_pre_finalize_after_round1
           (Toy.key x2b) 2 3 (Toy.key x02) enckeys 1
           signer_state1 signer_uni1
           (@Reference.Broadcast1.mk Toy.core Toy.finalize [x07] 12345)).
  reflexivity.
Defined.

Lemma reference_session_receives_sum_of_shares_witness :
  Reference.signer_pre_finalize
    signer_state1
    (Reference.Broadcast1.mk
       [x07]
       (Scalar_sum
          (column 1 (map Reference.Unicast1.enc_shares (map snd round1)))))
  = ('(eta, dkg_output) <-
       simpl_signer_pre_finalize
         (Reference.SignerState1.simpl_state signer_state1) [x07]
         (Scalar_sum (column 1 round1_dealt)) ;;
     Ok (eta ++ join enckeys, dkg_output)).
Proof.
  apply (reference_session_receives_sum_of_shares
           signers enckeys 2 round1 round1_dealt 1
           (SignerInput.mk (Toy.key x2b) (Toy.key x02))
           signer_state1 signer_uni1
           ([x07] : @simpl_Broadcast1 Toy.core Toy.finalize)).
  - exact toy_pairwise_shared_secrets.
  - exact toy_round1_outputs.
  - exact toy_round1_shares.
  - reflexivity.
  - reflexivity.
Defined.

Lemma decrypt_sum_returns_witness :
  exists sum_plaintexts,
    decrypt_sum (Toy.key x02) (x02 :: Toy.key x02)
                (map Party.pubnonce parties) 0 context 1
    = Ok sum_plaintexts.
Proof.
  apply (decrypt_sum_returns
           (Toy.key x02) (x02 :: Toy.key x02)
           (map Party.pubnonce parties) 0 context 1).
  - exact toy_curve_laws.
  - reflexivity.
  - simpl. lia.
  - lia.
  - intros i pubnonce Hnth Hother.
    destruct i as [|[|[|i]]]; simpl in Hnth.
    + injection Hnth as <-. exists (Toy.key x11). reflexivity.
    + exfalso. apply Hother. reflexivity.
    + injection Hnth as <-. exists (Toy.key x13). reflexivity.
    + destruct i; discriminate Hnth.
Defined.

Lemma decrypt_sum_undecodable_pubnonce_witness :
  exists e,
    decrypt_sum (Toy.key x01) (x02 :: Toy.key x01) bad_enckeys 0 context 0
    = Raise e /\
    (e = ValueError \/ e = AssertionError \/ e = OverflowError) /\
    is_invalid_contribution e = false.
Proof.
  apply (decrypt_sum_undecodable_pubnonce
           (Toy.key x01) (x02 :: Toy.key x01) bad_enckeys 0 context 0
           1 (repeat x00 33)).
  - simpl. lia.
  - reflexivity.
  - discriminate.
  - reflexivity.
Defined.

End Runs.
